(** * A shallow embedding of the [tree] package (node.go and its colour
      classifier) with the properties of its traversal, sorting, rendering,
      colouring and byte-size formatting.

    Texts are byte strings.  The storage is taken as it stands during one
    run: [Stat] and [ReadDir] are functions of the path.  Counts and
    depths are Go [int]s, far from their bounds, and are kept in [Z]; the
    sizes summed by [dirRecursiveSize] are [int64]s and wrap around.
    [Visit] and [print] recurse on what the storage gives, so both carry a
    bound on the depth of their recursion, the fuel, and the theorems show
    which fuel is enough on a finite storage. *)

From Stdlib Require Import ZArith Lia Bool Ascii String List DecimalString.
From Stdlib Require Import Permutation Sorted.
From stdpp Require Import base option list gmap strings.

Local Open Scope string_scope.
Local Open Scope Z_scope.

(** ** Text helpers standing for [fmt], [strconv] and [strings] *)

Module Text.

(** [strconv.Itoa] and the verb [%d]: decimal digits, a leading minus sign
    for negative numbers. *)
Definition Itoa (z : Z) : string := NilZero.string_of_int (Z.to_int z).

Fixpoint spaces (n : nat) : string :=
  match n with
  | O => ""
  | S k => String " " (spaces k)
  end.

(** The verbs [%Ns] and [%Nd]: right-justified in a field of [w] bytes
    (Go counts characters, which are bytes for ASCII texts). *)
Definition pad_left (w : nat) (s : string) : string :=
  spaces (w - String.length s) +:+ s.

(** The verb [%-Ns]: left-justified in a field of [w] bytes. *)
Definition pad_right (w : nat) (s : string) : string :=
  s +:+ spaces (w - String.length s).

Definition space : ascii := " "%char.

Fixpoint TrimLeft (s : string) : string :=
  match s with
  | String c r => if Ascii.eqb c space then TrimLeft r else s
  | EmptyString => EmptyString
  end.

Fixpoint rev_string (s acc : string) : string :=
  match s with
  | EmptyString => acc
  | String c r => rev_string r (String c acc)
  end.

(** [strings.Trim(s, " ")]. *)
Definition Trim (s : string) : string :=
  rev_string (TrimLeft (rev_string (TrimLeft s) "")) "".

(** [strings.HasPrefix]. *)
Definition HasPrefix (s p : string) : bool := String.prefix p s.

(** [strings.Join]. *)
Definition Join (l : list string) (sep : string) : string := String.concat sep l.

(** [strings.Split(s, sep)] for a non-empty [sep]: the pieces between the
    non-overlapping occurrences of [sep], found from the left.  [skip]
    counts the bytes of a separator still to be passed over and [cur] is
    the piece being read. *)
Fixpoint split_from (sep : string) (skip : nat) (cur s : string) : list string :=
  match s with
  | EmptyString => [cur]
  | String c r =>
      match skip with
      | S k => split_from sep k cur r
      | O =>
          if String.prefix sep s
          then cur :: split_from sep (String.length sep - 1) "" r
          else split_from sep 0 (cur +:+ String c "") r
      end
  end.

Definition Split (s sep : string) : list string := split_from sep 0 "" s.

Fixpoint drop_bytes (n : nat) (s : string) : string :=
  match n, s with
  | S k, String _ r => drop_bytes k r
  | _, _ => s
  end.

(** The text after the first occurrence of [sep], when there is one. *)
Fixpoint after_first (sep : string) (s : string) : option string :=
  match s with
  | EmptyString => None
  | String c r =>
      if String.prefix sep s
      then Some (drop_bytes (String.length sep) s)
      else after_first sep r
  end.

Fixpoint all_chars (P : ascii -> bool) (s : string) : bool :=
  match s with
  | EmptyString => true
  | String c r => P c && all_chars P r
  end.

Fixpoint last_char (s : string) : option ascii :=
  match s with
  | EmptyString => None
  | String c EmptyString => Some c
  | String _ r => last_char r
  end.

Definition is_digit (c : ascii) : bool :=
  let n := nat_of_ascii c in (48 <=? n)%nat && (n <=? 57)%nat.

Definition is_digit_or_minus (c : ascii) : bool :=
  is_digit c || Ascii.eqb c "-"%char.

Definition not_space (c : ascii) : bool := negb (Ascii.eqb c space).

End Text.

(** ** The byte-size formatter *)

Module Bytes.
Import Text.

(** An [int64] holds the integers of this range. *)
Definition int64_range (i : Z) : Prop := - 2 ^ 63 <= i < 2 ^ 63.

(** Wrap-around of [int64] addition. *)
Definition wrap64 (z : Z) : Z := (z + 2 ^ 63) mod 2 ^ 64 - 2 ^ 63.

(** Division rounded to the nearest integer, ties to the even one. *)
Definition div_half_even (a b : Z) : Z :=
  let q := a / b in
  let r := a mod b in
  if 2 * r <? b then q
  else if b <? 2 * r then q + 1
  else if Z.even q then q else q + 1.

(** A [float64] that is an integer divided by a power of two:
    [num / 2 ^ scale].  Every value [formatBytes] computes has this form. *)
Record dyadic := Dyadic { num : Z; scale : Z }.

(** The conversion [float64(i)]: exact up to 53 bits, rounded to the
    nearest representable value (ties to even) above. *)
Definition float64_of_int (i : Z) : dyadic :=
  let a := Z.abs i in
  if a <? 2 ^ 53 then Dyadic i 0
  else
    let e := Z.log2 a - 52 in
    Dyadic (Z.sgn i * (div_half_even a (2 ^ e) * 2 ^ e)) 0.

(** The integer that [float64(i)] is. *)
Definition float64_value (i : Z) : Z := num (float64_of_int i).

(** [n / 1024]: exact, the exponent drops by ten. *)
Definition div1024 (n : dyadic) : dyadic := Dyadic (num n) (scale n + 10).

(** [n >= 10]. *)
Definition ge10 (n : dyadic) : bool := 10 * 2 ^ scale n <=? num n.

(** [fmt.Sprintf("%.0f", n)] and [fmt.Sprintf("%.01f", n)]: the exact value
    rounded to [prec] decimals, ties to even. *)
Definition format_f (prec : nat) (n : dyadic) : string :=
  let sign := if num n <? 0 then "-" else "" in
  let a := Z.abs (num n) in
  match prec with
  | O => sign +:+ Itoa (div_half_even a (2 ^ scale n))
  | S _ =>
      let q := div_half_even (10 * a) (2 ^ scale n) in
      sign +:+ Itoa (q / 10) +:+ "." +:+ Itoa (q mod 10)
  end.

Definition GiB : Z := 1024 * 1024 * 1024.
Definition MiB : Z := 1024 * 1024.
Definition KiB : Z := 1024.

(** [formatBytes]: [sFmt] is kept as the number of decimals. *)
Definition formatBytes (i : Z) : string :=
  let '(sFmt, eFmt, n) :=
    if GiB <? i then (1%nat, "G", div1024 (div1024 (div1024 (float64_of_int i))))
    else if MiB <? i then (1%nat, "M", div1024 (div1024 (float64_of_int i)))
    else if KiB <? i then (1%nat, "K", div1024 (float64_of_int i))
    else (0%nat, "", float64_of_int i) in
  let sFmt := if negb (String.eqb eFmt "") && ge10 n then 0%nat else sFmt in
  Trim (format_f sFmt n +:+ eFmt).

(** The text of the value [v / 2 ^ k], for [0 <= v], as the formatter
    writes a scaled size: no decimals from ten on, one decimal below. *)
Definition scaled_text (v k : Z) : string :=
  if 10 * 2 ^ k <=? v then Itoa (div_half_even v (2 ^ k))
  else
    let q := div_half_even (10 * v) (2 ^ k) in
    Itoa (q / 10) +:+ "." +:+ Itoa (q mod 10).

End Bytes.

(** ** File metadata, nodes and options *)

(** [syscall.Stat_t], the fields the renderer reads. *)
Record Stat_t := mkStat { Ino : Z; Dev : Z; Uid : Z; Gid : Z }.

(** What [FileInfo.Sys()] holds, as seen by the type assertion to a
    pointer to [syscall.Stat_t]: such a pointer, a nil pointer of that
    type, or a value of any other type (the nil interface among them). *)
Inductive SysValue :=
| SysStat (st : Stat_t)
| SysNilStat
| SysOther.

(** [os.FileInfo]: an interface, so [IsDir] is an answer of its own and is
    not computed from [Mode]. *)
Record FileInfo := mkFileInfo {
  Name : string;
  Size : Z;
  Mode : Z;
  ModTime : Z;
  IsDir : bool;
  Sys : SysValue
}.

(** The mode bits of Go's [os] package that the package tests. *)
Definition ModeDir : Z := 2 ^ 31.
Definition ModeSymlink : Z := 2 ^ 27.
Definition ModeDevice : Z := 2 ^ 26.
Definition ModeNamedPipe : Z := 2 ^ 25.
Definition ModeSocket : Z := 2 ^ 24.
Definition ModeCharDevice : Z := 2 ^ 21.

(** [mode&bit == bit]. *)
Definition has_mode (mode bit : Z) : bool := Z.land mode bit =? bit.

(** [Node]: the embedded [os.FileInfo] is [None] until [Stat] succeeds and
    [err] is [None] for a nil error.  The field [vpaths] is one map shared
    by every node of a tree (each child and each followed link receives the
    parent's map), so it is kept once, in the state threaded through
    [Visit] and [print]. *)
#[warnings="-register-all"]
Inductive Node := mkNode {
  info : option FileInfo;
  path : string;
  depth : Z;
  err : option string;
  nodes : list Node
}.

Definition set_info (fi : FileInfo) (n : Node) : Node :=
  mkNode (Some fi) (path n) (depth n) (err n) (nodes n).
Definition set_err (e : string) (n : Node) : Node :=
  mkNode (info n) (path n) (depth n) (Some e) (nodes n).
Definition set_nodes (l : list Node) (n : Node) : Node :=
  mkNode (info n) (path n) (depth n) (err n) l.

(** [New]. *)
Definition New (p : string) : Node := mkNode None p 0 None [].

(** The storage interface [Fs]; an error is its text, and a call gives
    either the value or the error. *)
Record Fs := mkFs {
  Stat : string -> FileInfo + string;
  ReadDir : string -> list string + string
}.

(** Where text is written: the process's standard output, or another
    writer. *)
Inductive Sink :=
| Stdout
| Writer (id : nat).

(** [Options]; the field [Fs] is [fs] here, [Fs] being the type. *)
Record Options := mkOptions {
  fs : Fs;
  OutFile : Sink;
  (* List *)
  All : bool;
  DirsOnly : bool;
  FullPath : bool;
  IgnoreCase : bool;
  FollowLink : bool;
  DeepLevel : Z;
  Pattern : string;
  IPattern : string;
  (* File *)
  ByteSize : bool;
  UnitSize : bool;
  FileMode : bool;
  ShowUid : bool;
  ShowGid : bool;
  LastMod : bool;
  Quotes : bool;
  Inodes : bool;
  Device : bool;
  (* Sort *)
  NoSort : bool;
  VerSort : bool;
  ModSort : bool;
  DirSort : bool;
  NameSort : bool;
  SizeSort : bool;
  CTimeSort : bool;
  ReverSort : bool;
  (* Graphics *)
  NoIndent : bool;
  Colorize : bool
}.

(** [SortFunc]: a comparison of two [os.FileInfo] values, nil for a node
    whose stat failed.  The comparison functions are defined in another
    file of the package and are taken here as total functions. *)
Definition SortFunc : Type := option FileInfo -> option FileInfo -> bool.

(** What the package takes from outside its two files: the operating
    system and Go's library ([path/filepath], [os], [os/user], [regexp],
    [time], [sort], [strings.ToLower] with its Unicode tables) and the comparison functions [ModSort], [CTimeSort],
    [DirSort], [VerSort], [SizeSort] and [NameSort] of the package's sort
    file, named [fnModSort] and so on to keep them apart from the options
    of the same names.  [sort_Sort less l] is [sort.Sort] on a slice
    holding [l] whose [Less(i, j)] is [less] on the elements at [i] and
    [j]. *)
Record World := mkWorld {
  filepath_Abs : string -> option string;
  filepath_Clean : string -> string;
  filepath_Join : string -> string -> string;
  filepath_EvalSymlinks : string -> option string;
  os_Readlink : string -> option string;
  user_LookupId : string -> option string;
  regexp_Compile : string -> option (string -> bool);
  time_Format : Z -> string;
  FileMode_String : Z -> string;
  sort_Sort : (Node -> Node -> bool) -> list Node -> list Node;
  fnModSort : SortFunc;
  fnCTimeSort : SortFunc;
  fnDirSort : SortFunc;
  fnVerSort : SortFunc;
  fnSizeSort : SortFunc;
  fnNameSort : SortFunc;
  strings_ToLower : string -> string
}.

(** ** The colour classifier *)

Module Color.

Definition Escape : string := String (ascii_of_nat 27) "".
Definition Reset : Z := 0.
Definition Bold : Z := 1.
(** [Black] stands third in the constant block, so [iota + 28] is 30. *)
Definition Black : Z := 2 + 28.
Definition Red : Z := 3 + 28.
Definition Green : Z := 4 + 28.
Definition Yellow : Z := 5 + 28.
Definition Blue : Z := 6 + 28.
Definition Magenta : Z := 7 + 28.
Definition Cyan : Z := 8 + 28.
Definition White : Z := 9 + 28.

(** The lowering of the letters A to Z, every other byte kept: what
    [strings.ToLower] does to ASCII text.  [ANSIColor] calls
    [strings_ToLower] of the [World]; this one states what is known of
    it, and serves the small worlds of the examples. *)
Definition lower_char (c : ascii) : ascii :=
  let n := nat_of_ascii c in
  if (65 <=? n)%nat && (n <=? 90)%nat then ascii_of_nat (n + 32) else c.

Fixpoint ToLower (s : string) : string :=
  match s with
  | EmptyString => EmptyString
  | String c r => String (lower_char c) (ToLower r)
  end.

Definition is_ascii (s : string) : bool :=
  Text.all_chars (fun c => (nat_of_ascii c <? 128)%nat) s.

(** Equality of two texts up to the case of their ASCII letters, written
    without [ToLower] to state what case-insensitive matching means. *)
Definition is_upper (c : ascii) : bool :=
  let n := nat_of_ascii c in (65 <=? n)%nat && (n <=? 90)%nat.

Definition same_letter (a b : ascii) : bool :=
  Ascii.eqb a b
  || (is_upper a && (nat_of_ascii b =? nat_of_ascii a + 32)%nat)
  || (is_upper b && (nat_of_ascii a =? nat_of_ascii b + 32)%nat).

Fixpoint eq_nocase (s t : string) : bool :=
  match s, t with
  | EmptyString, EmptyString => true
  | String a s', String b t' => same_letter a b && eq_nocase s' t'
  | _, _ => false
  end.

(** [filepath.Ext]: the suffix that starts at the last dot of the last
    element of the path, empty when that element has no dot.  [found] is
    the suffix from the last dot read since the last separator. *)
Fixpoint Ext_from (s found : string) : string :=
  match s with
  | EmptyString => found
  | String c r =>
      if Ascii.eqb c "."%char then Ext_from r s
      else if Ascii.eqb c "/"%char then Ext_from r ""
      else Ext_from r found
  end.

Definition Ext (p : string) : string := Ext_from p "".

Definition one_of (x : string) (l : list string) : bool :=
  existsb (String.eqb x) l.

(** The three [case] lists of the [switch] on the lowered extension. *)
Definition ext_color (ext : string) : option Z :=
  if one_of ext [".bat"; ".btm"; ".cmd"; ".com"; ".dll"; ".exe"] then Some Green
  else if one_of ext [".arj"; ".bz2"; ".deb"; ".gz"; ".lzh"; ".rpm"; ".tar";
                      ".taz"; ".tb2"; ".tbz2"; ".tbz"; ".tgz"; ".tz"; ".tz2";
                      ".z"; ".zip"; ".zoo"] then Some Red
  else if one_of ext [".asf"; ".avi"; ".bmp"; ".flac"; ".gif"; ".jpg"; "jpeg";
                      ".m2a"; ".m2v"; ".mov"; ".mp3"; ".mpeg"; ".mpg"; ".ogg";
                      ".ppm"; ".rm"; ".tga"; ".tif"; ".wav"; ".wmv"; ".xbm";
                      ".xpm"] then Some Magenta
  else None.

(** The final [Sprintf]: bold and the colour around the text, then reset. *)
Definition wrap (color : Z) (s : string) : string :=
  Escape +:+ "[" +:+ Text.Itoa Bold +:+ ";" +:+ Text.Itoa color +:+ "m" +:+ s
  +:+ Escape +:+ "[" +:+ Text.Itoa Reset +:+ "m".

Definition error_link (s : string) : string :=
  Escape +:+ "[40;" +:+ Text.Itoa Bold +:+ ";" +:+ Text.Itoa Red +:+ "m" +:+ s
  +:+ Escape +:+ "[" +:+ Text.Itoa Reset +:+ "m".

Definition socket_style (s : string) : string :=
  Escape +:+ "[40;" +:+ Text.Itoa Bold +:+ ";" +:+ Text.Itoa Magenta +:+ "m" +:+ s
  +:+ Escape +:+ "[" +:+ Text.Itoa Reset +:+ "m".

Definition fifo_style (s : string) : string :=
  Escape +:+ "[40;" +:+ Text.Itoa Yellow +:+ "m" +:+ s
  +:+ Escape +:+ "[" +:+ Text.Itoa Reset +:+ "m".

Definition device_style (s : string) : string :=
  Escape +:+ "[40;" +:+ Text.Itoa Yellow +:+ ";01m" +:+ s
  +:+ Escape +:+ "[" +:+ Text.Itoa Reset +:+ "m".

(** [ANSIColor] on a node whose [FileInfo] is [fi] and whose path is [p]. *)
Definition ANSIColor_info (w : World) (fi : FileInfo) (p s : string) : string :=
  match ext_color (strings_ToLower w (Ext (Name fi))) with
  | Some color => wrap color s
  | None =>
      (* IsDir *)
      let color := if IsDir fi then Blue else 0 in
      (* IsSymlink, IsOrphan *)
      if has_mode (Mode fi) ModeSymlink
         && negb (bool_decide (is_Some (filepath_EvalSymlinks w p)))
      then error_link s
      else
        let color := if has_mode (Mode fi) ModeSymlink then Cyan else color in
        if has_mode (Mode fi) ModeSocket then socket_style s
        else if has_mode (Mode fi) ModeNamedPipe then fifo_style s
        else if has_mode (Mode fi) ModeDevice then device_style s
        else if has_mode (Mode fi) ModeCharDevice then device_style s
        else wrap color s
  end.

(** [ANSIColor]: calling a method of the nil [FileInfo] panics ([None]). *)
Definition ANSIColor (w : World) (node : Node) (s : string) : option string :=
  match info node with
  | Some fi => Some (ANSIColor_info w fi (path node) s)
  | None => None
  end.

End Color.

(** ** Traversal *)

(** The outcome of [Visit]: the node as the call leaves it, the shared
    visited map, and the two counts [dirs] and [files]. *)
Record Visited := mkVisited {
  v_node : Node;
  v_paths : gmap string bool;
  v_dirs : Z;
  v_files : Z
}.

Section Traversal.
Context (w : World) (opts : Options).

(** The first statement of [Visit]: the cleaned absolute path is entered
    in the visited map when [filepath.Abs] succeeds. *)
Definition record_path (p : string) (vp : gmap string bool) : gmap string bool :=
  match filepath_Abs w p with
  | Some a => <[filepath_Clean w a := true]> vp
  | None => vp
  end.

Definition rePrefix : string := if IgnoreCase opts then "(?i)" else "".

(** [nnode.IsDir()], called only where [Visit] has left a [FileInfo]. *)
Definition node_IsDir (n : Node) : bool :=
  match info n with
  | Some fi => IsDir fi
  | None => false
  end.

(** Pattern matching: the include pattern is set, compiles and does not
    match [name]. *)
Definition pattern_rejects (name : string) : bool :=
  negb (String.eqb (Pattern opts) "")
  && match regexp_Compile w (rePrefix +:+ Pattern opts) with
     | Some re => negb (re name)
     | None => false
     end.

(** IPattern matching: the exclude pattern is set, compiles and matches
    [name]. *)
Definition ipattern_rejects (name : string) : bool :=
  negb (String.eqb (IPattern opts) "")
  && match regexp_Compile w (rePrefix +:+ IPattern opts) with
     | Some re => re name
     | None => false
     end.

(** The three [continue] statements that follow the recursive call: the
    child [nnode] read under [name] is dropped. *)
Definition discarded (name : string) (nnode : Node) : bool :=
  if bool_decide (err nnode = None) && negb (node_IsDir nnode) then
    if DirsOnly opts then true
    else if pattern_rejects name then true
    else ipattern_rejects name
  else false.

(** The "all" option: the name is passed over. *)
Definition hidden (name : string) : bool :=
  negb (All opts) && Text.HasPrefix name ".".

(** The loop over the names of a directory at [ppath] and depth [pdepth];
    [visit] is the recursive call, [acc] is [node.nodes]. *)
Fixpoint visit_names (visit : Node -> gmap string bool -> option Visited)
    (ppath : string) (pdepth : Z) (names : list string)
    (acc : list Node) (vp : gmap string bool) (dirs files : Z)
  : option (list Node * gmap string bool * Z * Z) :=
  match names with
  | [] => Some (acc, vp, dirs, files)
  | name :: rest =>
      if hidden name
      then visit_names visit ppath pdepth rest acc vp dirs files
      else
        let nnode := mkNode None (filepath_Join w ppath name) (pdepth + 1) None [] in
        match visit nnode vp with
        | None => None
        | Some r =>
            if discarded name (v_node r)
            then visit_names visit ppath pdepth rest acc (v_paths r) dirs files
            else visit_names visit ppath pdepth rest (acc ++ [v_node r])
                   (v_paths r) (dirs + v_dirs r) (files + v_files r)
        end
  end.

(** The [switch] of [sort]: the first flag set, in this order. *)
Definition sort_policy : option SortFunc :=
  if ModSort opts then Some (fnModSort w)
  else if CTimeSort opts then Some (fnCTimeSort w)
  else if DirSort opts then Some (fnDirSort w)
  else if VerSort opts then Some (fnVerSort w)
  else if SizeSort opts then Some (fnSizeSort w)
  else if NameSort opts then Some (fnNameSort w)
  else None.

(** [ByFunc.Less] and [sort.Reverse]. *)
Definition ByFunc (fn : SortFunc) (a b : Node) : bool := fn (info a) (info b).
Definition Reverse (less : Node -> Node -> bool) (a b : Node) : bool := less b a.

Definition sort (node : Node) : Node :=
  match sort_policy with
  | Some fn =>
      if ReverSort opts
      then set_nodes (sort_Sort w (Reverse (ByFunc fn)) (nodes node)) node
      else set_nodes (sort_Sort w (ByFunc fn) (nodes node)) node
  | None => node
  end.

(** [Visit]; [None] when [fuel], the bound on the depth of the recursion,
    runs out. *)
Fixpoint Visit (fuel : nat) (node : Node) (vp : gmap string bool) : option Visited :=
  match fuel with
  | O => None
  | S fuel' =>
      let vp := record_path (path node) vp in
      match Stat (fs opts) (path node) with
      | inr e => Some (mkVisited (set_err e node) vp 0 0)
      | inl fi =>
          let node := set_info fi node in
          if negb (IsDir fi) then Some (mkVisited node vp 0 1)
          else if (0 <? DeepLevel opts) && (DeepLevel opts <=? depth node)
          then Some (mkVisited node vp 1 0)
          else
            match ReadDir (fs opts) (path node) with
            | inr e => Some (mkVisited (set_err e node) vp 0 0)
            | inl names =>
                match visit_names (Visit fuel') (path node) (depth node)
                        names [] vp 0 0 with
                | None => None
                | Some (l, vp, dirs, files) =>
                    let node := set_nodes l node in
                    let node := if NoSort opts then node else sort node in
                    Some (mkVisited node vp (dirs + 1) files)
                end
            end
      end
  end.

End Traversal.

(** ** Rendering *)

(** How a run of [print] ends: normally, by a panic, or with the fuel of
    the model used up. *)
Inductive outcome (A : Type) :=
| Done (a : A)
| Panic
| OutOfFuel.
Arguments Done {A} a.
Arguments Panic {A}.
Arguments OutOfFuel {A}.

(** The state of a rendering: the shared visited map and the writes made
    so far, oldest first, each with the sink it went to. *)
Record RState := mkRState {
  vpaths : gmap string bool;
  output : list (Sink * string)
}.

Definition M (A : Type) : Type := RState -> outcome (A * RState).

Definition ret {A} (a : A) : M A := fun st => Done (a, st).

Definition bind {A B} (c : M A) (k : A -> M B) : M B :=
  fun st =>
    match c st with
    | Done (a, st') => k a st'
    | Panic => Panic
    | OutOfFuel => OutOfFuel
    end.

Notation "x <- c ;; k" := (bind c (fun x => k))
  (at level 100, c at next level, right associativity).

Definition write (k : Sink) (s : string) : M unit :=
  fun st => Done (tt, mkRState (vpaths st) (output st ++ [(k, s)])).

(** A nil dereference or a failed type assertion: [None] panics. *)
Definition or_panic {A} (o : option A) : M A :=
  fun st => match o with Some a => Done (a, st) | None => Panic end.

Definition newline : string := String (ascii_of_nat 10) "".
Definition dquote : string := String (ascii_of_nat 34) "".

Section Rendering.
Context (w : World) (opts : Options).

(** [dirRecursiveSize], with the wrap-around of [int64]; [None] is the
    panic of [IsDir] called through a nil [FileInfo]. *)
Fixpoint dirRecursiveSize (node : Node) : option Z :=
  let fix loop (l : list Node) (size : Z) : option Z :=
    match l with
    | [] => Some size
    | nnode :: rest =>
        match err nnode with
        | Some _ => loop rest size
        | None =>
            match info nnode with
            | None => None
            | Some fi =>
                if negb (IsDir fi) then loop rest (Bytes.wrap64 (size + Size fi))
                else match dirRecursiveSize nnode with
                     | Some s => loop rest (Bytes.wrap64 (size + s))
                     | None => None
                     end
            end
        end
    end in
  match node with
  | mkNode _ _ _ _ l => loop l 0
  end.

(** The size column. *)
Definition size_column (size : Z) : string :=
  if UnitSize opts then Text.pad_left 4 (Bytes.formatBytes size)
  else Text.pad_left 11 (Text.Itoa size).

(** The type assertion of [node.Sys()] to a pointer to [Stat_t]: it panics
    ([None]) on a value of another type, and gives the pointer, nil for
    [SysNilStat], otherwise. *)
Definition stat_assert (fi : FileInfo) : option (option Stat_t) :=
  match Sys fi with
  | SysStat st => Some (Some st)
  | SysNilStat => Some None
  | SysOther => None
  end.

(** The property columns of a node that is not a directory.  The type
    assertion comes first; reading a field through a nil [stat] panics. *)
Definition file_props (fi : FileInfo) : option (list string) :=
  stat ← stat_assert fi;
  let props : list string := [] in
  (* inodes *)
  props ← (if Inodes opts
           then st ← stat; Some ((props ++ [Text.Itoa (Ino st)])%list)
           else Some props) : option (list string);
  (* device *)
  props ← (if Device opts
           then st ← stat; Some ((props ++ [Text.pad_left 3 (Text.Itoa (Dev st))])%list)
           else Some props) : option (list string);
  (* Mode *)
  let props : list string :=
    if FileMode opts then (props ++ [FileMode_String w (Mode fi)])%list else props in
  (* Owner/Uid *)
  props ← (if ShowUid opts
           then st ← stat;
                let uid := Text.Itoa (Uid st) in
                match user_LookupId w uid with
                | None => Some ((props ++ [Text.pad_right 8 uid])%list)
                | Some u => Some ((props ++ [Text.pad_right 8 u])%list)
                end
           else Some props) : option (list string);
  (* Group/Gid *)
  props ← (if ShowGid opts
           then st ← stat; Some ((props ++ [Text.pad_right 4 (Text.Itoa (Gid st))])%list)
           else Some props) : option (list string);
  (* Size *)
  let props : list string :=
    if ByteSize opts || UnitSize opts
    then (props ++ [size_column (Size fi)])%list else props in
  (* Last modification *)
  let props : list string :=
    if LastMod opts then (props ++ [time_Format w (ModTime fi)])%list else props in
  Some props.

(** The property columns of a directory. *)
Definition dir_props (node : Node) : option (list string) :=
  if ByteSize opts || UnitSize opts
  then rsize ← dirRecursiveSize node; Some [size_column rsize]
  else Some [].

(** Print properties. *)
Definition write_props (props : list string) : M unit :=
  if (0 <? length props)%nat
  then write (OutFile opts) ("[" +:+ Text.Join props " " +:+ "]  ")
  else ret tt.

(** The text of an error node: the second piece of the error text cut at
    each [": "], or the whole text when there is one piece only. *)
Definition short_error (e : string) : string :=
  let msgs := Text.Split e ": " in
  if (1 <? length msgs)%nat then nth 1 msgs "" else e.

Definition error_line (node : Node) (e : string) : string :=
  path node +:+ " [" +:+ short_error e +:+ "]" +:+ newline.

Definition recursive_suffix : string := " [recursive, not followed]".

(** [vtarget] for a node at path [p]: the text of the link, or [p] when
    the link cannot be read. *)
Definition link_text (p : string) : string :=
  default p (os_Readlink w p).

(** [targetPath] for a node at path [p]: the path with its links
    resolved, or [vtarget]. *)
Definition link_destination (p : string) : string :=
  default (link_text p) (filepath_EvalSymlinks w p).

(** [fi, err := opts.Fs.Stat(targetPath)], read through [fi != nil]. *)
Definition stat_info (p : string) : option FileInfo :=
  match Stat (fs opts) p with
  | inl fi => Some fi
  | inr _ => None
  end.

(** The node [print] visits when it follows a link to [targetPath]. *)
Definition followed_node (tfi : FileInfo) (targetPath : string) : Node :=
  mkNode (Some tfi) targetPath 0 None [].

(** The symbolic-link part of [print]: the name with its arrow and
    target, and the node, whose children are replaced when the link is
    followed.  [fuel] bounds the traversal of the target. *)
Definition follow_symlink (fuel : nat) (node : Node) (name : string)
  : M (string * Node) :=
  let vtarget := link_text (path node) in
  let targetPath := link_destination (path node) in
  let fi := stat_info targetPath in
  vtarget <- match fi with
             | Some tfi =>
                 if Colorize opts
                 then or_panic (Color.ANSIColor w (mkNode (Some tfi) vtarget 0 None []) vtarget)
                 else ret vtarget
             | None => ret vtarget
             end ;;
  let name := name +:+ " -> " +:+ vtarget in
  (* Follow symbolic links like directories *)
  if FollowLink opts then
    match filepath_Abs w targetPath, fi with
    | Some p, Some tfi =>
        if IsDir tfi then
          fun st =>
            match vpaths st !! filepath_Clean w p with
            | None =>
                match Visit w opts fuel (followed_node tfi targetPath) (vpaths st) with
                | Some r =>
                    Done ((name, set_nodes (nodes (v_node r)) node),
                          mkRState (v_paths r) (output st))
                | None => OutOfFuel
                end
            | Some _ => Done ((name +:+ recursive_suffix, node), st)
            end
        else ret (name, node)
    | _, _ => ret (name, node)
    end
  else ret (name, node).

(** The loop over the children: [pr] is the recursive call, [i] the index
    of the head of [l] and [len] the number of children.  [indent] is
    made of the glyphs below, so that it is written as it stands when it
    is passed to [Fprintf] as the format. *)
Fixpoint print_children (pr : string -> Node -> M Node) (indent add : string)
    (i len : nat) (l : list Node) : M (list Node) :=
  match l with
  | [] => ret []
  | nnode :: rest =>
      add <- (if NoIndent opts then ret ""
              else if (i =? len - 1)%nat
              then _ <- write (OutFile opts) (indent +:+ "└── ") ;; ret "    "
              else _ <- write (OutFile opts) (indent +:+ "├── ") ;; ret add) ;;
      nnode' <- pr (indent +:+ add) nnode ;;
      rest' <- print_children pr indent add (S i) len rest ;;
      ret (nnode' :: rest')
  end.

(** [print]: the node as rendering leaves it. *)
Fixpoint print (fuel : nat) (indent : string) (node : Node) : M Node :=
  match fuel with
  | O => fun _ => OutOfFuel
  | S fuel' =>
      match err node with
      | Some e =>
          _ <- write Stdout (error_line node e) ;;
          ret node
      | None =>
          fi <- or_panic (info node) ;;
          props <- or_panic (if negb (IsDir fi) then file_props fi
                             else dir_props node) ;;
          _ <- write_props props ;;
          (* name/path *)
          let name := if (depth node =? 0) || FullPath opts
                      then path node else Name fi in
          (* Quotes *)
          let name := if Quotes opts then dquote +:+ name +:+ dquote else name in
          (* Colorize *)
          name <- (if Colorize opts then or_panic (Color.ANSIColor w node name)
                   else ret name) ;;
          (* IsSymlink *)
          res <- (if has_mode (Mode fi) ModeSymlink
                  then follow_symlink fuel' node name
                  else ret (name, node)) ;;
          let name := fst res in
          let node := snd res in
          _ <- write (OutFile opts) (name +:+ newline) ;;
          l <- print_children (print fuel') indent "│   " 0
                 (length (nodes node)) (nodes node) ;;
          ret (set_nodes l node)
      end
  end.

(** [Print]. *)
Definition Print (fuel : nat) (node : Node) : M Node := print fuel "" node.

End Rendering.

(** ** Notions used to state the properties *)

Definition sumZ (l : list Z) : Z := fold_right Z.add 0 l.

(** A child that was statted, is not a directory and carries no error. *)
Definition is_plain_file (n : Node) : bool :=
  bool_decide (err n = None)
  && match info n with
     | Some fi => negb (IsDir fi)
     | None => false
     end.

(** A child whose metadata says it is a directory. *)
Definition is_directory (n : Node) : bool := node_IsDir n.

(** The counts of a tree: a node with an error counts for nothing, a file
    for one file, a directory for itself and what its children count. *)
Fixpoint count_files (n : Node) : Z :=
  match n with
  | mkNode i _ _ e l =>
      match e, i with
      | None, Some fi => if IsDir fi then sumZ (map count_files l) else 1
      | _, _ => 0
      end
  end.

Fixpoint count_dirs (n : Node) : Z :=
  match n with
  | mkNode i _ _ e l =>
      match e, i with
      | None, Some fi => if IsDir fi then 1 + sumZ (map count_dirs l) else 0
      | _, _ => 0
      end
  end.

(** The number of levels of a tree. *)
Fixpoint levels (n : Node) : nat :=
  match n with
  | mkNode _ _ _ _ l => S (fold_right Nat.max 0%nat (map levels l))
  end.

(** The include pattern lets [name] through: it is empty, or does not
    compile, or matches.  The exclude pattern lets [name] through: it is
    empty, or does not compile, or does not match. *)
Definition include_keeps (w : World) (opts : Options) (name : string) : Prop :=
  Pattern opts = ""
  \/ match regexp_Compile w ((if IgnoreCase opts then "(?i)" else "") +:+ Pattern opts) with
     | Some re => re name = true
     | None => True
     end.

Definition exclude_keeps (w : World) (opts : Options) (name : string) : Prop :=
  IPattern opts = ""
  \/ match regexp_Compile w ((if IgnoreCase opts then "(?i)" else "") +:+ IPattern opts) with
     | Some re => re name = false
     | None => True
     end.

(** The node a child of [ppath] at depth [pdepth] starts as. *)
Definition child_node (w : World) (ppath : string) (pdepth : Z) (name : string) : Node :=
  mkNode None (filepath_Join w ppath name) (pdepth + 1) None [].

(** Two outcomes of [Visit] that differ in the visited map at most. *)
Definition same_answer (r r' : Visited) : Prop :=
  v_node r' = v_node r /\ v_dirs r' = v_dirs r /\ v_files r' = v_files r.

(** The children a listed directory ends with, in the order of the
    listing: for each name that is not passed over, the node the recursive
    call leaves, unless it is discarded. *)
Definition attached_children (w : World) (opts : Options) (fuel : nat)
    (ppath : string) (pdepth : Z) (names : list string) : list Node :=
  omap (fun name =>
          if hidden opts name then None
          else match Visit w opts fuel (child_node w ppath pdepth name) ∅ with
               | Some rc =>
                   if discarded w opts name (v_node rc) then None
                   else Some (v_node rc)
               | None => None
               end) names.

(** The node is a symbolic link, as [print] tests it. *)
Definition is_link (n : Node) : bool :=
  match info n with
  | Some fi => has_mode (Mode fi) ModeSymlink
  | None => false
  end.

(** No node of the tree is a symbolic link. *)
Fixpoint no_links (n : Node) : bool :=
  match n with
  | mkNode i _ _ _ l =>
      negb (match i with
            | Some fi => has_mode (Mode fi) ModeSymlink
            | None => false
            end)
      && forallb no_links l
  end.

(** The directories that links lead to are finitely many: the cleaned
    absolute path of every link destination that is a directory lies in
    the finite set [U]. *)
Definition dir_keys_in (w : World) (opts : Options) (U : gset string) : Prop :=
  forall q a fi,
    Stat (fs opts) (link_destination w q) = inl fi -> IsDir fi = true ->
    filepath_Abs w (link_destination w q) = Some a ->
    filepath_Clean w a ∈ U.

(** The name [print] shows for a node with metadata [fi], before any
    arrow: the path or the base name, quoted and coloured as asked. *)
Definition shown_name (w : World) (opts : Options) (node : Node) (fi : FileInfo) : string :=
  let name := if (depth node =? 0) || FullPath opts then path node else Name fi in
  let name := if Quotes opts then dquote +:+ name +:+ dquote else name in
  if Colorize opts then Color.ANSIColor_info w fi (path node) name else name.

(** The target of a link as [print] shows it, coloured by the metadata
    [tfi] of the target when colours are on. *)
Definition target_display (w : World) (opts : Options) (node : Node) (tfi : FileInfo) : string :=
  if Colorize opts
  then Color.ANSIColor_info w tfi (link_text w (path node)) (link_text w (path node))
  else link_text w (path node).

(** The write of the property columns, when there is one. *)
Definition props_events (opts : Options) (props : list string) : list (Sink * string) :=
  if (0 <? length props)%nat
  then [(OutFile opts, "[" +:+ Text.Join props " " +:+ "]  ")]
  else [].

(** The run of [c] from [st] ends within the fuel it has: by a panic, or
    with a result and a state that satisfy [Q]. *)
Definition ends {A} (c : M A) (st : RState) (Q : A -> RState -> Prop) : Prop :=
  match c st with
  | Done (a, st') => Q a st'
  | Panic => True
  | OutOfFuel => False
  end.

(** A write of [print] that is as the options ask: to [OutFile], or the
    line of an error node, which goes to the standard output. *)
Definition expected_write (opts : Options) (ev : Sink * string) : Prop :=
  fst ev = OutFile opts
  \/ (fst ev = Stdout /\ exists n e, err n = Some e /\ snd ev = error_line n e).

(** [st'] comes after [st]: it holds the writes of [st], then others, all
    of them expected. *)
Definition written_after (opts : Options) (st st' : RState) : Prop :=
  exists evs, output st' = (output st ++ evs)%list /\ Forall (expected_write opts) evs.

(** How many of the keys of [U] are not in the visited map. *)
Definition unvisited (U : gset string) (vp : gmap string bool) : nat :=
  size (U ∖ dom vp).

(** The largest number of levels among the trees of [l]. *)
Definition max_levels (l : list Node) : nat := fold_right Nat.max 0%nat (map levels l).

(** A storage of finite height: [h] decreases from a directory, statted
    as such and listed, to each of its entries. *)
Definition fs_height (w : World) (opts : Options) (h : string -> nat) : Prop :=
  forall p fi names name,
    Stat (fs opts) p = inl fi -> IsDir fi = true ->
    ReadDir (fs opts) p = inl names -> In name names ->
    (h (filepath_Join w p name) < h p)%nat.

(** [sort.Sort] rearranges: it only swaps elements. *)
Definition sort_permutes (w : World) : Prop :=
  forall less l, Permutation (sort_Sort w less l) l.

(** [less] is a strict weak order, as [sort.Sort] asks of [Less]. *)
Definition strict_weak (less : Node -> Node -> bool) : Prop :=
  (forall a, less a a = false)
  /\ (forall a b c, less a b = true -> less b c = true -> less a c = true)
  /\ (forall a b c, less a b = false -> less b c = false -> less a c = false).

(** Ascending order as [less] determines it: no element is less than one
    that stands before it. *)
Definition ascending (less : Node -> Node -> bool) (l : list Node) : Prop :=
  StronglySorted (fun a b => less b a = false) l.

(** What Go documents of [sort.Sort]. *)
Definition sort_contract (srt : (Node -> Node -> bool) -> list Node -> list Node) : Prop :=
  forall less l,
    Permutation (srt less l) l /\ (strict_weak less -> ascending less (srt less l)).

(** What is known of [strings.ToLower] without its tables: on ASCII
    text it lowers the letters A to Z and keeps the other bytes; and it
    maps rune by rune, so that a leading dot stays and what follows is
    lowered on its own. *)
Definition lowers_ascii (w : World) : Prop :=
  forall s, Color.is_ascii s = true -> strings_ToLower w s = Color.ToLower s.

Definition keeps_dot (w : World) : Prop :=
  forall s, strings_ToLower w (String "."%char s)
            = String "."%char (strings_ToLower w s).

(** Stability: the elements that [less] does not tell apart from [x] keep
    their order. *)
Definition tied (less : Node -> Node -> bool) (x y : Node) : bool :=
  negb (less x y) && negb (less y x).

Definition stable_on (less : Node -> Node -> bool) (l l' : list Node) : Prop :=
  forall x, filter (fun y => tied less x y = true) l' = filter (fun y => tied less x y = true) l.

(** The piece of an error text that the error line shows, said without
    [Split]: the text after the first [": "] up to the next one. *)
Fixpoint before_first (sep : string) (s : string) : string :=
  match s with
  | EmptyString => EmptyString
  | String c r => if String.prefix sep s then EmptyString else String c (before_first sep r)
  end.

Definition second_piece (e : string) : string :=
  match Text.after_first ": " e with
  | Some t => before_first ": " t
  | None => e
  end.

(** ** Two insertion sorts and a small storage, for examples *)

Module Demo.

(** Insertion sort; elements that compare equal keep their order. *)
Fixpoint insert_stable (less : Node -> Node -> bool) (x : Node) (l : list Node) : list Node :=
  match l with
  | [] => [x]
  | y :: r => if less y x then y :: insert_stable less x r else x :: y :: r
  end.

Fixpoint sort_stable (less : Node -> Node -> bool) (l : list Node) : list Node :=
  match l with
  | [] => []
  | x :: r => insert_stable less x (sort_stable less r)
  end.

(** [sort.Sort] as Go 1.6 to 1.18 run it on a slice of at most twelve
    elements: one pass that compares each element from the seventh on
    with the one six places before it and swaps the two when the later is
    less, then an insertion sort.  The pairs of the pass are disjoint, so
    the pass is written on the first six elements and the rest. *)
Fixpoint exchange (less : Node -> Node -> bool) (a b : list Node)
  : list Node * list Node :=
  match a, b with
  | x :: a', y :: b' =>
      let '(a'', b'') := exchange less a' b' in
      if less y x then (y :: a'', x :: b'') else (x :: a'', y :: b'')
  | _, _ => (a, b)
  end.

Definition gap6_pass (less : Node -> Node -> bool) (l : list Node) : list Node :=
  let '(a, b) := exchange less (take 6 l) (drop 6 l) in (a ++ b)%list.

Definition sort_go_small (less : Node -> Node -> bool) (l : list Node) : list Node :=
  sort_stable less (gap6_pass less l).

Fixpoint assoc {A} (k : string) (l : list (string * A)) : option A :=
  match l with
  | [] => None
  | (k', v) :: r => if String.eqb k k' then Some v else assoc k r
  end.

Definition st0 : SysValue := SysStat (mkStat 7 1 1000 100).

Definition file (name : string) (size : Z) : FileInfo + string :=
  inl (mkFileInfo name size 420 0 false st0).
Definition dir (name : string) : FileInfo + string :=
  inl (mkFileInfo name 4096 (ModeDir + 493) 0 true st0).
Definition link (name : string) : FileInfo + string :=
  inl (mkFileInfo name 1 (ModeSymlink + 511) 0 false st0).

(** Directory [A] holds a link [L] to [A] itself, a link [M] to the
    directory [B], two files, a directory [sub] and an entry [bad] that
    cannot be statted. *)
Definition entries : list (string * (FileInfo + string)) :=
  [ ("A", dir "A");
    ("A/L", link "L");
    ("A/M", link "M");
    ("A/f.txt", file "f.txt" 1536);
    ("A/.hid", file ".hid" 3);
    ("A/sub", dir "sub");
    ("A/sub/g.go", file "g.go" 20);
    ("A/sub/h.py", file "h.py" 10);
    ("A/bad", inr "lstat A/bad: permission denied");
    ("B", dir "B");
    ("B/x", file "x" 5) ].

Definition listings : list (string * list string) :=
  [ ("A", ["L"; "M"; "f.txt"; ".hid"; "sub"; "bad"]);
    ("A/sub", ["g.go"; "h.py"]);
    ("B", ["x"]) ].

Definition demo_fs : Fs :=
  mkFs (fun p => default (inr ("lstat " +:+ p +:+ ": no such file or directory"))
                   (assoc p entries))
       (fun p => match assoc p listings with
                 | Some l => inl l
                 | None => inr ("open " +:+ p +:+ ": not a directory")
                 end).

Definition has_suffix (suffix s : string) : bool :=
  String.prefix (Text.rev_string suffix "") (Text.rev_string s "").

(** A stand-in for [regexp.Compile] that knows one pattern, with and
    without the case flag, and rejects an unclosed bracket. *)
Definition compile (pat : string) : option (string -> bool) :=
  if String.eqb pat "\.go$" then Some (has_suffix ".go")
  else if String.eqb pat "(?i)\.go$" then Some (fun s => has_suffix ".go" (Color.ToLower s))
  else if String.eqb pat "[" || String.eqb pat "(?i)[" then None
  else Some (fun _ => true).

(** Comparison functions that rank a nil [FileInfo] with the empty files. *)
Definition size_key (o : option FileInfo) : Z :=
  match o with
  | Some x => Size x
  | None => 0
  end.

Definition dir_key (o : option FileInfo) : Z :=
  match o with
  | Some x => if IsDir x then 0 else 1
  | None => 1
  end.

Definition by_size : SortFunc := fun a b => size_key a <? size_key b.
Definition dirs_first : SortFunc := fun a b => dir_key a <? dir_key b.

Definition world_with (srt : (Node -> Node -> bool) -> list Node -> list Node) : World :=
  mkWorld
    (fun p => Some (if String.prefix "/" p then p else "/cwd/" +:+ p))
    (fun p => p)
    (fun a b => a +:+ "/" +:+ b)
    (fun p => if String.eqb p "A/L" then Some "A"
              else if String.eqb p "A/M" then Some "B"
              else match assoc p entries with
                   | Some (inl _) => Some p
                   | _ => None
                   end)
    (fun p => if String.eqb p "A/L" then Some "."
              else if String.eqb p "A/M" then Some "../B"
              else None)
    (fun uid => if String.eqb uid "1000" then Some "gopher" else None)
    compile
    (fun _ => "Jan 01 00:00")
    (fun m => if has_mode m ModeDir then "drwxr-xr-x" else "-rw-r--r--")
    srt
    by_size by_size dirs_first by_size by_size by_size
    Color.ToLower.

Definition world : World := world_with sort_stable.

Definition dir_keys : gset string := {[ "/cwd/A"; "/cwd/A/sub"; "/cwd/B" ]}.

Definition height (p : string) : nat :=
  if String.eqb p "A" then 2%nat
  else if String.eqb p "A/sub" then 1%nat
  else if String.eqb p "B" then 1%nat
  else 0%nat.

(** Options with every flag off, writing to a writer that is not the
    standard output. *)
Definition plain : Options :=
  mkOptions demo_fs (Writer 0)
    false false false false false 0 "" ""
    false false false false false false false false false
    false false false false false false false false
    false false.

Definition with_follow (o : Options) : Options :=
  mkOptions (fs o) (OutFile o) (All o) (DirsOnly o) (FullPath o) (IgnoreCase o)
    true (DeepLevel o) (Pattern o) (IPattern o) (ByteSize o) (UnitSize o)
    (FileMode o) (ShowUid o) (ShowGid o) (LastMod o) (Quotes o) (Inodes o)
    (Device o) (NoSort o) (VerSort o) (ModSort o) (DirSort o) (NameSort o)
    (SizeSort o) (CTimeSort o) (ReverSort o) (NoIndent o) (Colorize o).

Definition with_dirsort (o : Options) : Options :=
  mkOptions (fs o) (OutFile o) (All o) (DirsOnly o) (FullPath o) (IgnoreCase o)
    (FollowLink o) (DeepLevel o) (Pattern o) (IPattern o) (ByteSize o) (UnitSize o)
    (FileMode o) (ShowUid o) (ShowGid o) (LastMod o) (Quotes o) (Inodes o)
    (Device o) (NoSort o) (VerSort o) (ModSort o) true (NameSort o)
    (SizeSort o) (CTimeSort o) (ReverSort o) (NoIndent o) (Colorize o).

Definition with_pattern (pat : string) (o : Options) : Options :=
  mkOptions (fs o) (OutFile o) (All o) (DirsOnly o) (FullPath o) (IgnoreCase o)
    (FollowLink o) (DeepLevel o) pat (IPattern o) (ByteSize o) (UnitSize o)
    (FileMode o) (ShowUid o) (ShowGid o) (LastMod o) (Quotes o) (Inodes o)
    (Device o) (NoSort o) (VerSort o) (ModSort o) (DirSort o) (NameSort o)
    (SizeSort o) (CTimeSort o) (ReverSort o) (NoIndent o) (Colorize o).

(** A directory whose listing gave six files, then a directory. *)
Definition leaf (p : string) : Node :=
  mkNode (Some (mkFileInfo p 1 420 0 false st0)) p 1 None [].

Definition subdir (p : string) : Node :=
  mkNode (Some (mkFileInfo p 4096 (ModeDir + 493) 0 true st0)) p 1 None [].

Definition seven : Node :=
  mkNode (Some (mkFileInfo "A" 4096 (ModeDir + 493) 0 true st0)) "A" 0 None
    [leaf "f0"; leaf "f1"; leaf "f2"; leaf "f3"; leaf "f4"; leaf "f5"; subdir "d"].

(** A file whose [Sys()] is not a [Stat_t], as a storage other than the
    operating system's may give. *)
Definition foreign_file : Node :=
  mkNode (Some (mkFileInfo "x" 1 420 0 false SysOther)) "x" 0 None [].

(** A path that is not in the storage, after [Visit]. *)
Definition missing : Node :=
  mkNode None "nope" 0 (Some "lstat nope: no such file or directory") [].

(** The link [A/L], which leads back to [A], as [Visit] leaves it. *)
Definition link_L : Node :=
  mkNode (Some (mkFileInfo "L" 1 (ModeSymlink + 511) 0 false st0)) "A/L" 1 None [].

Definition start : RState := mkRState ∅ [].

(** The root [A] after [Visit], and the run of [Print] on it. *)
Definition visited_root (w : World) (o : Options) : option Visited :=
  Visit w o 5 (New "A") ∅.

Definition rendered (w : World) (o : Options) : outcome (Node * RState) :=
  match visited_root w o with
  | Some r => Print w o 20 (v_node r) (mkRState (v_paths r) [])
  | None => OutOfFuel
  end.

Definition lines (o : outcome (Node * RState)) : list (Sink * string) :=
  match o with
  | Done (_, st) => output st
  | _ => []
  end.

End Demo.

(** ** Further notions: the nodes of a tree and what [Visit] keeps *)

(** The nodes of a tree, each before its children, the children in
    their order. *)
Fixpoint preorder (n : Node) : list Node :=
  match n with
  | mkNode _ _ _ _ l => n :: concat (map preorder l)
  end.

(** What holds of a node in a tree that [Visit] has built: an error
    leaves no children; without an error the metadata is there; the
    metadata is what the storage gives at the path; only a directory has
    children; a directory at the depth limit has none; each child is one
    level deeper, at the path joined from a name of the directory's
    listing that is not passed over; with directories-only no child is a plain file. *)
Definition visited_node (w : World) (opts : Options) (m : Node) : Prop :=
  (err m <> None -> nodes m = [])
  /\ (err m = None -> is_Some (info m))
  /\ (forall fi, info m = Some fi -> Stat (fs opts) (path m) = inl fi)
  /\ (nodes m <> [] -> node_IsDir m = true /\ err m = None)
  /\ (0 < DeepLevel opts -> DeepLevel opts <= depth m -> nodes m = [])
  /\ Forall (fun c =>
               depth c = depth m + 1
               /\ (exists names name,
                     ReadDir (fs opts) (path m) = inl names /\ In name names
                     /\ hidden opts name = false
                     /\ path c = filepath_Join w (path m) name)
               /\ (DirsOnly opts = true -> is_plain_file c = false))
       (nodes m).

(** A node as [Visit] may be given it: no children, no error, and no
    metadata other than what the storage gives at its path. *)
Definition unvisited_node (opts : Options) (n : Node) : Prop :=
  nodes n = [] /\ err n = None
  /\ (forall fi, info n = Some fi -> Stat (fs opts) (path n) = inl fi).

(** ** More options over the small file system of [Demo] *)

Module Sample.

Definition with_depth (k : Z) (o : Options) : Options :=
  mkOptions (fs o) (OutFile o) (All o) (DirsOnly o) (FullPath o) (IgnoreCase o)
    (FollowLink o) k (Pattern o) (IPattern o) (ByteSize o) (UnitSize o)
    (FileMode o) (ShowUid o) (ShowGid o) (LastMod o) (Quotes o) (Inodes o)
    (Device o) (NoSort o) (VerSort o) (ModSort o) (DirSort o) (NameSort o)
    (SizeSort o) (CTimeSort o) (ReverSort o) (NoIndent o) (Colorize o).

Definition with_dirs_only (o : Options) : Options :=
  mkOptions (fs o) (OutFile o) (All o) true (FullPath o) (IgnoreCase o)
    (FollowLink o) (DeepLevel o) (Pattern o) (IPattern o) (ByteSize o) (UnitSize o)
    (FileMode o) (ShowUid o) (ShowGid o) (LastMod o) (Quotes o) (Inodes o)
    (Device o) (NoSort o) (VerSort o) (ModSort o) (DirSort o) (NameSort o)
    (SizeSort o) (CTimeSort o) (ReverSort o) (NoIndent o) (Colorize o).

Definition with_no_indent (o : Options) : Options :=
  mkOptions (fs o) (OutFile o) (All o) (DirsOnly o) (FullPath o) (IgnoreCase o)
    (FollowLink o) (DeepLevel o) (Pattern o) (IPattern o) (ByteSize o) (UnitSize o)
    (FileMode o) (ShowUid o) (ShowGid o) (LastMod o) (Quotes o) (Inodes o)
    (Device o) (NoSort o) (VerSort o) (ModSort o) (DirSort o) (NameSort o)
    (SizeSort o) (CTimeSort o) (ReverSort o) true (Colorize o).

(** The inode, mode, owner, size with unit and time columns. *)
Definition with_columns (o : Options) : Options :=
  mkOptions (fs o) (OutFile o) (All o) (DirsOnly o) (FullPath o) (IgnoreCase o)
    (FollowLink o) (DeepLevel o) (Pattern o) (IPattern o) true true
    true true false true (Quotes o) true
    false (NoSort o) (VerSort o) (ModSort o) (DirSort o) (NameSort o)
    (SizeSort o) (CTimeSort o) (ReverSort o) (NoIndent o) (Colorize o).

End Sample.

(** ** Further notions: sizes and what [print] writes *)

Definition node_size (n : Node) : Z :=
  match info n with
  | Some fi => Size fi
  | None => 0
  end.

(** The plain files below a node, at any depth. *)
Definition files_below (n : Node) : list Node :=
  List.filter is_plain_file (concat (map preorder (nodes n))).

(** The number of property columns that the options ask for; the two
    size options share one column. *)
Definition enabled_columns (opts : Options) : nat :=
  (Nat.b2n (Inodes opts) + Nat.b2n (Device opts) + Nat.b2n (FileMode opts)
   + Nat.b2n (ShowUid opts) + Nat.b2n (ShowGid opts)
   + Nat.b2n (ByteSize opts || UnitSize opts) + Nat.b2n (LastMod opts))%nat.

(** [c] started in [st] does not panic, and [Q] holds of what it
    returns when it returns. *)
Definition safe {A} (c : M A) (st : RState) (Q : A -> RState -> Prop) : Prop :=
  match c st with
  | Done (a, st') => Q a st'
  | Panic => False
  | OutOfFuel => True
  end.

(** The storage gives every entry that is not a directory a [Sys()] that
    is a [Stat_t], as the operating system's does on Unix. *)
Definition stat_backed (opts : Options) : Prop :=
  forall p fi, Stat (fs opts) p = inl fi -> IsDir fi = false ->
               exists s, Sys fi = SysStat s.

Section Written.
Context (w : World) (opts : Options).

Definition node_columns (n : Node) (fi : FileInfo) : list string :=
  default [] (if negb (IsDir fi) then file_props w opts fi else dir_props opts n).

(** What stands after the arrow of a link. *)
Definition link_target_shown (n : Node) : string :=
  match stat_info opts (link_destination w (path n)) with
  | Some tfi => target_display w opts n tfi
  | None => link_text w (path n)
  end.

(** The line of a node whose links are not followed. *)
Definition node_line (n : Node) : string :=
  match err n with
  | Some e => error_line n e
  | None =>
      match info n with
      | Some fi =>
          (if has_mode (Mode fi) ModeSymlink
           then shown_name w opts n fi +:+ " -> " +:+ link_target_shown n
           else shown_name w opts n fi) +:+ newline
      | None => ""
      end
  end.

(** The writes for a node itself: its columns, if any, and its line. *)
Definition node_events (n : Node) : list (Sink * string) :=
  match err n with
  | Some _ => [(Stdout, node_line n)]
  | None =>
      match info n with
      | Some fi =>
          (props_events opts (node_columns n fi) ++ [(OutFile opts, node_line n)])%list
      | None => []
      end
  end.

(** The writes for the children [l] of a node written at [indent], [ev]
    giving the writes of a child: before each child the indent and a
    branch, a corner for the last child; below a child the indent grows
    by a bar, by blanks below the last one. *)
Fixpoint children_events (ev : string -> Node -> list (Sink * string))
    (indent : string) (l : list Node) : list (Sink * string) :=
  match l with
  | [] => []
  | c :: rest =>
      ((if NoIndent opts then ev indent c
        else match rest with
             | [] => (OutFile opts, indent +:+ "└── ") :: ev (indent +:+ "    ") c
             | _ => (OutFile opts, indent +:+ "├── ") :: ev (indent +:+ "│   ") c
             end)
       ++ children_events ev indent rest)%list
  end.

(** The writes for a tree, as a function of the tree alone. *)
Fixpoint tree_events (indent : string) (n : Node) : list (Sink * string) :=
  match n with
  | mkNode i _ _ e l =>
      (node_events n
       ++ match e, i with
          | None, Some _ => children_events tree_events indent l
          | _, _ => []
          end)%list
  end.

End Written.

(** A write that ends a line. *)
Definition is_line (ev : Sink * string) : bool :=
  match Text.last_char (snd ev) with
  | Some c => Ascii.eqb c (ascii_of_nat 10)
  | None => false
  end.

(** The key of a node's path is in the visited map [vp]; a path that
    [filepath.Abs] cannot resolve has no key. *)
Definition recorded (w : World) (vp : gmap string bool) (m : Node) : Prop :=
  forall a, filepath_Abs w (path m) = Some a -> filepath_Clean w a ∈ dom vp.

Module Sample2.

(** A link at the depth limit 1, to be followed. *)
Definition limited_follow : Options :=
  Demo.with_follow (Sample.with_depth 1 Demo.plain).

End Sample2.

Definition no_error (n : Node) : bool := bool_decide (err n = None).

(** ** What [print] makes of a tree *)

Definition same_fields (n n' : Node) : Prop :=
  info n' = info n /\ path n' = path n /\ depth n' = depth n /\ err n' = err n.

(** [rendered_as w opts n n']: [n'] is a node that [print] may leave for
    [n].  Its metadata, path, depth and error are those of [n].  Its
    children are what [print] leaves for the children of [n], one for
    one and in their order; or, when [n] is a symbolic link that is
    followed (follow-symlinks on, the target a directory whose key is
    not in the visited map [vp] of that moment), what [print] leaves for
    the children of the tree that [Visit] builds from the target. *)
#[warnings="-register-all"]
Inductive rendered_as (w : World) (opts : Options) : Node -> Node -> Prop :=
| rendered_kept n n' :
    same_fields n n' ->
    Forall2 (rendered_as w opts) (nodes n) (nodes n') ->
    rendered_as w opts n n'
| rendered_followed n n' fi tfi p fuel vp r :
    same_fields n n' ->
    FollowLink opts = true ->
    err n = None -> info n = Some fi ->
    has_mode (Mode fi) ModeSymlink = true ->
    stat_info opts (link_destination w (path n)) = Some tfi ->
    IsDir tfi = true ->
    filepath_Abs w (link_destination w (path n)) = Some p ->
    vp !! filepath_Clean w p = None ->
    Visit w opts fuel (followed_node tfi (link_destination w (path n))) vp = Some r ->
    Forall2 (rendered_as w opts) (nodes (v_node r)) (nodes n') ->
    rendered_as w opts n n'.

Definition is_stdout (k : Sink) : bool :=
  match k with
  | Stdout => true
  | Writer _ => false
  end.

(** ** A directory reached through a link to its parent *)

Module Detour.

(** [ln] is a link to the directory [real]; [real/A] holds the link [L]
    to itself.  The tree is asked for as [ln/A]. *)
Definition entries : list (string * (FileInfo + string)) :=
  [ ("ln/A", Demo.dir "A");
    ("ln/A/L", Demo.link "L");
    ("real/A", Demo.dir "A");
    ("real/A/L", Demo.link "L") ].

Definition listings : list (string * list string) :=
  [ ("ln/A", ["L"]);
    ("real/A", ["L"]) ].

Definition detour_fs : Fs :=
  mkFs (fun p => default (inr ("lstat " +:+ p +:+ ": no such file or directory"))
                   (Demo.assoc p entries))
       (fun p => match Demo.assoc p listings with
                 | Some l => inl l
                 | None => inr ("open " +:+ p +:+ ": not a directory")
                 end).

Definition world : World :=
  mkWorld
    (fun p => Some (if String.prefix "/" p then p else "/cwd/" +:+ p))
    (fun p => p)
    (fun a b => a +:+ "/" +:+ b)
    (fun p => match Demo.assoc p entries with
              | Some (inl _) => Some "real/A"
              | _ => None
              end)
    (fun p => if String.eqb p "ln/A/L" || String.eqb p "real/A/L" then Some "."
              else None)
    (fun _ => None)
    Demo.compile
    (fun _ => "Jan 01 00:00")
    (fun m => if has_mode m ModeDir then "drwxr-xr-x" else "-rw-r--r--")
    Demo.sort_stable
    Demo.by_size Demo.by_size Demo.dirs_first Demo.by_size Demo.by_size Demo.by_size
    Color.ToLower.

(** Follow-symlinks on, every other option off. *)
Definition follow : Options :=
  mkOptions detour_fs (Writer 0)
    false false false false true 0 "" ""
    false false false false false false false false false
    false false false false false false false false
    false false.

End Detour.
Module TextFacts.
Import Text.

Lemma append_nil t : "" +:+ t = t.
Proof. reflexivity. Qed.

Lemma append_cons c s t : String c s +:+ t = String c (s +:+ t).
Proof. reflexivity. Qed.

Lemma all_chars_app P s t :
  all_chars P (s +:+ t) = all_chars P s && all_chars P t.
Proof.
  induction s as [|c s IH]; [reflexivity|].
  rewrite append_cons. simpl. rewrite IH. now rewrite andb_assoc.
Qed.

Lemma all_chars_weaken (P Q : ascii -> bool) s :
  (forall c, P c = true -> Q c = true) ->
  all_chars P s = true -> all_chars Q s = true.
Proof.
  intros HPQ. induction s as [|c s IH]; simpl; [reflexivity|].
  intros [Hc Hs]%andb_prop. rewrite (HPQ _ Hc), (IH Hs). reflexivity.
Qed.

Lemma string_of_uint_digits d :
  all_chars is_digit (NilEmpty.string_of_uint d) = true.
Proof. induction d; simpl; auto. Qed.

Lemma Itoa_chars z : all_chars is_digit_or_minus (Itoa z) = true.
Proof.
  assert (Hu : forall d, all_chars is_digit_or_minus (NilZero.string_of_uint d) = true).
  { intros d. apply all_chars_weaken with (P := is_digit).
    - intros c Hc. unfold is_digit_or_minus. now rewrite Hc.
    - destruct d; try apply string_of_uint_digits. reflexivity. }
  unfold Itoa, NilZero.string_of_int.
  destruct (Z.to_int z); [apply Hu|]. simpl. apply Hu.
Qed.

Lemma Itoa_nonneg_digits z : 0 <= z -> all_chars is_digit (Itoa z) = true.
Proof.
  intros Hz. unfold Itoa, NilZero.string_of_int.
  destruct z as [|p|p]; try lia; simpl.
  - reflexivity.
  - unfold NilZero.string_of_uint. destruct (Pos.to_uint p); try apply string_of_uint_digits.
    reflexivity.
Qed.

Lemma TrimLeft_id s : all_chars not_space s = true -> TrimLeft s = s.
Proof.
  destruct s as [|c s]; simpl; [reflexivity|].
  unfold not_space. intros [Hc _]%andb_prop.
  apply negb_true_iff in Hc. now rewrite Hc.
Qed.

Lemma rev_string_chars P s acc :
  all_chars P (rev_string s acc) = all_chars P s && all_chars P acc.
Proof.
  revert acc. induction s as [|c s IH]; intros acc; simpl; [reflexivity|].
  rewrite IH. simpl. rewrite !andb_assoc. f_equal. apply andb_comm.
Qed.

Lemma rev_string_rev s acc acc' :
  rev_string (rev_string s acc) acc' = rev_string acc (s +:+ acc').
Proof.
  revert acc acc'. induction s as [|c s IH]; intros acc acc'; simpl; [reflexivity|].
  rewrite IH. reflexivity.
Qed.

Lemma append_empty_r s : s +:+ "" = s.
Proof. induction s as [|c s IH]; [reflexivity|]. now rewrite append_cons, IH. Qed.

Lemma Trim_id s : all_chars not_space s = true -> Trim s = s.
Proof.
  intros Hs. unfold Trim. rewrite (TrimLeft_id s Hs).
  rewrite TrimLeft_id.
  - rewrite rev_string_rev. simpl. apply append_empty_r.
  - rewrite rev_string_chars, Hs. reflexivity.
Qed.

Lemma digit_or_minus_not_space c : is_digit_or_minus c = true -> not_space c = true.
Proof.
  unfold is_digit_or_minus, is_digit, not_space. intros H.
  destruct (Ascii.eqb c space) eqn:E; [|reflexivity].
  apply Ascii.eqb_eq in E. subst c. discriminate H.
Qed.

End TextFacts.

(** ** The byte-size formatter: properties *)

Module BytesFacts.
Import Text Bytes TextFacts.

Lemma div_half_even_nonneg a b : 0 <= a -> 0 < b -> 0 <= div_half_even a b.
Proof.
  intros Ha Hb. unfold div_half_even.
  assert (0 <= a / b) by (apply Z.div_pos; lia).
  repeat match goal with |- context [if ?c then _ else _] => destruct c end; lia.
Qed.

Lemma div_half_even_1 a : div_half_even a 1 = a.
Proof.
  unfold div_half_even. rewrite Z.mod_1_r, Z.div_1_r. reflexivity.
Qed.

Lemma float64_value_nonneg i : 0 <= i -> 0 <= float64_value i.
Proof.
  intros Hi. unfold float64_value, float64_of_int.
  destruct (Z.abs i <? 2 ^ 53) eqn:E; simpl; [exact Hi|].
  apply Z.ltb_ge in E.
  assert (0 < i) by lia.
  rewrite Z.sgn_pos by assumption.
  assert (0 <= div_half_even (Z.abs i) (2 ^ (Z.log2 (Z.abs i) - 52))).
  { apply div_half_even_nonneg; [lia|]. apply Z.pow_pos_nonneg; [lia|].
    assert (53 <= Z.log2 (Z.abs i)); [|lia].
    apply Z.log2_le_pow2; lia. }
  assert (0 < 2 ^ (Z.log2 (Z.abs i) - 52)).
  { apply Z.pow_pos_nonneg; [lia|].
    assert (53 <= Z.log2 (Z.abs i)); [|lia].
    apply Z.log2_le_pow2; lia. }
  nia.
Qed.

Lemma float64_value_exact i : Z.abs i < 2 ^ 53 -> float64_value i = i.
Proof.
  intros Hi. unfold float64_value, float64_of_int.
  apply Z.ltb_lt in Hi. rewrite Hi. reflexivity.
Qed.

Lemma float64_scale i : scale (float64_of_int i) = 0.
Proof. unfold float64_of_int. destruct (Z.abs i <? 2 ^ 53); reflexivity. Qed.

Lemma Itoa_signed z :
  (if z <? 0 then "-" else "") +:+ Itoa (Z.abs z) = Itoa z.
Proof. destruct z; reflexivity. Qed.

Lemma scaled_text_chars v k : all_chars not_space (scaled_text v k) = true.
Proof.
  unfold scaled_text. destruct (10 * 2 ^ k <=? v).
  - eapply all_chars_weaken; [apply digit_or_minus_not_space|apply Itoa_chars].
  - rewrite !all_chars_app.
    rewrite !(all_chars_weaken _ _ _ digit_or_minus_not_space (Itoa_chars _)).
    reflexivity.
Qed.

(** With a suffix, the text is the scaled value followed by the suffix. *)
Lemma format_scaled (n : dyadic) (suffix : string) :
  0 <= num n -> all_chars not_space suffix = true ->
  Trim (format_f (if ge10 n then 0%nat else 1%nat) n +:+ suffix)
  = scaled_text (num n) (scale n) +:+ suffix.
Proof.
  intros Hn Hs.
  assert (E : format_f (if ge10 n then 0%nat else 1%nat) n
              = scaled_text (num n) (scale n)).
  { unfold format_f, scaled_text, ge10.
    assert (Hlt : (num n <? 0) = false) by (apply Z.ltb_ge; exact Hn).
    rewrite Hlt, Z.abs_eq by exact Hn.
    destruct (10 * 2 ^ scale n <=? num n); reflexivity. }
  rewrite E. apply Trim_id.
  rewrite all_chars_app, scaled_text_chars, Hs. reflexivity.
Qed.

Lemma formatBytes_G i :
  GiB < i -> formatBytes i = scaled_text (float64_value i) 30 +:+ "G".
Proof.
  intros Hi. unfold formatBytes.
  apply Z.ltb_lt in Hi as Hb. rewrite Hb. cbv zeta. cbn [negb String.eqb andb].
  change (negb ("G" =? "")%string) with true. cbn [andb].
  rewrite format_scaled.
  - cbn [num scale div1024]. rewrite float64_scale. reflexivity.
  - cbn [num div1024]. apply float64_value_nonneg. unfold GiB in Hi. lia.
  - reflexivity.
Qed.

Lemma formatBytes_M i :
  MiB < i <= GiB -> formatBytes i = scaled_text (float64_value i) 20 +:+ "M".
Proof.
  intros [Hi Hj]. unfold formatBytes.
  apply Z.ltb_lt in Hi as Hb. apply Z.ltb_ge in Hj as Hc. rewrite Hb, Hc. cbv zeta.
  change (negb ("M" =? "")%string) with true. cbn [andb].
  rewrite format_scaled.
  - cbn [num scale div1024]. rewrite float64_scale. reflexivity.
  - cbn [num div1024]. apply float64_value_nonneg. unfold MiB in Hi. lia.
  - reflexivity.
Qed.

Lemma formatBytes_K i :
  KiB < i <= MiB -> formatBytes i = scaled_text (float64_value i) 10 +:+ "K".
Proof.
  intros [Hi Hj]. unfold formatBytes.
  apply Z.ltb_lt in Hi as Hb. apply Z.ltb_ge in Hj as Hc.
  assert (Hd : (GiB <? i) = false) by (apply Z.ltb_ge; unfold GiB, MiB in *; lia).
  rewrite Hb, Hc, Hd. cbv zeta.
  change (negb ("K" =? "")%string) with true. cbn [andb].
  rewrite format_scaled.
  - cbn [num scale div1024]. rewrite float64_scale. reflexivity.
  - cbn [num div1024]. apply float64_value_nonneg. unfold KiB in Hi. lia.
  - reflexivity.
Qed.

Lemma formatBytes_small i : i <= KiB -> formatBytes i = Itoa (float64_value i).
Proof.
  intros Hi. unfold formatBytes.
  assert (Hb : (KiB <? i) = false) by (apply Z.ltb_ge; lia).
  assert (Hc : (MiB <? i) = false) by (apply Z.ltb_ge; unfold KiB, MiB in *; lia).
  assert (Hd : (GiB <? i) = false) by (apply Z.ltb_ge; unfold KiB, GiB in *; lia).
  rewrite Hb, Hc, Hd. cbv zeta.
  change (negb ("" =? "")%string) with false. cbn [andb].
  unfold format_f. rewrite float64_scale, Z.pow_0_r, div_half_even_1.
  fold (float64_value i). rewrite append_empty_r, Itoa_signed.
  apply Trim_id.
  eapply all_chars_weaken; [apply digit_or_minus_not_space|apply Itoa_chars].
Qed.

(** The last byte of a text that ends with a one-byte suffix. *)
Lemma last_char_app s c : last_char (s +:+ String c "") = Some c.
Proof.
  induction s as [|d s IH]; [reflexivity|].
  rewrite append_cons. simpl. rewrite IH.
  destruct (s +:+ String c "") eqn:E; [|reflexivity].
  destruct s; discriminate E.
Qed.

Lemma last_char_digit s :
  s <> "" -> all_chars is_digit_or_minus s = true ->
  exists c, last_char s = Some c /\ is_digit_or_minus c = true.
Proof.
  induction s as [|d s IH]; [congruence|]. intros _ [Hd Hs]%andb_prop.
  destruct s as [|e s]; [exists d; auto|].
  destruct IH as (c & Hc & Hc'); [discriminate|exact Hs|].
  exists c. split; [exact Hc|exact Hc'].
Qed.

Lemma Itoa_nonempty z : Itoa z <> "".
Proof.
  unfold Itoa, NilZero.string_of_int, NilZero.string_of_uint.
  destruct (Z.to_int z) as [d|d]; [|discriminate].
  destruct d; discriminate.
Qed.

End BytesFacts.

Example formatBytes_0 : Bytes.formatBytes 0 = "0".
Proof. reflexivity. Qed.
Example formatBytes_1023 : Bytes.formatBytes 1023 = "1023".
Proof. reflexivity. Qed.
Example formatBytes_1536 : Bytes.formatBytes 1536 = "1.5K".
Proof. reflexivity. Qed.
Example formatBytes_10240 : Bytes.formatBytes 10240 = "10K".
Proof. reflexivity. Qed.
Example formatBytes_1024 : Bytes.formatBytes 1024 = "1024".
Proof. reflexivity. Qed.
Example formatBytes_GiB : Bytes.formatBytes 1073741824 = "1024M".
Proof. vm_compute. reflexivity. Qed.
Example formatBytes_GiB_plus_1 : Bytes.formatBytes 1073741825 = "1.0G".
Proof. vm_compute. reflexivity. Qed.
(** A tie is rounded to the even digit: 1280 bytes are 1.25 KiB. *)
Example formatBytes_1280 : Bytes.formatBytes 1280 = "1.2K".
Proof. vm_compute. reflexivity. Qed.
Example formatBytes_max : Bytes.formatBytes (2 ^ 63 - 1) = "8589934592G".
Proof. vm_compute. reflexivity. Qed.
Example formatBytes_negative : Bytes.formatBytes (-7) = "-7".
Proof. vm_compute. reflexivity. Qed.

(** C5, as stated, fails at one of its own examples: exactly 1 GiB does not
    exceed 1 GiB, so it is scaled by 1 MiB and written with no decimals. *)
Lemma formatBytes_GiB_is_not_1G :
  Bytes.formatBytes 1073741824 = "1024M" /\ Bytes.formatBytes 1073741824 <> "1.0G".
Proof. split; [vm_compute; reflexivity|vm_compute; discriminate]. Qed.

(** C5 (amended): [formatBytes] maps 0, 1023, 1536 and 10240 to ["0"],
    ["1023"], ["1.5K"] and ["10K"], and 1073741824 to ["1024M"].  For every
    [int64] byte count [i], the text ends in [G], [M] or [K] exactly when
    [i] exceeds 1 GiB, 1 MiB (up to 1 GiB) or 1 KiB (up to 1 MiB); it is
    then the value divided by that unit, with one decimal, or with none
    once the scaled value is at least 10.  A count of at most 1 KiB is
    written as its decimal digits, with no suffix and no decimal point. *)
Theorem formatBytes_spec (i : Z) (Hi : Bytes.int64_range i) :
  (Bytes.formatBytes 0 = "0" /\ Bytes.formatBytes 1023 = "1023"
   /\ Bytes.formatBytes 1536 = "1.5K" /\ Bytes.formatBytes 10240 = "10K"
   /\ Bytes.formatBytes 1073741824 = "1024M")
  /\ (Bytes.GiB < i <->
      Text.last_char (Bytes.formatBytes i) = Some "G"%char)
  /\ (Bytes.MiB < i <= Bytes.GiB <->
      Text.last_char (Bytes.formatBytes i) = Some "M"%char)
  /\ (Bytes.KiB < i <= Bytes.MiB <->
      Text.last_char (Bytes.formatBytes i) = Some "K"%char)
  /\ (Bytes.GiB < i ->
      Bytes.formatBytes i = Bytes.scaled_text (Bytes.float64_value i) 30 +:+ "G")
  /\ (Bytes.MiB < i <= Bytes.GiB ->
      Bytes.formatBytes i = Bytes.scaled_text (Bytes.float64_value i) 20 +:+ "M")
  /\ (Bytes.KiB < i <= Bytes.MiB ->
      Bytes.formatBytes i = Bytes.scaled_text (Bytes.float64_value i) 10 +:+ "K")
  /\ (i <= Bytes.KiB ->
      Bytes.formatBytes i = Text.Itoa (Bytes.float64_value i)
      /\ Text.all_chars Text.is_digit_or_minus (Bytes.formatBytes i) = true)
  /\ (Z.abs i < 2 ^ 53 -> Bytes.float64_value i = i).
Proof.
  assert (Hcases : Bytes.GiB < i \/ Bytes.MiB < i <= Bytes.GiB
                   \/ Bytes.KiB < i <= Bytes.MiB \/ i <= Bytes.KiB)
    by (unfold Bytes.GiB, Bytes.MiB, Bytes.KiB; lia).
  assert (Hlast : forall t c, Text.last_char (t +:+ String c "") = Some c)
    by apply BytesFacts.last_char_app.
  assert (Hsmall : i <= Bytes.KiB ->
            exists c, Text.last_char (Bytes.formatBytes i) = Some c
                      /\ Text.is_digit_or_minus c = true).
  { intros H. rewrite (BytesFacts.formatBytes_small i H).
    apply BytesFacts.last_char_digit;
      [apply BytesFacts.Itoa_nonempty|apply TextFacts.Itoa_chars]. }
  assert (HG := BytesFacts.formatBytes_G i).
  assert (HM := BytesFacts.formatBytes_M i).
  assert (HK := BytesFacts.formatBytes_K i).
  split; [repeat split; vm_compute; reflexivity|].
  split; [|split; [|split]].
  - split; [intros H; rewrite (HG H); apply Hlast|].
    intros HL. destruct Hcases as [H|[H|[H|H]]]; [exact H|exfalso..].
    + rewrite (HM H), Hlast in HL. discriminate HL.
    + rewrite (HK H), Hlast in HL. discriminate HL.
    + destruct (Hsmall H) as (c & Hc & Hd). rewrite Hc in HL.
      injection HL as ->. discriminate Hd.
  - split; [intros H; rewrite (HM H); apply Hlast|].
    intros HL. destruct Hcases as [H|[H|[H|H]]]; [exfalso|exact H|exfalso..].
    + rewrite (HG H), Hlast in HL. discriminate HL.
    + rewrite (HK H), Hlast in HL. discriminate HL.
    + destruct (Hsmall H) as (c & Hc & Hd). rewrite Hc in HL.
      injection HL as ->. discriminate Hd.
  - split; [intros H; rewrite (HK H); apply Hlast|].
    intros HL. destruct Hcases as [H|[H|[H|H]]]; [exfalso|exfalso|exact H|exfalso].
    + rewrite (HG H), Hlast in HL. discriminate HL.
    + rewrite (HM H), Hlast in HL. discriminate HL.
    + destruct (Hsmall H) as (c & Hc & Hd). rewrite Hc in HL.
      injection HL as ->. discriminate Hd.
  - repeat split; try assumption.
    + apply BytesFacts.formatBytes_small; assumption.
    + rewrite BytesFacts.formatBytes_small by assumption. apply TextFacts.Itoa_chars.
    + apply BytesFacts.float64_value_exact.
Qed.

Lemma formatBytes_spec_witness :
  Bytes.int64_range 1536
  /\ Bytes.formatBytes 1536 = Bytes.scaled_text (Bytes.float64_value 1536) 10 +:+ "K".
Proof.
  assert (H : Bytes.int64_range 1536) by (unfold Bytes.int64_range; lia).
  split; [exact H|].
  apply (formatBytes_spec 1536 H).
  unfold Bytes.KiB, Bytes.MiB. lia.
Defined.

(** ** The colour classifier: properties *)

Module ColorFacts.
Import Color.

Lemma lower_char_upper a b :
  is_upper a = true -> nat_of_ascii b = (nat_of_ascii a + 32)%nat ->
  lower_char a = b /\ lower_char b = b.
Proof.
  unfold is_upper, lower_char. intros Ha Hb.
  rewrite Ha. apply andb_prop in Ha as [H1 H2].
  apply Nat.leb_le in H1, H2.
  split.
  - rewrite <- Hb. apply ascii_nat_embedding.
  - rewrite Hb.
    destruct (65 <=? nat_of_ascii a + 32)%nat eqn:E1; [|reflexivity].
    destruct (nat_of_ascii a + 32 <=? 90)%nat eqn:E2; [|reflexivity].
    apply Nat.leb_le in E2. lia.
Qed.

Lemma same_letter_lower a b : same_letter a b = true -> lower_char a = lower_char b.
Proof.
  unfold same_letter. intros H.
  apply orb_prop in H as [H|H]; [apply orb_prop in H as [H|H]|].
  - apply Ascii.eqb_eq in H. now subst.
  - apply andb_prop in H as [Hu Hn]. apply Nat.eqb_eq in Hn.
    destruct (lower_char_upper a b Hu Hn) as [-> ->]. reflexivity.
  - apply andb_prop in H as [Hu Hn]. apply Nat.eqb_eq in Hn.
    destruct (lower_char_upper b a Hu Hn) as [-> ->]. reflexivity.
Qed.

Lemma eq_nocase_ToLower s t : eq_nocase s t = true -> ToLower s = ToLower t.
Proof.
  revert t. induction s as [|a s IH]; intros [|b t]; simpl; try discriminate.
  - reflexivity.
  - intros [Hab Hst]%andb_prop.
    rewrite (same_letter_lower _ _ Hab), (IH _ Hst). reflexivity.
Qed.

Lemma wrap_text c s :
  wrap c s = Escape +:+ "[1;" +:+ Text.Itoa c +:+ "m" +:+ s +:+ Escape +:+ "[0m".
Proof. reflexivity. Qed.

Lemma same_letter_ascii a b :
  same_letter a b = true -> (nat_of_ascii b <? 128)%nat = true ->
  (nat_of_ascii a <? 128)%nat = true.
Proof.
  unfold same_letter, is_upper. intros H Hb. apply Nat.ltb_lt in Hb.
  apply Nat.ltb_lt.
  apply orb_prop in H as [H|H]; [apply orb_prop in H as [H|H]|].
  - apply Ascii.eqb_eq in H. subst. exact Hb.
  - apply andb_prop in H as [Hu _]. apply andb_prop in Hu as [_ Hu].
    apply Nat.leb_le in Hu. lia.
  - apply andb_prop in H as [Hu Hn]. apply andb_prop in Hu as [_ Hu].
    apply Nat.leb_le in Hu. apply Nat.eqb_eq in Hn. lia.
Qed.

Lemma eq_nocase_ascii s t :
  eq_nocase s t = true -> is_ascii t = true -> is_ascii s = true.
Proof.
  unfold is_ascii. revert t.
  induction s as [|a s IH]; intros [|b t]; simpl; try discriminate; [reflexivity|].
  intros [Hab Hst]%andb_prop [Hb Ht]%andb_prop.
  rewrite (same_letter_ascii _ _ Hab Hb), (IH _ Hst Ht). reflexivity.
Qed.

(** The extensions of the three lists are ASCII and in lower case. *)
Lemma ext_color_literal lit c :
  ext_color lit = Some c -> is_ascii lit = true /\ ToLower lit = lit.
Proof.
  unfold ext_color, one_of. cbn [existsb].
  repeat match goal with
         | |- context [String.eqb lit ?l] =>
             destruct (String.eqb_spec lit l) as [->|_];
             [intros _; split; reflexivity|]
         end.
  cbn. discriminate.
Qed.

(** Under [lowers_ascii], an extension equal to a listed one up to the
    case of its letters is lowered to it. *)
Lemma lowered_literal w ext lit c :
  lowers_ascii w -> ext_color lit = Some c -> eq_nocase ext lit = true ->
  strings_ToLower w ext = lit.
Proof.
  intros Hlow Hc Heq. destruct (ext_color_literal lit c Hc) as [Ha Hl].
  rewrite (Hlow ext (eq_nocase_ascii _ _ Heq Ha)).
  rewrite (eq_nocase_ToLower _ _ Heq). exact Hl.
Qed.

End ColorFacts.

Example Ext_dot : Color.Ext "a.b/c" = "".
Proof. reflexivity. Qed.
Example Ext_last : Color.Ext "x.tar.GZ" = ".GZ".
Proof. reflexivity. Qed.
Example ext_color_upper : Color.ext_color (Color.ToLower (Color.Ext "x.tar.GZ")) = Some 31.
Proof. reflexivity. Qed.
(** The media list holds [jpeg] without its dot, which no extension equals. *)
Example ext_color_jpeg : Color.ext_color (Color.ToLower (Color.Ext "a.jpeg")) = None.
Proof. reflexivity. Qed.
Example colour_codes :
  (Color.Black, Color.Red, Color.Green, Color.Yellow, Color.Blue, Color.Magenta,
   Color.Cyan, Color.White) = (30, 31, 32, 33, 34, 35, 36, 37).
Proof. reflexivity. Qed.

(** C9: [ANSIColor] decides on the lowered extension of the name: an
    extension that equals a listed one up to the case of its letters gets
    the colour of its list, and two names whose extensions are lowered to
    the same text are treated alike.  When no extension rule matches, a
    broken symbolic link gets the error-link style at once, and sockets,
    named pipes, block and character devices get their own styles at
    once; every other node (extension match, directory, valid symbolic
    link, and any other file with colour 0) gets the common wrapping:
    bold and the selected colour, the text, then reset.  This holds of
    every node that has its [FileInfo], whatever bytes its name holds. *)
Theorem ANSIColor_spec (w : World) (node : Node) (fi : FileInfo) (s : string)
    (Hinfo : info node = Some fi) :
  let ESC := Color.Escape in
  let ext := strings_ToLower w (Color.Ext (Name fi)) in
  let link := has_mode (Mode fi) ModeSymlink in
  let broken :=
    link && negb (bool_decide (is_Some (filepath_EvalSymlinks w (path node)))) in
  (lowers_ascii w ->
   forall lit c,
     Color.ext_color lit = Some c ->
     Color.eq_nocase (Color.Ext (Name fi)) lit = true ->
     Color.ANSIColor w node s
     = Some (ESC +:+ "[1;" +:+ Text.Itoa c +:+ "m" +:+ s +:+ ESC +:+ "[0m"))
  /\ (forall node' fi',
        info node' = Some fi' -> path node' = path node ->
        strings_ToLower w (Color.Ext (Name fi')) = ext ->
        IsDir fi' = IsDir fi -> Mode fi' = Mode fi ->
        Color.ANSIColor w node' s = Color.ANSIColor w node s)
  /\ (forall c, Color.ext_color ext = Some c ->
        (c = Color.Green \/ c = Color.Red \/ c = Color.Magenta)
        /\ Color.ANSIColor w node s
           = Some (ESC +:+ "[1;" +:+ Text.Itoa c +:+ "m" +:+ s +:+ ESC +:+ "[0m"))
  /\ (Color.ext_color ext = None ->
      (broken = true ->
         Color.ANSIColor w node s
         = Some (ESC +:+ "[40;1;31m" +:+ s +:+ ESC +:+ "[0m"))
      /\ (broken = false -> has_mode (Mode fi) ModeSocket = true ->
          Color.ANSIColor w node s
          = Some (ESC +:+ "[40;1;35m" +:+ s +:+ ESC +:+ "[0m"))
      /\ (broken = false -> has_mode (Mode fi) ModeSocket = false ->
          has_mode (Mode fi) ModeNamedPipe = true ->
          Color.ANSIColor w node s
          = Some (ESC +:+ "[40;33m" +:+ s +:+ ESC +:+ "[0m"))
      /\ (broken = false -> has_mode (Mode fi) ModeSocket = false ->
          has_mode (Mode fi) ModeNamedPipe = false ->
          has_mode (Mode fi) ModeDevice || has_mode (Mode fi) ModeCharDevice = true ->
          Color.ANSIColor w node s
          = Some (ESC +:+ "[40;33;01m" +:+ s +:+ ESC +:+ "[0m"))
      /\ (broken = false -> has_mode (Mode fi) ModeSocket = false ->
          has_mode (Mode fi) ModeNamedPipe = false ->
          has_mode (Mode fi) ModeDevice = false ->
          has_mode (Mode fi) ModeCharDevice = false ->
          Color.ANSIColor w node s
          = Some (ESC +:+ "[1;"
                  +:+ Text.Itoa (if link then Color.Cyan
                                 else if IsDir fi then Color.Blue else 0)
                  +:+ "m" +:+ s +:+ ESC +:+ "[0m"))).
Proof.
  intros ESC ext link broken.
  assert (Hrule : forall c, Color.ext_color ext = Some c ->
            Color.ANSIColor w node s
            = Some (ESC +:+ "[1;" +:+ Text.Itoa c +:+ "m" +:+ s +:+ ESC +:+ "[0m")).
  { intros c Hc. unfold Color.ANSIColor, Color.ANSIColor_info.
    rewrite Hinfo. fold ext. rewrite Hc. reflexivity. }
  split; [|split; [|split]].
  - intros Hlow lit c Hc Heq. apply Hrule. unfold ext.
    rewrite (ColorFacts.lowered_literal w _ lit c Hlow Hc Heq). exact Hc.
  - intros node' fi' Hinfo' Hpath Hext Hdir Hmode.
    unfold Color.ANSIColor, Color.ANSIColor_info.
    rewrite Hinfo, Hinfo', Hpath, Hext, Hdir, Hmode. reflexivity.
  - intros c Hc. split; [|exact (Hrule c Hc)].
    unfold Color.ext_color in Hc.
    repeat match type of Hc with
           | (if ?b then _ else _) = _ => destruct b
           end; inversion Hc; auto.
  - intros Hnone. unfold Color.ANSIColor, Color.ANSIColor_info.
    rewrite Hinfo. fold ext. rewrite Hnone.
    fold link. fold broken.
    split; [|split; [|split; [|split]]].
    + intros ->. reflexivity.
    + intros -> ->. reflexivity.
    + intros -> -> ->. reflexivity.
    + intros -> -> -> Hdev.
      destruct (has_mode (Mode fi) ModeDevice); [reflexivity|].
      simpl in Hdev. rewrite Hdev. reflexivity.
    + intros -> -> -> -> ->. destruct link; reflexivity.
Qed.

Lemma ANSIColor_spec_witness :
  Color.ANSIColor Demo.world
    (mkNode (Some (mkFileInfo "Setup.EXE" 10 420 0 false SysOther)) "Setup.EXE" 0
       None [])
    "Setup.EXE"
  = Some (Color.Escape +:+ "[1;32mSetup.EXE" +:+ Color.Escape +:+ "[0m").
Proof.
  refine (proj1 (ANSIColor_spec Demo.world
                   (mkNode (Some (mkFileInfo "Setup.EXE" 10 420 0 false SysOther))
                      "Setup.EXE" 0 None [])
                   (mkFileInfo "Setup.EXE" 10 420 0 false SysOther) "Setup.EXE"
                   eq_refl)
            _ ".exe" Color.Green eq_refl eq_refl).
  intros t _. reflexivity.
Defined.

(** ** Traversal: properties *)

Module VisitFacts.

Lemma Node_induction (P : Node -> Prop) :
  (forall i p d e l, Forall P l -> P (mkNode i p d e l)) -> forall n, P n.
Proof.
  intros H. fix IH 1. intros [i p d e l]. apply H.
  induction l as [|c l IHl]; constructor; [apply IH|exact IHl].
Qed.

Section Loop.
Context (w : World) (opts : Options).

(** One turn of the loop of [Visit]. *)
Lemma visit_names_cons visit ppath pdepth name rest acc vp dirs files :
  visit_names w opts visit ppath pdepth (name :: rest) acc vp dirs files
  = if hidden opts name
    then visit_names w opts visit ppath pdepth rest acc vp dirs files
    else match visit (child_node w ppath pdepth name) vp with
         | None => None
         | Some r =>
             if discarded w opts name (v_node r)
             then visit_names w opts visit ppath pdepth rest acc (v_paths r) dirs files
             else visit_names w opts visit ppath pdepth rest (acc ++ [v_node r])%list
                    (v_paths r) (dirs + v_dirs r) (files + v_files r)
         end.
Proof. reflexivity. Qed.

(** An invariant kept by every turn holds when the loop ends. *)
Lemma visit_names_invariant visit ppath pdepth
    (I : list Node -> gmap string bool -> Z -> Z -> Prop) names :
  (forall name acc vp d f r,
      In name names -> hidden opts name = false ->
      visit (child_node w ppath pdepth name) vp = Some r ->
      I acc vp d f ->
      if discarded w opts name (v_node r) then I acc (v_paths r) d f
      else I (acc ++ [v_node r])%list (v_paths r) (d + v_dirs r) (f + v_files r)) ->
  forall acc vp d f res,
    I acc vp d f ->
    visit_names w opts visit ppath pdepth names acc vp d f = Some res ->
    I res.1.1.1 res.1.1.2 res.1.2 res.2.
Proof.
  induction names as [|name rest IH]; intros Hstep acc vp d f res HI Hrun.
  - simpl in Hrun. injection Hrun as <-. exact HI.
  - rewrite visit_names_cons in Hrun.
    assert (Hrest : forall name acc vp d f r,
               In name rest -> hidden opts name = false ->
               visit (child_node w ppath pdepth name) vp = Some r ->
               I acc vp d f ->
               if discarded w opts name (v_node r) then I acc (v_paths r) d f
               else I (acc ++ [v_node r])%list (v_paths r) (d + v_dirs r) (f + v_files r)).
    { intros n a v d0 f0 r Hin. apply Hstep. right. exact Hin. }
    destruct (hidden opts name) eqn:Hh.
    + exact (IH Hrest _ _ _ _ _ HI Hrun).
    + destruct (visit (child_node w ppath pdepth name) vp) as [r|] eqn:Hv; [|discriminate].
      specialize (Hstep name acc vp d f r (or_introl eq_refl) Hh Hv HI).
      destruct (discarded w opts name (v_node r));
        exact (IH Hrest _ _ _ _ _ Hstep Hrun).
Qed.

(** The loop ends when every call it makes does. *)
Lemma visit_names_total visit ppath pdepth names :
  (forall name vp, In name names ->
      is_Some (visit (child_node w ppath pdepth name) vp)) ->
  forall acc vp d f,
    is_Some (visit_names w opts visit ppath pdepth names acc vp d f).
Proof.
  induction names as [|name rest IH]; intros Hcall acc vp d f.
  - simpl. eauto.
  - rewrite visit_names_cons.
    assert (Hrest : forall name vp, In name rest ->
               is_Some (visit (child_node w ppath pdepth name) vp)).
    { intros n v Hin. apply Hcall. right. exact Hin. }
    destruct (hidden opts name); [apply IH; exact Hrest|].
    destruct (Hcall name vp (or_introl eq_refl)) as [r ->].
    destruct (discarded w opts name (v_node r)); apply IH; exact Hrest.
Qed.

(** The loop depends on [visit] through the calls that succeed. *)
Lemma visit_names_ext visit visit' ppath pdepth names :
  (forall n vp r, visit n vp = Some r -> visit' n vp = Some r) ->
  forall acc vp d f res,
    visit_names w opts visit ppath pdepth names acc vp d f = Some res ->
    visit_names w opts visit' ppath pdepth names acc vp d f = Some res.
Proof.
  intros Hext. induction names as [|name rest IH]; intros acc vp d f res Hrun.
  - exact Hrun.
  - rewrite visit_names_cons in *.
    destruct (hidden opts name); [apply IH; exact Hrun|].
    destruct (visit (child_node w ppath pdepth name) vp) as [r|] eqn:Hv; [|discriminate].
    rewrite (Hext _ _ _ Hv).
    destruct (discarded w opts name (v_node r)); apply IH; exact Hrun.
Qed.

(** [Visit] unfolded by one call. *)
Lemma Visit_S fuel node vp :
  Visit w opts (S fuel) node vp
  = let vp := record_path w (path node) vp in
    match Stat (fs opts) (path node) with
    | inr e => Some (mkVisited (set_err e node) vp 0 0)
    | inl fi =>
        let node := set_info fi node in
        if negb (IsDir fi) then Some (mkVisited node vp 0 1)
        else if (0 <? DeepLevel opts) && (DeepLevel opts <=? depth node)
        then Some (mkVisited node vp 1 0)
        else
          match ReadDir (fs opts) (path node) with
          | inr e => Some (mkVisited (set_err e node) vp 0 0)
          | inl names =>
              match visit_names w opts (Visit w opts fuel) (path node) (depth node)
                      names [] vp 0 0 with
              | None => None
              | Some (l, vp, dirs, files) =>
                  let node := set_nodes l node in
                  let node := if NoSort opts then node else sort w opts node in
                  Some (mkVisited node vp (dirs + 1) files)
              end
          end
    end.
Proof. reflexivity. Qed.

(** More fuel does not change a result. *)
Lemma Visit_mono fuel :
  forall fuel' node vp r,
    (fuel <= fuel')%nat ->
    Visit w opts fuel node vp = Some r -> Visit w opts fuel' node vp = Some r.
Proof.
  induction fuel as [|fuel IH]; intros fuel' node vp r Hle Hrun; [discriminate|].
  destruct fuel' as [|fuel']; [lia|].
  rewrite Visit_S in *. cbv zeta in *.
  destruct (Stat (fs opts) (path node)) as [fi|e]; [|exact Hrun].
  destruct (negb (IsDir fi)); [exact Hrun|].
  destruct ((0 <? DeepLevel opts) && (DeepLevel opts <=? depth (set_info fi node)));
    [exact Hrun|].
  destruct (ReadDir (fs opts) (path (set_info fi node))) as [names|e]; [|exact Hrun].
  destruct (visit_names w opts (Visit w opts fuel) _ _ names [] _ 0 0)
    as [res|] eqn:Hloop; [|discriminate].
  erewrite visit_names_ext; [exact Hrun| |exact Hloop].
  intros n v r' Hr'. apply (IH fuel'); [lia|exact Hr'].
Qed.

Lemma Visit_deterministic fuel fuel' node vp r r' :
  Visit w opts fuel node vp = Some r -> Visit w opts fuel' node vp = Some r' -> r = r'.
Proof.
  intros H H'.
  apply (Visit_mono fuel (Nat.max fuel fuel')) in H; [|lia].
  apply (Visit_mono fuel' (Nat.max fuel fuel')) in H'; [|lia].
  congruence.
Qed.

(** On a storage of finite height, [Visit] returns. *)
Lemma Visit_total (h : string -> nat) :
  fs_height w opts h ->
  forall fuel node vp,
    (h (path node) < fuel)%nat -> is_Some (Visit w opts fuel node vp).
Proof.
  intros Hh. induction fuel as [|fuel IH]; intros node vp Hlt; [lia|].
  rewrite Visit_S. cbv zeta.
  destruct (Stat (fs opts) (path node)) as [fi|e] eqn:Hstat; [|eauto].
  destruct (IsDir fi) eqn:Hdir; cbn [negb]; [|eauto].
  destruct ((0 <? DeepLevel opts) && (DeepLevel opts <=? depth (set_info fi node)));
    [eauto|].
  destruct (ReadDir (fs opts) (path (set_info fi node))) as [names|e] eqn:Hread; [|eauto].
  destruct (visit_names_total (Visit w opts fuel) (path (set_info fi node))
              (depth (set_info fi node)) names) with (acc := @nil Node)
              (vp := record_path w (path node) vp) (d := 0) (f := 0)
    as [[[[l vp'] d] f] ->].
  - intros name v Hin. apply IH. simpl.
    specialize (Hh _ _ _ _ Hstat Hdir Hread Hin). simpl in Hh. lia.
  - eauto.
Qed.

(** *** The counts *)

Lemma sumZ_app l1 l2 : sumZ (l1 ++ l2) = sumZ l1 + sumZ l2.
Proof. induction l1 as [|x l1 IH]; simpl; [reflexivity|]. rewrite IH. lia. Qed.

Lemma sumZ_perm l1 l2 : Permutation l1 l2 -> sumZ l1 = sumZ l2.
Proof. induction 1; simpl; lia. Qed.

Lemma count_files_unfold n :
  count_files n
  = match err n, info n with
    | None, Some fi => if IsDir fi then sumZ (map count_files (nodes n)) else 1
    | _, _ => 0
    end.
Proof. destruct n; reflexivity. Qed.

Lemma count_dirs_unfold n :
  count_dirs n
  = match err n, info n with
    | None, Some fi => if IsDir fi then 1 + sumZ (map count_dirs (nodes n)) else 0
    | _, _ => 0
    end.
Proof. destruct n; reflexivity. Qed.

Lemma filter_perm (f : Node -> bool) l l' :
  Permutation l l' -> Permutation (List.filter f l) (List.filter f l').
Proof.
  induction 1 as [|x l l' _ IH|x y l|l l' l'' _ IH1 _ IH2]; cbn.
  - constructor.
  - destruct (f x); [constructor|]; exact IH.
  - destruct (f x), (f y); try reflexivity. apply perm_swap.
  - etransitivity; eassumption.
Qed.

Lemma sumZ_cons x l : sumZ (x :: l) = x + sumZ l.
Proof. reflexivity. Qed.

Lemma count_files_head c :
  count_files c
  = (if is_plain_file c then 1 else 0) + (if is_directory c then count_files c else 0).
Proof.
  destruct c as [[fi|] p d [e|] l]; cbn; try reflexivity;
    destruct (IsDir fi); cbn; lia.
Qed.

Lemma count_dirs_head c :
  count_dirs c = if is_directory c then count_dirs c else 0.
Proof.
  destruct c as [[fi|] p d [e|] l]; cbn; try reflexivity;
    destruct (IsDir fi); cbn; lia.
Qed.

(** The files under a list of children: the plain files among them, and
    what the directories among them hold. *)
Lemma count_files_children l :
  sumZ (map count_files l)
  = Z.of_nat (length (List.filter is_plain_file l))
    + sumZ (map count_files (List.filter is_directory l)).
Proof.
  induction l as [|c l IH]; [reflexivity|].
  cbn [map List.filter]. rewrite sumZ_cons, IH, (count_files_head c).
  destruct (is_plain_file c), (is_directory c);
    cbn [map length]; rewrite ?sumZ_cons; lia.
Qed.

Lemma count_dirs_children l :
  sumZ (map count_dirs l) = sumZ (map count_dirs (List.filter is_directory l)).
Proof.
  induction l as [|c l IH]; [reflexivity|].
  cbn [map List.filter]. rewrite sumZ_cons, IH, (count_dirs_head c).
  destruct (is_directory c); cbn [map]; rewrite ?sumZ_cons; lia.
Qed.

(** [sort] rearranges the children and touches nothing else. *)
Lemma sort_fields n : sort w opts n = set_nodes (nodes (sort w opts n)) n.
Proof.
  unfold sort. destruct (sort_policy w opts); [destruct (ReverSort opts)|];
    destruct n; reflexivity.
Qed.

Lemma sort_perm n :
  sort_permutes w -> Permutation (nodes (sort w opts n)) (nodes n).
Proof.
  intros Hp. unfold sort.
  destruct (sort_policy w opts); [destruct (ReverSort opts)|]; simpl;
    try apply Hp; reflexivity.
Qed.

(** [Visit] on a directory that is listed. *)
Lemma Visit_listed fuel node vp fi names :
  Stat (fs opts) (path node) = inl fi -> IsDir fi = true ->
  (0 <? DeepLevel opts) && (DeepLevel opts <=? depth node) = false ->
  ReadDir (fs opts) (path node) = inl names ->
  Visit w opts (S fuel) node vp
  = match visit_names w opts (Visit w opts fuel) (path node) (depth node)
            names [] (record_path w (path node) vp) 0 0 with
    | None => None
    | Some (l, vp', dirs, files) =>
        Some (mkVisited
                (if NoSort opts then set_nodes l (set_info fi node)
                 else sort w opts (set_nodes l (set_info fi node)))
                vp' (dirs + 1) files)
    end.
Proof.
  intros Hstat Hdir Hdeep Hread. rewrite Visit_S. cbv zeta.
  rewrite Hstat, Hdir. cbn [negb].
  change (depth (set_info fi node)) with (depth node).
  change (path (set_info fi node)) with (path node).
  rewrite Hdeep, Hread. reflexivity.
Qed.

(** The children [Visit] leaves are those the loop gathered, rearranged. *)
Lemma arranged_perm l n :
  sort_permutes w ->
  Permutation
    (nodes (if NoSort opts then set_nodes l n else sort w opts (set_nodes l n))) l.
Proof.
  intros Hp. destruct (NoSort opts); [reflexivity|].
  apply (sort_perm (set_nodes l n) Hp).
Qed.

Lemma arranged_fields l n :
  (if NoSort opts then set_nodes l n else sort w opts (set_nodes l n))
  = set_nodes
      (nodes (if NoSort opts then set_nodes l n else sort w opts (set_nodes l n))) n.
Proof.
  destruct (NoSort opts); [reflexivity|].
  rewrite (sort_fields (set_nodes l n)) at 1. reflexivity.
Qed.

Lemma arranged_err l n :
  err (if NoSort opts then set_nodes l n else sort w opts (set_nodes l n)) = err n.
Proof. rewrite arranged_fields. reflexivity. Qed.

Lemma arranged_info l n :
  info (if NoSort opts then set_nodes l n else sort w opts (set_nodes l n)) = info n.
Proof. rewrite arranged_fields. reflexivity. Qed.

Lemma arranged_path l n :
  path (if NoSort opts then set_nodes l n else sort w opts (set_nodes l n)) = path n.
Proof. rewrite arranged_fields. reflexivity. Qed.

Lemma arranged_depth l n :
  depth (if NoSort opts then set_nodes l n else sort w opts (set_nodes l n)) = depth n.
Proof. rewrite arranged_fields. reflexivity. Qed.

(** The counts [Visit] returns are those of the tree it leaves. *)
Lemma Visit_counts_tree :
  sort_permutes w ->
  forall fuel node vp r,
    nodes node = [] -> err node = None ->
    Visit w opts fuel node vp = Some r ->
    v_dirs r = count_dirs (v_node r) /\ v_files r = count_files (v_node r).
Proof.
  intros Hp. induction fuel as [|fuel IH]; intros node vp r Hnodes Herr Hrun;
    [discriminate|].
  rewrite Visit_S in Hrun. cbv zeta in Hrun.
  destruct (Stat (fs opts) (path node)) as [fi|e] eqn:Hstat.
  2:{ injection Hrun as <-. cbn. split; reflexivity. }
  destruct (IsDir fi) eqn:Hdir; cbn [negb] in Hrun.
  2:{ injection Hrun as <-. cbn. rewrite Herr, Hdir. split; reflexivity. }
  destruct ((0 <? DeepLevel opts) && (DeepLevel opts <=? depth (set_info fi node))).
  { injection Hrun as <-. cbn. rewrite Herr, Hdir, Hnodes. split; reflexivity. }
  destruct (ReadDir (fs opts) (path (set_info fi node))) as [names|e].
  2:{ injection Hrun as <-. cbn. split; reflexivity. }
  destruct (visit_names w opts (Visit w opts fuel) _ _ names [] _ 0 0)
    as [[[[l vp'] d] f]|] eqn:Hloop; [|discriminate].
  injection Hrun as <-. cbn [v_dirs v_files v_node].
  assert (HI : d = sumZ (map count_dirs l) /\ f = sumZ (map count_files l)).
  { refine (visit_names_invariant (Visit w opts fuel) _ _
              (fun acc _ d f => d = sumZ (map count_dirs acc)
                                /\ f = sumZ (map count_files acc)) names
              _ _ _ _ _ (l, vp', d, f) _ Hloop); [|split; reflexivity].
    intros name acc v d0 f0 rc _ _ Hrc [Hd Hf].
    destruct (discarded w opts name (v_node rc)); [split; assumption|].
    destruct (IH (child_node w _ _ name) v rc eq_refl eq_refl Hrc) as [Hd' Hf'].
    rewrite !map_app, !sumZ_app. cbn. lia. }
  destruct HI as [-> ->].
  rewrite count_dirs_unfold, count_files_unfold.
  rewrite arranged_err, arranged_info.
  cbn [err info set_info]. rewrite Herr, Hdir.
  pose proof (arranged_perm l (set_info fi node) Hp) as Hperm.
  rewrite (sumZ_perm _ _ (Permutation_map count_dirs Hperm)).
  rewrite (sumZ_perm _ _ (Permutation_map count_files Hperm)).
  split; [lia|reflexivity].
Qed.

(** Each child the loop attaches is the node a recursive call left. *)
Lemma visit_names_children visit ppath pdepth names acc vp d f res :
  visit_names w opts visit ppath pdepth names acc vp d f = Some res ->
  exists l, res.1.1.1 = (acc ++ l)%list
    /\ Forall (fun c => exists name vp0 rc,
                  In name names /\ hidden opts name = false
                  /\ visit (child_node w ppath pdepth name) vp0 = Some rc
                  /\ v_node rc = c /\ discarded w opts name c = false) l.
Proof.
  revert acc vp d f res.
  induction names as [|name rest IH]; intros acc vp d f res Hrun.
  - injection Hrun as <-. exists []. split; [cbn; now rewrite app_nil_r|constructor].
  - rewrite visit_names_cons in Hrun.
    assert (Hweak : forall l,
      Forall (fun c => exists name vp0 rc,
                In name rest /\ hidden opts name = false
                /\ visit (child_node w ppath pdepth name) vp0 = Some rc
                /\ v_node rc = c /\ discarded w opts name c = false) l ->
      Forall (fun c => exists name0 vp0 rc,
                In name0 (name :: rest) /\ hidden opts name0 = false
                /\ visit (child_node w ppath pdepth name0) vp0 = Some rc
                /\ v_node rc = c /\ discarded w opts name0 c = false) l).
    { intros l HF. eapply Forall_impl; [exact HF|].
      intros c (n & v & rc & Hin & Hrest).
      exists n, v, rc. split; [right; exact Hin|exact Hrest]. }
    destruct (hidden opts name) eqn:Hh.
    + destruct (IH _ _ _ _ _ Hrun) as (l & Hl & HF). exists l. auto.
    + destruct (visit (child_node w ppath pdepth name) vp) as [r|] eqn:Hv; [|discriminate].
      destruct (discarded w opts name (v_node r)) eqn:Hd.
      * destruct (IH _ _ _ _ _ Hrun) as (l & Hl & HF). exists l. auto.
      * destruct (IH _ _ _ _ _ Hrun) as (l & Hl & HF).
        exists (v_node r :: l). split.
        { rewrite Hl, <- app_assoc. reflexivity. }
        constructor; [|auto].
        exists name, vp, r. repeat split; auto. left; reflexivity.
Qed.

(** *** The filters *)

(** A node [Visit] leaves without an error has its metadata. *)
Lemma Visit_info fuel node vp r :
  Visit w opts fuel node vp = Some r ->
  err (v_node r) = None -> is_Some (info (v_node r)).
Proof.
  destruct fuel as [|fuel]; [discriminate|].
  rewrite Visit_S. cbv zeta.
  destruct (Stat (fs opts) (path node)) as [fi|e]; [|intros [= <-]; discriminate].
  destruct (negb (IsDir fi)); [intros [= <-]; cbn; eauto|].
  destruct ((0 <? DeepLevel opts) && (DeepLevel opts <=? depth (set_info fi node)));
    [intros [= <-]; cbn; eauto|].
  destruct (ReadDir (fs opts) (path (set_info fi node))) as [names|e];
    [|intros [= <-]; discriminate].
  destruct (visit_names w opts _ _ _ names [] _ 0 0) as [[[[l vp'] d] f]|];
    [|discriminate].
  intros [= <-] _. cbn [v_node]. rewrite arranged_info. cbn. eauto.
Qed.

Lemma Visit_path fuel node vp r :
  Visit w opts fuel node vp = Some r ->
  path (v_node r) = path node /\ depth (v_node r) = depth node.
Proof.
  destruct fuel as [|fuel]; [discriminate|].
  rewrite Visit_S. cbv zeta.
  destruct (Stat (fs opts) (path node)) as [fi|e]; [|intros [= <-]; split; reflexivity].
  destruct (negb (IsDir fi)); [intros [= <-]; split; reflexivity|].
  destruct ((0 <? DeepLevel opts) && (DeepLevel opts <=? depth (set_info fi node)));
    [intros [= <-]; split; reflexivity|].
  destruct (ReadDir (fs opts) (path (set_info fi node))) as [names|e];
    [|intros [= <-]; split; reflexivity].
  destruct (visit_names w opts _ _ _ names [] _ 0 0) as [[[[l vp'] d] f]|];
    [|discriminate].
  intros [= <-]. cbn [v_node]. rewrite arranged_path, arranged_depth.
  split; reflexivity.
Qed.

(** What [discarded] decides, for a node that has its metadata when it
    has no error. *)
Lemma discarded_false name c :
  (err c = None -> is_Some (info c)) ->
  discarded w opts name c = false
  <-> (is_plain_file c = true ->
       DirsOnly opts = false /\ include_keeps w opts name /\ exclude_keeps w opts name).
Proof.
  intros Hinfo. unfold discarded, is_plain_file, node_IsDir,
    pattern_rejects, ipattern_rejects, include_keeps, exclude_keeps, rePrefix.
  destruct (err c) as [e|] eqn:He.
  { cbn. split; [discriminate|reflexivity]. }
  destruct (Hinfo eq_refl) as [fi ->].
  rewrite bool_decide_eq_true_2 by reflexivity. cbn [andb].
  destruct (IsDir fi); cbn [negb]; [split; [discriminate|reflexivity]|].
  destruct (DirsOnly opts).
  { split; [discriminate|]. intros H. destruct (H eq_refl) as [H' _]. discriminate H'. }
  destruct (String.eqb_spec (Pattern opts) "") as [Hp|Hp];
    destruct (String.eqb_spec (IPattern opts) "") as [Hi|Hi]; cbn [negb andb].
  - split; [auto|reflexivity].
  - destruct (regexp_Compile w (_ +:+ IPattern opts)) as [re|].
    + destruct (re name) eqn:Hre.
      * split; [discriminate|]. intros H. destruct (H eq_refl) as (_ & _ & [H'|H']);
          [contradiction|discriminate].
      * split; [auto|reflexivity].
    + split; [auto|reflexivity].
  - destruct (regexp_Compile w (_ +:+ Pattern opts)) as [re|].
    + destruct (re name) eqn:Hre; cbn [negb].
      * split; [auto|reflexivity].
      * split; [discriminate|]. intros H. destruct (H eq_refl) as (_ & [H'|H'] & _);
          [contradiction|discriminate].
    + split; [auto|reflexivity].
  - destruct (regexp_Compile w (_ +:+ Pattern opts)) as [re|].
    + destruct (re name) eqn:Hre; cbn [negb].
      * destruct (regexp_Compile w (_ +:+ IPattern opts)) as [re'|].
        -- destruct (re' name) eqn:Hre'.
           ++ split; [discriminate|]. intros H.
              destruct (H eq_refl) as (_ & _ & [H'|H']); [contradiction|discriminate].
           ++ split; [auto|reflexivity].
        -- split; [auto|reflexivity].
      * split; [discriminate|]. intros H. destruct (H eq_refl) as (_ & [H'|H'] & _);
          [contradiction|discriminate].
    + destruct (regexp_Compile w (_ +:+ IPattern opts)) as [re'|].
      * destruct (re' name) eqn:Hre'.
        -- split; [discriminate|]. intros H.
           destruct (H eq_refl) as (_ & _ & [H'|H']); [contradiction|discriminate].
        -- split; [auto|reflexivity].
      * split; [auto|reflexivity].
Qed.

(** A node that [Visit] leaves with an error counts for nothing and has
    no children. *)
Lemma Visit_error fuel node vp r :
  Visit w opts fuel node vp = Some r ->
  err node = None -> nodes node = [] -> err (v_node r) <> None ->
  v_dirs r = 0 /\ v_files r = 0 /\ nodes (v_node r) = [].
Proof.
  destruct fuel as [|fuel]; [discriminate|].
  rewrite Visit_S. cbv zeta. intros Hrun He Hn.
  destruct (Stat (fs opts) (path node)) as [fi|e].
  2:{ injection Hrun as <-. cbn. auto. }
  destruct (negb (IsDir fi)).
  { injection Hrun as <-. cbn. congruence. }
  destruct ((0 <? DeepLevel opts) && (DeepLevel opts <=? depth (set_info fi node))).
  { injection Hrun as <-. cbn. congruence. }
  destruct (ReadDir (fs opts) (path (set_info fi node))) as [names|e].
  2:{ injection Hrun as <-. cbn. auto. }
  destruct (visit_names w opts _ _ _ names [] _ 0 0) as [[[[l vp'] d] f]|];
    [|discriminate].
  injection Hrun as <-. cbn [v_node]. rewrite arranged_err. cbn. congruence.
Qed.

(** The visited map is written and never read: the node and the counts
    of a call do not depend on it. *)
Lemma visit_names_indep visit ppath pdepth names :
  (forall n vp vp' r, visit n vp = Some r ->
      exists r', visit n vp' = Some r' /\ same_answer r r') ->
  forall acc vp vp' d f res,
    visit_names w opts visit ppath pdepth names acc vp d f = Some res ->
    exists res',
      visit_names w opts visit ppath pdepth names acc vp' d f = Some res'
      /\ res'.1.1.1 = res.1.1.1 /\ res'.1.2 = res.1.2 /\ res'.2 = res.2.
Proof.
  intros Hind. induction names as [|name rest IH]; intros acc vp vp' d f res Hrun.
  - injection Hrun as <-. eexists. split; [reflexivity|auto].
  - rewrite visit_names_cons in *.
    destruct (hidden opts name); [apply (IH _ _ _ _ _ _ Hrun)|].
    destruct (visit (child_node w ppath pdepth name) vp) as [r|] eqn:Hv; [|discriminate].
    destruct (Hind _ _ vp' _ Hv) as (r' & -> & Hn & Hd & Hf).
    rewrite Hn, Hd, Hf.
    destruct (discarded w opts name (v_node r)); apply (IH _ _ _ _ _ _ Hrun).
Qed.

Lemma Visit_indep fuel :
  forall node vp vp' r,
    Visit w opts fuel node vp = Some r ->
    exists r', Visit w opts fuel node vp' = Some r' /\ same_answer r r'.
Proof.
  induction fuel as [|fuel IH]; intros node vp vp' r Hrun; [discriminate|].
  rewrite Visit_S in *. cbv zeta in *.
  destruct (Stat (fs opts) (path node)) as [fi|e].
  2:{ injection Hrun as <-. eexists. split; [reflexivity|repeat split]. }
  destruct (negb (IsDir fi)).
  { injection Hrun as <-. eexists. split; [reflexivity|repeat split]. }
  destruct ((0 <? DeepLevel opts) && (DeepLevel opts <=? depth (set_info fi node))).
  { injection Hrun as <-. eexists. split; [reflexivity|repeat split]. }
  destruct (ReadDir (fs opts) (path (set_info fi node))) as [names|e].
  2:{ injection Hrun as <-. eexists. split; [reflexivity|repeat split]. }
  destruct (visit_names w opts (Visit w opts fuel) _ _ names [] _ 0 0)
    as [[[[l v1] d] f]|] eqn:Hloop; [|discriminate].
  destruct (visit_names_indep (Visit w opts fuel) _ _ names IH _ _
              (record_path w (path node) vp') _ _ _ Hloop)
    as ([[[l' v2] d'] f'] & -> & Hl & Hd & Hf).
  cbn in Hl, Hd, Hf. subst l' d' f'.
  injection Hrun as <-. eexists. split; [reflexivity|repeat split].
Qed.

(** A child that is not discarded is among the children of the loop. *)
Lemma visit_names_attached visit ppath pdepth names :
  (forall n vp vp' r, visit n vp = Some r ->
      exists r', visit n vp' = Some r' /\ same_answer r r') ->
  forall acc vp d f res,
    visit_names w opts visit ppath pdepth names acc vp d f = Some res ->
    forall name vp0 rc,
      In name names -> hidden opts name = false ->
      visit (child_node w ppath pdepth name) vp0 = Some rc ->
      discarded w opts name (v_node rc) = false ->
      In (v_node rc) res.1.1.1.
Proof.
  intros Hind. induction names as [|name rest IH];
    intros acc vp d f res Hrun n vp0 rc Hin Hh Hrc Hkeep; [destruct Hin|].
  rewrite visit_names_cons in Hrun.
  destruct Hin as [->|Hin].
  - rewrite Hh in Hrun.
    destruct (visit (child_node w ppath pdepth n) vp) as [r|] eqn:Hv; [|discriminate].
    destruct (Hind _ _ vp _ Hrc) as (r' & Hr' & Hn & _).
    rewrite Hv in Hr'. injection Hr' as <-. rewrite Hn, Hkeep in Hrun.
    destruct (visit_names_children _ _ _ _ _ _ _ _ _ Hrun) as (l & -> & _).
    apply in_or_app. left. apply in_or_app. right. rewrite <- Hn. left. reflexivity.
  - destruct (hidden opts name); [exact (IH _ _ _ _ _ Hrun _ _ _ Hin Hh Hrc Hkeep)|].
    destruct (visit (child_node w ppath pdepth name) vp) as [r|]; [|discriminate].
    destruct (discarded w opts name (v_node r));
      exact (IH _ _ _ _ _ Hrun _ _ _ Hin Hh Hrc Hkeep).
Qed.

(** The children the loop gathers, read off the listing. *)
Lemma visit_names_attached_children fuel ppath pdepth names :
  forall acc vp d f res,
    visit_names w opts (Visit w opts fuel) ppath pdepth names acc vp d f = Some res ->
    res.1.1.1 = (acc ++ attached_children w opts fuel ppath pdepth names)%list.
Proof.
  unfold attached_children.
  induction names as [|name rest IH]; intros acc vp d f res Hrun.
  - injection Hrun as <-. cbn. now rewrite app_nil_r.
  - rewrite visit_names_cons in Hrun. cbn [omap list_omap].
    destruct (hidden opts name); [exact (IH _ _ _ _ _ Hrun)|].
    destruct (Visit w opts fuel (child_node w ppath pdepth name) vp) as [r|] eqn:Hv;
      [|discriminate].
    destruct (Visit_indep fuel _ _ ∅ _ Hv) as (r' & -> & Hn & _).
    rewrite Hn.
    destruct (discarded w opts name (v_node r)); [exact (IH _ _ _ _ _ Hrun)|].
    rewrite (IH _ _ _ _ _ Hrun), <- app_assoc. reflexivity.
Qed.

(** *** The visited map and the height of the tree *)

Lemma record_path_dom p vp : dom vp ⊆ dom (record_path w p vp).
Proof.
  unfold record_path. destruct (filepath_Abs w p); [|reflexivity].
  rewrite dom_insert_L. set_solver.
Qed.

Lemma record_path_key p a vp :
  filepath_Abs w p = Some a -> filepath_Clean w a ∈ dom (record_path w p vp).
Proof.
  intros H. unfold record_path. rewrite H. rewrite dom_insert_L. set_solver.
Qed.

(** [Visit] only adds to the visited map, and enters the key of the path
    it is called on. *)
Lemma Visit_vpaths fuel :
  forall node vp r,
    Visit w opts fuel node vp = Some r ->
    dom (record_path w (path node) vp) ⊆ dom (v_paths r).
Proof.
  induction fuel as [|fuel IH]; intros node vp r Hrun; [discriminate|].
  rewrite Visit_S in Hrun. cbv zeta in Hrun.
  destruct (Stat (fs opts) (path node)) as [fi|e]; [|injection Hrun as <-; reflexivity].
  destruct (negb (IsDir fi)); [injection Hrun as <-; reflexivity|].
  destruct ((0 <? DeepLevel opts) && (DeepLevel opts <=? depth (set_info fi node)));
    [injection Hrun as <-; reflexivity|].
  destruct (ReadDir (fs opts) (path (set_info fi node))) as [names|e];
    [|injection Hrun as <-; reflexivity].
  destruct (visit_names w opts (Visit w opts fuel) _ _ names [] _ 0 0)
    as [[[[l vp'] d] f]|] eqn:Hloop; [|discriminate].
  injection Hrun as <-. cbn [v_paths].
  refine (visit_names_invariant (Visit w opts fuel) _ _
            (fun _ v _ _ => dom (record_path w (path node) vp) ⊆ dom v) names
            _ _ _ _ _ (l, vp', d, f) _ Hloop); [|reflexivity].
  intros name acc v d0 f0 rc _ _ Hrc Hsub.
  pose proof (IH _ _ _ Hrc) as Hsub'.
  pose proof (record_path_dom (path (child_node w (path (set_info fi node))
                                       (depth (set_info fi node)) name)) v) as Hrec.
  assert (Hgoal : dom (record_path w (path node) vp) ⊆ dom (v_paths rc))
    by set_solver.
  destruct (discarded w opts name (v_node rc)); exact Hgoal.
Qed.

Lemma Visit_vpaths_grow fuel node vp r :
  Visit w opts fuel node vp = Some r -> dom vp ⊆ dom (v_paths r).
Proof.
  intros Hrun. pose proof (Visit_vpaths fuel _ _ _ Hrun).
  pose proof (record_path_dom (path node) vp). set_solver.
Qed.

Lemma Visit_vpaths_key fuel node vp r a :
  Visit w opts fuel node vp = Some r ->
  filepath_Abs w (path node) = Some a -> filepath_Clean w a ∈ dom (v_paths r).
Proof.
  intros Hrun Ha. pose proof (Visit_vpaths fuel _ _ _ Hrun).
  pose proof (record_path_key (path node) a vp Ha). set_solver.
Qed.

Lemma max_levels_le l k :
  Forall (fun c => (levels c <= k)%nat) l <-> (max_levels l <= k)%nat.
Proof.
  unfold max_levels. induction l as [|c l IH]; cbn.
  - split; [lia|constructor].
  - split.
    + intros HF. apply Forall_cons in HF as [Hc Hl]. apply IH in Hl. lia.
    + intros Hm. constructor; [lia|]. apply IH. lia.
Qed.

Lemma levels_unfold n : levels n = S (max_levels (nodes n)).
Proof. destruct n; reflexivity. Qed.

(** On a storage of height [h], the tree [Visit] builds from a fresh node
    has at most [h] levels below its root. *)
Lemma Visit_levels (h : string -> nat) :
  fs_height w opts h -> sort_permutes w ->
  forall fuel node vp r,
    nodes node = [] ->
    Visit w opts fuel node vp = Some r ->
    (max_levels (nodes (v_node r)) <= h (path node))%nat.
Proof.
  intros Hh Hp. induction fuel as [|fuel IH]; intros node vp r Hnodes Hrun;
    [discriminate|].
  rewrite Visit_S in Hrun. cbv zeta in Hrun.
  destruct (Stat (fs opts) (path node)) as [fi|e] eqn:Hstat.
  2:{ injection Hrun as <-. cbn. rewrite Hnodes. cbn. lia. }
  destruct (IsDir fi) eqn:Hdir; cbn [negb] in Hrun.
  2:{ injection Hrun as <-. cbn. rewrite Hnodes. cbn. lia. }
  destruct ((0 <? DeepLevel opts) && (DeepLevel opts <=? depth (set_info fi node))).
  { injection Hrun as <-. cbn. rewrite Hnodes. cbn. lia. }
  destruct (ReadDir (fs opts) (path (set_info fi node))) as [names|e] eqn:Hread.
  2:{ injection Hrun as <-. cbn. rewrite Hnodes. cbn. lia. }
  destruct (visit_names w opts (Visit w opts fuel) _ _ names [] _ 0 0)
    as [[[[l vp'] d] f]|] eqn:Hloop; [|discriminate].
  injection Hrun as <-. cbn [v_node].
  apply max_levels_le.
  apply (Permutation_Forall (Permutation_sym (arranged_perm l (set_info fi node) Hp))).
  destruct (visit_names_children _ _ _ _ _ _ _ _ _ Hloop) as (l' & Hl' & HF).
  cbn in Hl'. subst l'.
  eapply Forall_impl; [exact HF|].
  intros c (name & vp0 & rc & Hin & _ & Hrc & <- & _).
  specialize (IH (child_node w _ _ name) vp0 rc eq_refl Hrc).
  rewrite levels_unfold.
  specialize (Hh _ _ _ _ Hstat Hdir Hread Hin). cbn in Hh. cbn in IH. lia.
Qed.

End Loop.
End VisitFacts.

(** ** The example storage: its height and its sorts *)

Module DemoFacts.
Import Demo.

Lemma insert_stable_perm less x l : Permutation (insert_stable less x l) (x :: l).
Proof.
  induction l as [|y l IH]; simpl; [reflexivity|].
  destruct (less y x); [|reflexivity].
  rewrite IH. apply perm_swap.
Qed.

Lemma sort_stable_perm less l : Permutation (sort_stable less l) l.
Proof.
  induction l as [|x l IH]; simpl; [reflexivity|].
  rewrite insert_stable_perm. now constructor.
Qed.

Lemma exchange_perm less a b :
  Permutation ((exchange less a b).1 ++ (exchange less a b).2) (a ++ b).
Proof.
  revert b. induction a as [|x a IH]; intros b; [reflexivity|].
  destruct b as [|y b]; [reflexivity|]. cbn [exchange].
  specialize (IH b). destruct (exchange less a b) as [a' b'] eqn:E. cbn [fst snd] in *.
  destruct (less y x); cbn [fst snd].
  - transitivity (y :: x :: a' ++ b').
    { cbn. constructor. symmetry. apply Permutation_middle. }
    transitivity (x :: y :: a ++ b).
    { apply perm_trans with (x :: y :: a' ++ b'); [apply perm_swap|].
      do 2 constructor. exact IH. }
    cbn. constructor. apply Permutation_middle.
  - cbn. constructor.
    transitivity (y :: a' ++ b'); [symmetry; apply Permutation_middle|].
    transitivity (y :: a ++ b); [constructor; exact IH|apply Permutation_middle].
Qed.

Lemma gap6_pass_perm less l : Permutation (gap6_pass less l) l.
Proof.
  unfold gap6_pass. pose proof (exchange_perm less (take 6 l) (drop 6 l)) as Hp.
  destruct (exchange less (take 6 l) (drop 6 l)) as [a b]. cbn [fst snd] in Hp.
  rewrite Hp. rewrite take_drop. reflexivity.
Qed.

Lemma sort_go_small_perm less l : Permutation (sort_go_small less l) l.
Proof. unfold sort_go_small. rewrite sort_stable_perm. apply gap6_pass_perm. Qed.

Lemma world_permutes : sort_permutes world.
Proof. intros less l. apply sort_stable_perm. Qed.

(** [height] decreases along the listings. *)
Lemma height_decreases srt o :
  fs o = demo_fs -> fs_height (world_with srt) o height.
Proof.
  intros Hfs p fi names name _ _ Hread Hin. rewrite Hfs in Hread.
  cbn [ReadDir demo_fs assoc listings] in Hread.
  cbn [filepath_Join world_with].
  destruct (String.eqb_spec p "A") as [->|_].
  { injection Hread as <-.
    repeat (destruct Hin as [<-|Hin]; [vm_compute; lia|]). destruct Hin. }
  destruct (String.eqb_spec p "A/sub") as [->|_].
  { injection Hread as <-.
    repeat (destruct Hin as [<-|Hin]; [vm_compute; lia|]). destruct Hin. }
  destruct (String.eqb_spec p "B") as [->|_].
  { injection Hread as <-.
    repeat (destruct Hin as [<-|Hin]; [vm_compute; lia|]). destruct Hin. }
  discriminate Hread.
Qed.

Lemma height_bound p : (height p <= 2)%nat.
Proof.
  unfold height.
  repeat match goal with |- context [String.eqb ?a ?b] => destruct (String.eqb a b) end;
    lia.
Qed.

(** The keys of the three directories. *)
Lemma directory_keys srt o :
  fs o = demo_fs ->
  forall p a fi,
    Stat (fs o) p = inl fi -> IsDir fi = true ->
    filepath_Abs (world_with srt) p = Some a ->
    filepath_Clean (world_with srt) a ∈ dir_keys.
Proof.
  intros Hfs p a fi Hstat Hdir Habs. rewrite Hfs in Hstat.
  cbn [Stat demo_fs] in Hstat. cbn [filepath_Abs world_with] in Habs.
  cbn [filepath_Clean world_with].
  injection Habs as <-.
  unfold entries in Hstat. cbn [assoc] in Hstat.
  repeat match type of Hstat with
         | context [String.eqb p ?k] =>
             destruct (String.eqb_spec p k) as [->|_];
               [cbn in Hstat; first
                  [ discriminate Hstat
                  | injection Hstat as <-; first [discriminate Hdir|vm_compute; set_solver] ]
               |]
         end.
  cbn in Hstat. discriminate Hstat.
Qed.

Lemma keys_in srt o : fs o = demo_fs -> dir_keys_in (world_with srt) o dir_keys.
Proof.
  intros Hfs q a fi. apply (directory_keys srt o Hfs).
Qed.

End DemoFacts.

Example Visit_demo_counts :
  match Demo.visited_root Demo.world Demo.plain with
  | Some r => (v_dirs r, v_files r) = (2, 5)
  | None => False
  end.
Proof. vm_compute. reflexivity. Qed.

(** C1: on a storage of finite height, [Visit] of a fresh node returns.
    When the stat fails, or the listing of a directory fails, it returns
    (0, 0) and the node carries the error; for a node that is not a
    directory it returns (0, 1).  For a directory that is statted and
    listed, the children are, up to the order that sorting gives them,
    the nodes that the recursive calls leave for the names of the
    listing that are not passed over, less the plain files that the
    filters discard ([attached_children]); the file count is the number
    of plain files among them plus the file counts of the directories
    among them, and the directory count is 1 plus the directory counts of
    the directories among them, each child being the node left by the
    recursive call that returned its counts.  A plain file stays through
    the filters exactly when directories-only is off, the include
    pattern lets its name through and the exclude pattern does too. *)
Theorem Visit_counts (w : World) (opts : Options) (h : string -> nat)
    (node : Node) (vp : gmap string bool)
    (Hheight : fs_height w opts h) (Hsort : sort_permutes w)
    (Hnew : nodes node = [] /\ err node = None) :
  exists r,
    Visit w opts (S (h (path node))) node vp = Some r
    /\ (forall fuel r', Visit w opts fuel node vp = Some r' -> r' = r)
    /\ v_dirs r = count_dirs (v_node r)
    /\ v_files r = count_files (v_node r)
    /\ match Stat (fs opts) (path node) with
       | inr e => err (v_node r) = Some e /\ v_dirs r = 0 /\ v_files r = 0
       | inl fi =>
           if negb (IsDir fi) then v_dirs r = 0 /\ v_files r = 1
           else if (0 <? DeepLevel opts) && (DeepLevel opts <=? depth node)
           then v_dirs r = 1 /\ v_files r = 0
           else
             match ReadDir (fs opts) (path node) with
             | inr e => err (v_node r) = Some e /\ v_dirs r = 0 /\ v_files r = 0
             | inl names =>
                 let kids := nodes (v_node r) in
                 v_files r
                 = Z.of_nat (length (List.filter is_plain_file kids))
                   + sumZ (map count_files (List.filter is_directory kids))
                 /\ v_dirs r
                    = 1 + sumZ (map count_dirs (List.filter is_directory kids))
                 /\ Forall (fun c =>
                      exists name vp0 rc,
                        In name names
                        /\ Visit w opts (h (path node))
                             (child_node w (path node) (depth node) name) vp0
                           = Some rc
                        /\ v_node rc = c
                        /\ v_dirs rc = count_dirs c
                        /\ v_files rc = count_files c) kids
                 /\ (let listed :=
                       attached_children w opts (h (path node)) (path node)
                         (depth node) names in
                     Permutation kids listed
                     /\ (NoSort opts = true -> kids = listed)
                     /\ v_files r
                        = Z.of_nat (length (List.filter is_plain_file listed))
                          + sumZ (map count_files (List.filter is_directory listed))
                     /\ v_dirs r
                        = 1 + sumZ (map count_dirs (List.filter is_directory listed)))
                 /\ (forall name vp0 rc,
                       Visit w opts (h (path node))
                         (child_node w (path node) (depth node) name) vp0 = Some rc ->
                       is_plain_file (v_node rc) = true ->
                       discarded w opts name (v_node rc) = false
                       <-> DirsOnly opts = false
                           /\ include_keeps w opts name /\ exclude_keeps w opts name)
             end
       end.
Proof.
  destruct Hnew as [Hnodes Herr].
  destruct (VisitFacts.Visit_total w opts h Hheight (S (h (path node))) node vp)
    as [r Hr]; [lia|].
  exists r. split; [exact Hr|].
  split; [intros fuel r' Hr'; exact (VisitFacts.Visit_deterministic w opts _ _ _ _ _ _ Hr' Hr)|].
  destruct (VisitFacts.Visit_counts_tree w opts Hsort _ _ _ _ Hnodes Herr Hr)
    as [Hd Hf].
  split; [exact Hd|]. split; [exact Hf|].
  destruct (Stat (fs opts) (path node)) as [fi|e] eqn:Hstat.
  2:{ rewrite VisitFacts.Visit_S in Hr. cbv zeta in Hr. rewrite Hstat in Hr.
      injection Hr as <-. cbn. auto. }
  destruct (IsDir fi) eqn:Hdir; cbn [negb].
  2:{ rewrite VisitFacts.Visit_S in Hr. cbv zeta in Hr. rewrite Hstat, Hdir in Hr.
      injection Hr as <-. cbn. auto. }
  destruct ((0 <? DeepLevel opts) && (DeepLevel opts <=? depth node)) eqn:Hdeep.
  { rewrite VisitFacts.Visit_S in Hr. cbv zeta in Hr. rewrite Hstat, Hdir in Hr.
    cbn [negb] in Hr. change (depth (set_info fi node)) with (depth node) in Hr.
    rewrite Hdeep in Hr. injection Hr as <-. cbn. auto. }
  destruct (ReadDir (fs opts) (path node)) as [names|e] eqn:Hread.
  2:{ rewrite VisitFacts.Visit_S in Hr. cbv zeta in Hr. rewrite Hstat, Hdir in Hr.
      cbn [negb] in Hr. change (depth (set_info fi node)) with (depth node) in Hr.
      change (path (set_info fi node)) with (path node) in Hr.
      rewrite Hdeep, Hread in Hr. injection Hr as <-. cbn. auto. }
  cbv zeta.
  assert (Hunfold := VisitFacts.count_files_unfold (v_node r)).
  assert (Hunfold' := VisitFacts.count_dirs_unfold (v_node r)).
  rewrite (VisitFacts.Visit_listed w opts _ _ _ _ _ Hstat Hdir Hdeep Hread) in Hr.
  destruct (visit_names w opts _ _ _ names [] _ 0 0)
    as [[[[l vp'] d] f]|] eqn:Hloop; [|discriminate].
  injection Hr as <-. cbn [v_node v_dirs v_files] in *.
  rewrite VisitFacts.arranged_err, VisitFacts.arranged_info in Hunfold, Hunfold'.
  cbn [err info set_info] in Hunfold, Hunfold'.
  rewrite Herr, Hdir in Hunfold, Hunfold'.
  split; [|split; [|split; [|split]]].
  - rewrite Hf, Hunfold. apply VisitFacts.count_files_children.
  - rewrite Hd, Hunfold'. f_equal. apply VisitFacts.count_dirs_children.
  - destruct (VisitFacts.visit_names_children w opts _ _ _ _ _ _ _ _ _ Hloop)
      as (l' & Hl' & HF).
    cbn in Hl'. subst l'.
    apply (Permutation_Forall
             (Permutation_sym
                (VisitFacts.arranged_perm w opts l (set_info fi node) Hsort))).
    eapply Forall_impl; [exact HF|].
    intros c (name & vp0 & rc & Hin & _ & Hrc & Hc & _).
    exists name, vp0, rc. split; [exact Hin|]. split; [exact Hrc|].
    split; [exact Hc|]. subst c.
    apply (VisitFacts.Visit_counts_tree w opts Hsort _ (child_node w _ _ name) vp0 rc
             eq_refl eq_refl Hrc).
  - pose proof (VisitFacts.visit_names_attached_children w opts _ _ _ _ _ _ _ _ _ Hloop)
      as Hl.
    cbn in Hl. subst l.
    pose proof (VisitFacts.arranged_perm w opts
                  (attached_children w opts (h (path node)) (path node)
                     (depth node) names)
                  (set_info fi node) Hsort) as Hperm.
    split; [exact Hperm|].
    split; [intros Hns; rewrite Hns; reflexivity|].
    split.
    + rewrite Hf, Hunfold, VisitFacts.count_files_children.
      rewrite (Permutation_length (VisitFacts.filter_perm is_plain_file _ _ Hperm)).
      rewrite (VisitFacts.sumZ_perm _ _
                 (Permutation_map count_files
                    (VisitFacts.filter_perm is_directory _ _ Hperm))).
      reflexivity.
    + rewrite Hd, Hunfold', VisitFacts.count_dirs_children.
      rewrite (VisitFacts.sumZ_perm _ _
                 (Permutation_map count_dirs
                    (VisitFacts.filter_perm is_directory _ _ Hperm))).
      reflexivity.
  - intros name vp0 rc Hrc Hplain.
    pose proof (VisitFacts.Visit_info w opts _ _ _ _ Hrc) as Hinfo.
    pose proof (VisitFacts.discarded_false w opts name (v_node rc) Hinfo) as Hiff.
    split; [intros E; exact (proj1 Hiff E Hplain)|].
    intros H. apply Hiff. intros _. exact H.
Qed.

Lemma Visit_counts_witness :
  fs_height Demo.world Demo.plain Demo.height
  /\ sort_permutes Demo.world
  /\ exists r,
       Visit Demo.world Demo.plain 3 (New "A") ∅ = Some r
       /\ v_dirs r = count_dirs (v_node r)
       /\ v_files r = count_files (v_node r)
       /\ Permutation (nodes (v_node r))
            (attached_children Demo.world Demo.plain 2 "A" 0
               ["L"; "M"; "f.txt"; ".hid"; "sub"; "bad"])
       /\ v_files r = 5 /\ v_dirs r = 2.
Proof.
  pose proof (DemoFacts.height_decreases Demo.sort_stable Demo.plain eq_refl) as Hh.
  pose proof DemoFacts.world_permutes as Hs.
  split; [exact Hh|]. split; [exact Hs|].
  destruct (Visit_counts Demo.world Demo.plain Demo.height (New "A") ∅ Hh Hs
              (conj eq_refl eq_refl)) as (r & Hr & _ & Hd & Hf & Hcase).
  exists r. split; [exact Hr|]. split; [exact Hd|]. split; [exact Hf|].
  cbn in Hcase. destruct Hcase as (_ & _ & _ & (Hperm & _ & Hfiles & Hdirs) & _).
  split; [exact Hperm|].
  split; [rewrite Hfiles; vm_compute; reflexivity
         |rewrite Hdirs; vm_compute; reflexivity].
Defined.

Example Visit_demo_pattern :
  match Demo.visited_root Demo.world (Demo.with_pattern "\.go$" Demo.plain) with
  | Some r => map path (nodes (v_node r)) = ["A/sub"; "A/bad"]
              /\ (v_dirs r, v_files r) = (2, 1)
  | None => False
  end.
Proof. vm_compute. auto. Qed.

(** A pattern that does not compile filters nothing. *)
Example Visit_demo_bad_pattern :
  match Demo.visited_root Demo.world (Demo.with_pattern "[" Demo.plain) with
  | Some r => map path (nodes (v_node r))
              = ["A/L"; "A/M"; "A/f.txt"; "A/sub"; "A/bad"]
  | None => False
  end.
Proof. vm_compute. reflexivity. Qed.

(** C4: when [Visit] lists a directory, its children are, up to the
    order sorting gives them, the nodes left by the recursive calls for
    the listed names that are not passed over as hidden, minus the
    discarded ones; the counts are those of these children.  A child is
    discarded only if it was statted and is not a directory: a child with
    an error or a directory is always attached.  Such a plain file is
    kept exactly when directories-only is off, the include pattern is
    empty, fails to compile or matches its name, and the exclude pattern
    is empty, fails to compile or does not match its name; both patterns
    are compiled behind the case-insensitivity prefix when the flag is
    set. *)
Theorem Visit_filters (w : World) (opts : Options) (fuel : nat) (node : Node)
    (vp : gmap string bool) (fi : FileInfo) (names : list string) (r : Visited)
    (Hsort : sort_permutes w)
    (Hnew : nodes node = [] /\ err node = None)
    (Hstat : Stat (fs opts) (path node) = inl fi) (Hdir : IsDir fi = true)
    (Hdeep : (0 <? DeepLevel opts) && (DeepLevel opts <=? depth node) = false)
    (Hread : ReadDir (fs opts) (path node) = inl names)
    (Hrun : Visit w opts (S fuel) node vp = Some r) :
  let kids := nodes (v_node r) in
  Permutation kids (attached_children w opts fuel (path node) (depth node) names)
  /\ (NoSort opts = true ->
      kids = attached_children w opts fuel (path node) (depth node) names)
  /\ v_files r = sumZ (map count_files kids)
  /\ v_dirs r = 1 + sumZ (map count_dirs kids)
  /\ (forall name vp0 rc,
        Visit w opts fuel (child_node w (path node) (depth node) name) vp0 = Some rc ->
        let c := v_node rc in
        (err c <> None \/ is_directory c = true -> discarded w opts name c = false)
        /\ (is_plain_file c = true ->
            (DirsOnly opts = true -> discarded w opts name c = true)
            /\ (discarded w opts name c = false
                <-> DirsOnly opts = false
                    /\ include_keeps w opts name /\ exclude_keeps w opts name))).
Proof.
  destruct Hnew as [Hnodes Herr]. intros kids.
  destruct (VisitFacts.Visit_counts_tree w opts Hsort _ _ _ _ Hnodes Herr Hrun)
    as [Hd Hf].
  assert (Hunfold := VisitFacts.count_files_unfold (v_node r)).
  assert (Hunfold' := VisitFacts.count_dirs_unfold (v_node r)).
  rewrite (VisitFacts.Visit_listed w opts _ _ _ _ _ Hstat Hdir Hdeep Hread) in Hrun.
  destruct (visit_names w opts _ _ _ names [] _ 0 0)
    as [[[[l vp'] d] f]|] eqn:Hloop; [|discriminate].
  pose proof (VisitFacts.visit_names_attached_children w opts _ _ _ _ _ _ _ _ _ Hloop)
    as Hl.
  cbn in Hl. subst l.
  injection Hrun as <-. cbn [v_node v_dirs v_files] in *.
  rewrite VisitFacts.arranged_err, VisitFacts.arranged_info in Hunfold, Hunfold'.
  cbn [err info set_info] in Hunfold, Hunfold'.
  rewrite Herr, Hdir in Hunfold, Hunfold'.
  split; [apply (VisitFacts.arranged_perm w opts _ _ Hsort)|].
  split; [intros Hns; unfold kids; rewrite Hns; reflexivity|].
  split; [rewrite Hf; exact Hunfold|].
  split; [rewrite Hd; exact Hunfold'|].
  intros name vp0 rc Hrc. set (c := v_node rc).
  pose proof (VisitFacts.Visit_info w opts _ _ _ _ Hrc) as Hinfo. fold c in Hinfo.
  pose proof (VisitFacts.discarded_false w opts name c Hinfo) as Hiff.
  split.
  - intros Hc. apply Hiff. intros Hplain. exfalso.
    unfold is_plain_file, is_directory, node_IsDir in *.
    destruct Hc as [Hc|Hc].
    + destruct (err c); [discriminate Hplain|congruence].
    + destruct (info c) as [fi'|]; [|discriminate Hc]. rewrite Hc in Hplain.
      rewrite andb_false_r in Hplain. discriminate Hplain.
  - intros Hplain. split.
    + intros Hdo. destruct (discarded w opts name c) eqn:E; [reflexivity|].
      destruct (proj1 Hiff eq_refl Hplain) as [H' _]. congruence.
    + split; [intros E; exact (proj1 Hiff E Hplain)|].
      intros H. apply Hiff. intros _. exact H.
Qed.

Lemma Visit_filters_witness :
  exists r,
    Visit Demo.world (Demo.with_pattern "\.go$" Demo.plain) 3 (New "A") ∅ = Some r
    /\ Permutation (nodes (v_node r))
         (attached_children Demo.world (Demo.with_pattern "\.go$" Demo.plain) 2
            "A" 0 ["L"; "M"; "f.txt"; ".hid"; "sub"; "bad"]).
Proof.
  destruct (Visit Demo.world (Demo.with_pattern "\.go$" Demo.plain) 3 (New "A") ∅)
    as [r|] eqn:Hr; [|vm_compute in Hr; discriminate Hr].
  exists r. split; [reflexivity|].
  refine (proj1 (Visit_filters Demo.world (Demo.with_pattern "\.go$" Demo.plain)
                   2 (New "A") ∅ (mkFileInfo "A" 4096 (ModeDir + 493) 0 true Demo.st0)
                   _ r DemoFacts.world_permutes (conj eq_refl eq_refl)
                   eq_refl eq_refl eq_refl eq_refl Hr)).
Defined.

(** ** Sorting: properties *)

Module SortFacts.
Import Demo.

Lemma strict_weak_asym less a b :
  strict_weak less -> less a b = true -> less b a = false.
Proof.
  intros (Hirr & Htr & _) Hab.
  destruct (less b a) eqn:Hba; [|reflexivity].
  rewrite <- (Hirr a). symmetry. exact (Htr _ _ _ Hab Hba).
Qed.

Lemma strict_weak_Reverse less : strict_weak less -> strict_weak (Reverse less).
Proof.
  intros (Hirr & Htr & Hneg). unfold Reverse. repeat split.
  - intros a. apply Hirr.
  - intros a b c Hab Hbc. exact (Htr _ _ _ Hbc Hab).
  - intros a b c Hab Hbc. exact (Hneg _ _ _ Hbc Hab).
Qed.

Lemma insert_stable_ascending less x l :
  strict_weak less -> ascending less l -> ascending less (insert_stable less x l).
Proof.
  intros Hsw. unfold ascending.
  induction l as [|y l IH]; intros Hl; simpl.
  - constructor; constructor.
  - apply StronglySorted_inv in Hl as [Hl Hy].
    destruct (less y x) eqn:Hyx.
    + constructor; [exact (IH Hl)|].
      apply (Permutation_Forall (Permutation_sym (DemoFacts.insert_stable_perm less x l))).
      constructor; [exact (strict_weak_asym less y x Hsw Hyx)|exact Hy].
    + constructor; [constructor; assumption|].
      constructor; [exact Hyx|].
      eapply Forall_impl; [exact Hy|]. intros b Hb. cbn in Hb.
      destruct Hsw as (_ & _ & Hneg). exact (Hneg _ _ _ Hb Hyx).
Qed.

Lemma sort_stable_ascending less l :
  strict_weak less -> ascending less (sort_stable less l).
Proof.
  intros Hsw. induction l as [|x l IH]; simpl; [constructor|].
  apply insert_stable_ascending; assumption.
Qed.

Lemma sort_stable_contract : sort_contract sort_stable.
Proof.
  intros less l. split; [apply DemoFacts.sort_stable_perm|].
  intros Hsw. apply sort_stable_ascending. exact Hsw.
Qed.

Lemma sort_go_small_contract : sort_contract sort_go_small.
Proof.
  intros less l. split; [apply DemoFacts.sort_go_small_perm|].
  intros Hsw. apply sort_stable_ascending. exact Hsw.
Qed.

Lemma dirs_first_strict_weak : strict_weak (ByFunc dirs_first).
Proof.
  unfold ByFunc, dirs_first. repeat split.
  - intros a. apply Z.ltb_irrefl.
  - intros a b c Hab Hbc. apply Z.ltb_lt in Hab, Hbc. apply Z.ltb_lt. lia.
  - intros a b c Hab Hbc. apply Z.ltb_ge in Hab, Hbc. apply Z.ltb_ge. lia.
Qed.

End SortFacts.

Example sort_seven_stable :
  map path (nodes (sort Demo.world (Demo.with_dirsort Demo.plain) Demo.seven))
  = ["d"; "f0"; "f1"; "f2"; "f3"; "f4"; "f5"].
Proof. vm_compute. reflexivity. Qed.

(** C3, as stated, fails on stability: [sort] calls [sort.Sort], which Go
    documents as not stable.  With the sort of Go 1.6 to 1.18, which meets
    the documented contract, a directory that lists six files and then a
    directory gets, under directory-first, the directory first and the
    first file last: the six files, which the policy does not tell apart,
    do not keep their order. *)
Lemma sort_is_not_stable :
  let W := Demo.world_with Demo.sort_go_small in
  let o := Demo.with_dirsort Demo.plain in
  sort_contract (sort_Sort W)
  /\ strict_weak (ByFunc (fnDirSort W))
  /\ sort_policy W o = Some (fnDirSort W)
  /\ map path (nodes Demo.seven) = ["f0"; "f1"; "f2"; "f3"; "f4"; "f5"; "d"]
  /\ map path (nodes (sort W o Demo.seven)) = ["d"; "f1"; "f2"; "f3"; "f4"; "f5"; "f0"]
  /\ ~ stable_on (ByFunc (fnDirSort W)) (nodes Demo.seven)
         (nodes (sort W o Demo.seven)).
Proof.
  cbv zeta. split; [exact SortFacts.sort_go_small_contract|].
  split; [exact SortFacts.dirs_first_strict_weak|].
  split; [reflexivity|]. split; [reflexivity|]. split; [vm_compute; reflexivity|].
  intros H. specialize (H (Demo.leaf "f0")). vm_compute in H. discriminate H.
Qed.

(** C3 (amended): when a sort flag is set, one policy is chosen, by the
    priority mtime, change time, directory-first, version, size, name; with
    no flag set nothing is sorted.  [sort] hands the children to
    [sort.Sort] with the comparison of that policy, or with the same
    comparison and its two arguments swapped when the reverse flag is set;
    the result is a rearrangement of the children, in ascending order of
    the comparison used when the policy is a strict weak order.  Nothing
    is promised on the order of children the policy does not tell apart.
    [Visit] sorts the children of a listed directory once, and not at all
    with no-sort. *)
Theorem sort_spec (w : World) (opts : Options) (node : Node)
    (Hcontract : sort_contract (sort_Sort w)) :
  (ModSort opts = true -> sort_policy w opts = Some (fnModSort w))
  /\ (ModSort opts = false -> CTimeSort opts = true ->
      sort_policy w opts = Some (fnCTimeSort w))
  /\ (ModSort opts = false -> CTimeSort opts = false -> DirSort opts = true ->
      sort_policy w opts = Some (fnDirSort w))
  /\ (ModSort opts = false -> CTimeSort opts = false -> DirSort opts = false ->
      VerSort opts = true -> sort_policy w opts = Some (fnVerSort w))
  /\ (ModSort opts = false -> CTimeSort opts = false -> DirSort opts = false ->
      VerSort opts = false -> SizeSort opts = true ->
      sort_policy w opts = Some (fnSizeSort w))
  /\ (ModSort opts = false -> CTimeSort opts = false -> DirSort opts = false ->
      VerSort opts = false -> SizeSort opts = false -> NameSort opts = true ->
      sort_policy w opts = Some (fnNameSort w))
  /\ (ModSort opts = false -> CTimeSort opts = false -> DirSort opts = false ->
      VerSort opts = false -> SizeSort opts = false -> NameSort opts = false ->
      sort_policy w opts = None /\ sort w opts node = node)
  /\ (forall fn, sort_policy w opts = Some fn ->
        let less := if ReverSort opts then (fun a b => ByFunc fn b a) else ByFunc fn in
        sort w opts node = set_nodes (sort_Sort w less (nodes node)) node
        /\ Permutation (nodes (sort w opts node)) (nodes node)
        /\ (strict_weak (ByFunc fn) -> ascending less (nodes (sort w opts node))))
  /\ (forall fuel n vp fi names r,
        Stat (fs opts) (path n) = inl fi -> IsDir fi = true ->
        (0 <? DeepLevel opts) && (DeepLevel opts <=? depth n) = false ->
        ReadDir (fs opts) (path n) = inl names ->
        Visit w opts (S fuel) n vp = Some r ->
        let listed := attached_children w opts fuel (path n) (depth n) names in
        v_node r = if NoSort opts then set_nodes listed (set_info fi n)
                   else sort w opts (set_nodes listed (set_info fi n))).
Proof.
  split; [unfold sort_policy; intros ->; reflexivity|].
  split; [unfold sort_policy; intros -> ->; reflexivity|].
  split; [unfold sort_policy; intros -> -> ->; reflexivity|].
  split; [unfold sort_policy; intros -> -> -> ->; reflexivity|].
  split; [unfold sort_policy; intros -> -> -> -> ->; reflexivity|].
  split; [unfold sort_policy; intros -> -> -> -> -> ->; reflexivity|].
  split.
  { intros H1 H2 H3 H4 H5 H6. unfold sort, sort_policy.
    rewrite H1, H2, H3, H4, H5, H6. split; reflexivity. }
  split.
  - intros fn Hfn less.
    assert (Hsort : sort w opts node = set_nodes (sort_Sort w less (nodes node)) node).
    { unfold sort. rewrite Hfn. unfold less. destruct (ReverSort opts); reflexivity. }
    split; [exact Hsort|]. rewrite Hsort. cbn [nodes set_nodes].
    split; [apply (Hcontract less (nodes node))|].
    intros Hsw. apply (Hcontract less (nodes node)).
    unfold less. destruct (ReverSort opts); [|exact Hsw].
    exact (SortFacts.strict_weak_Reverse _ Hsw).
  - intros fuel n vp fi names r Hstat Hdir Hdeep Hread Hrun listed.
    rewrite (VisitFacts.Visit_listed w opts _ _ _ _ _ Hstat Hdir Hdeep Hread) in Hrun.
    destruct (visit_names w opts _ _ _ names [] _ 0 0)
      as [[[[l vp'] d] f]|] eqn:Hloop; [|discriminate].
    pose proof (VisitFacts.visit_names_attached_children w opts _ _ _ _ _ _ _ _ _ Hloop)
      as Hl.
    cbn in Hl. subst l. injection Hrun as <-. reflexivity.
Qed.

Lemma sort_spec_witness :
  sort_contract (sort_Sort Demo.world)
  /\ Permutation
       (nodes (sort Demo.world (Demo.with_dirsort Demo.plain) Demo.seven))
       (nodes Demo.seven).
Proof.
  pose proof SortFacts.sort_stable_contract as Hc.
  split; [exact Hc|].
  refine (proj1 (proj2 (proj1 (proj2 (proj2 (proj2 (proj2 (proj2 (proj2 (proj2
            (sort_spec Demo.world (Demo.with_dirsort Demo.plain) Demo.seven Hc))))))))
            Demo.dirs_first eq_refl))).
Defined.

(** ** Rendering: properties *)

Module PrintFacts.

(** *** The error text *)

Lemma prefix_sep c r :
  String.prefix ": " (String c r) = true
  -> c = ":"%char /\ exists r', r = String " " r'.
Proof.
  intros H. apply String.prefix_correct in H. cbn in H.
  destruct r as [|d r']; [discriminate H|]. cbn in H.
  injection H as Hc Hd _. subst c d.
  split; [reflexivity|]. exists r'. reflexivity.
Qed.

Lemma before_first_no_sep s :
  Text.after_first ": " s = None -> before_first ": " s = s.
Proof.
  induction s as [|c r IH]; [reflexivity|].
  cbn [Text.after_first before_first].
  destruct (String.prefix ": " (String c r)); [discriminate|].
  intros H. rewrite (IH H). reflexivity.
Qed.

Lemma append_assoc_char cur c x : (cur +:+ String c "") +:+ x = cur +:+ String c x.
Proof.
  induction cur as [|d cur IH]; [reflexivity|].
  rewrite !TextFacts.append_cons, IH. reflexivity.
Qed.

(** [Split] at [": "]: the piece before the first separator, then the
    pieces of the text after it. *)
Lemma split_from_pieces s :
  forall cur,
    Text.split_from ": " 0 cur s
    = match Text.after_first ": " s with
      | None => [cur +:+ s]
      | Some t => (cur +:+ before_first ": " s) :: Text.split_from ": " 0 "" t
      end.
Proof.
  induction s as [|c r IH]; intros cur.
  - cbn. now rewrite TextFacts.append_empty_r.
  - cbn [Text.split_from Text.after_first before_first].
    destruct (String.prefix ": " (String c r)) eqn:Hp.
    + destruct (prefix_sep c r Hp) as [-> [r' ->]].
      cbn. now rewrite TextFacts.append_empty_r.
    + rewrite IH. destruct (Text.after_first ": " r) as [t|].
      * now rewrite append_assoc_char.
      * now rewrite append_assoc_char.
Qed.

Lemma short_error_second_piece e : short_error e = second_piece e.
Proof.
  unfold short_error, second_piece, Text.Split.
  rewrite split_from_pieces.
  destruct (Text.after_first ": " e) as [t|] eqn:He.
  - rewrite split_from_pieces.
    destruct (Text.after_first ": " t) as [t'|] eqn:Ht; cbn.
    + reflexivity.
    + now rewrite before_first_no_sep.
  - reflexivity.
Qed.

Section Print.
Context (w : World) (opts : Options).

(** *** The monad *)

Lemma bind_Done {A B} (c : M A) (k : A -> M B) st x :
  bind c k st = Done x <-> exists a st1, c st = Done (a, st1) /\ k a st1 = Done x.
Proof.
  unfold bind. destruct (c st) as [[a st1]| |].
  - split; [eauto|]. intros (a' & st' & [= <- <-] & H). exact H.
  - split; [discriminate|]. intros (a' & st' & H & _). discriminate H.
  - split; [discriminate|]. intros (a' & st' & H & _). discriminate H.
Qed.

Lemma or_panic_Done {A} (o : option A) st x :
  or_panic o st = Done x <-> exists a, o = Some a /\ x = (a, st).
Proof.
  unfold or_panic. destruct o as [a|].
  - split; [intros [= <-]; eauto|]. intros (a' & [= <-] & ->). reflexivity.
  - split; [discriminate|]. intros (a' & H & _). discriminate H.
Qed.

(** [print] unfolded by one call. *)
Lemma print_S fuel indent node :
  print w opts (S fuel) indent node
  = match err node with
    | Some e =>
        _ <- write Stdout (error_line node e) ;;
        ret node
    | None =>
        fi <- or_panic (info node) ;;
        props <- or_panic (if negb (IsDir fi) then file_props w opts fi
                           else dir_props opts node) ;;
        _ <- write_props opts props ;;
        let name := if (depth node =? 0) || FullPath opts
                    then path node else Name fi in
        let name := if Quotes opts then dquote +:+ name +:+ dquote else name in
        name <- (if Colorize opts then or_panic (Color.ANSIColor w node name)
                 else ret name) ;;
        res <- (if has_mode (Mode fi) ModeSymlink
                then follow_symlink w opts fuel node name
                else ret (name, node)) ;;
        let name := fst res in
        let node := snd res in
        _ <- write (OutFile opts) (name +:+ newline) ;;
        l <- print_children opts (print w opts fuel) indent "│   " 0
               (length (nodes node)) (nodes node) ;;
        ret (set_nodes l node)
    end.
Proof. reflexivity. Qed.

(** An error node: one line, on the standard output, and nothing else. *)
Lemma print_error fuel indent node e st :
  err node = Some e ->
  print w opts (S fuel) indent node st
  = Done (node, mkRState (vpaths st) (output st ++ [(Stdout, error_line node e)])).
Proof. intros He. rewrite print_S, He. reflexivity. Qed.

(** The type assertion fails before any column is looked at. *)
Lemma file_props_SysOther fi : Sys fi = SysOther -> file_props w opts fi = None.
Proof. intros H. unfold file_props, stat_assert. rewrite H. reflexivity. Qed.

Lemma print_panics fuel indent node fi st :
  err node = None -> info node = Some fi -> IsDir fi = false ->
  Sys fi = SysOther ->
  print w opts (S fuel) indent node st = Panic.
Proof.
  intros He Hi Hd Hs. rewrite print_S, He, Hi.
  unfold bind at 1. cbn [or_panic]. rewrite Hd. cbn [negb].
  rewrite (file_props_SysOther fi Hs). reflexivity.
Qed.

(** *** What rendering leaves unchanged *)

Lemma write_props_Done props st :
  write_props opts props st
  = Done (tt, mkRState (vpaths st) (output st ++ props_events opts props)).
Proof.
  unfold write_props, props_events. destruct (0 <? length props)%nat; [reflexivity|].
  unfold ret. rewrite app_nil_r. destruct st; reflexivity.
Qed.

(** The colouring of the link target does not touch the state. *)
Lemma target_colour_Done node tfi st :
  (if Colorize opts
   then or_panic (Color.ANSIColor w (mkNode (Some tfi) (link_text w (path node)) 0 None [])
                    (link_text w (path node)))
   else ret (link_text w (path node))) st
  = Done (target_display w opts node tfi, st).
Proof. unfold target_display. destruct (Colorize opts); reflexivity. Qed.

(** The link part of [print] when links are not followed. *)
Lemma follow_symlink_off fuel node name st :
  FollowLink opts = false ->
  exists name', follow_symlink w opts fuel node name st = Done ((name', node), st).
Proof.
  intros Hoff. unfold follow_symlink. rewrite Hoff. unfold bind.
  destruct (stat_info opts (link_destination w (path node))) as [tfi|].
  - rewrite target_colour_Done. eexists. reflexivity.
  - eexists. reflexivity.
Qed.

(** The loop over the children leaves them as they are when each call
    does. *)
Lemma print_children_frame (pr : string -> Node -> M Node) l :
  (forall indent c st c' st',
      In c l -> pr indent c st = Done (c', st') ->
      c' = c /\ vpaths st' = vpaths st) ->
  forall indent add i len st l' st',
    print_children opts pr indent add i len l st = Done (l', st') ->
    l' = l /\ vpaths st' = vpaths st.
Proof.
  induction l as [|c l IH]; intros Hpr indent add i len st l' st' Hrun.
  - injection Hrun as <- <-. auto.
  - cbn [print_children] in Hrun.
    apply bind_Done in Hrun as (add' & st1 & Hadd & Hrun).
    apply bind_Done in Hrun as (c' & st2 & Hc & Hrun).
    apply bind_Done in Hrun as (rest' & st3 & Hrest & Hrun).
    injection Hrun as <- <-.
    assert (Hv1 : vpaths st1 = vpaths st).
    { destruct (NoIndent opts); [injection Hadd as <- <-; reflexivity|].
      destruct (i =? len - 1)%nat; injection Hadd as <- <-; reflexivity. }
    destruct (Hpr _ _ _ _ _ (or_introl eq_refl) Hc) as [-> Hv2].
    destruct (IH (fun ind c0 s c1 s1 Hin => Hpr ind c0 s c1 s1 (or_intror Hin))
                 _ _ _ _ _ _ _ Hrest) as [-> Hv3].
    split; [reflexivity|congruence].
Qed.

Lemma no_links_unfold n :
  no_links n = negb (is_link n) && forallb no_links (nodes n).
Proof. destruct n; reflexivity. Qed.

Lemma set_nodes_same n : set_nodes (nodes n) n = n.
Proof. destruct n; reflexivity. Qed.

(** With links not followed, or on a tree without links, [print] leaves
    the tree and the visited map as they are. *)
Lemma print_frame fuel :
  forall indent node st n' st',
    FollowLink opts = false \/ no_links node = true ->
    print w opts fuel indent node st = Done (n', st') ->
    n' = node /\ vpaths st' = vpaths st.
Proof.
  induction fuel as [|fuel IH]; intros indent node st n' st' Hcond Hrun;
    [discriminate|].
  destruct (err node) as [e|] eqn:He.
  { rewrite (print_error fuel indent node e st He) in Hrun.
    injection Hrun as <- <-. auto. }
  rewrite print_S, He in Hrun.
  apply bind_Done in Hrun as (fi0 & st1 & Hfi & Hrun).
  apply or_panic_Done in Hfi as (fi & Hinfo & [= -> ->]).
  apply bind_Done in Hrun as (props0 & st1 & Hprops & Hrun).
  apply or_panic_Done in Hprops as (props & _ & [= -> ->]).
  rewrite bind_Done in Hrun. destruct Hrun as ([] & st2 & Hw & Hrun).
  rewrite write_props_Done in Hw. injection Hw as <-.
  cbv zeta in Hrun.
  apply bind_Done in Hrun as (name & st3 & Hname & Hrun).
  assert (Hst3 : st3 = mkRState (vpaths st) (output st ++ props_events opts props)).
  { destruct (Colorize opts).
    - apply or_panic_Done in Hname as (x & _ & [= _ <-]). reflexivity.
    - injection Hname as _ <-. reflexivity. }
  subst st3.
  apply bind_Done in Hrun as (res & st4 & Hres & Hrun).
  assert (Hres' : snd res = node /\ vpaths st4 = vpaths st).
  { destruct (has_mode (Mode fi) ModeSymlink) eqn:Hlink.
    - destruct Hcond as [Hoff|Hno].
      + destruct (follow_symlink_off fuel node name
                    (mkRState (vpaths st) (output st ++ props_events opts props)) Hoff)
          as [name' Hfs].
        rewrite Hfs in Hres. injection Hres as <- <-. auto.
      + rewrite no_links_unfold in Hno. unfold is_link in Hno.
        rewrite Hinfo, Hlink in Hno. discriminate Hno.
    - injection Hres as <- <-. auto. }
  destruct Hres' as [Hnode Hv4]. rewrite Hnode in Hrun.
  apply bind_Done in Hrun as ([] & st5 & Hw & Hrun).
  injection Hw as <-.
  apply bind_Done in Hrun as (l & st6 & Hl & Hrun).
  injection Hrun as <- <-.
  apply print_children_frame in Hl as [-> Hv6].
  - rewrite set_nodes_same. split; [reflexivity|]. rewrite Hv6. exact Hv4.
  - intros ind c s c' s' Hin Hc. apply (IH ind c s c' s'); [|exact Hc].
    destruct Hcond as [Hoff|Hno]; [left; exact Hoff|right].
    rewrite no_links_unfold in Hno. apply andb_prop in Hno as [_ Hall].
    rewrite forallb_forall in Hall. apply Hall. exact Hin.
Qed.

(** [print] changes no field of a node but its children. *)
Lemma follow_symlink_fields fuel node name st x st' :
  follow_symlink w opts fuel node name st = Done (x, st') ->
  snd x = set_nodes (nodes (snd x)) node.
Proof.
  unfold follow_symlink. intros Hrun.
  apply bind_Done in Hrun as (vt & st1 & _ & Hrun).
  destruct (FollowLink opts);
    [|injection Hrun as <- _; cbn; now rewrite set_nodes_same].
  destruct (filepath_Abs w (link_destination w (path node))) as [p|];
    [|injection Hrun as <- _; cbn; now rewrite set_nodes_same].
  destruct (stat_info opts (link_destination w (path node))) as [tfi|];
    [|injection Hrun as <- _; cbn; now rewrite set_nodes_same].
  destruct (IsDir tfi);
    [|injection Hrun as <- _; cbn; now rewrite set_nodes_same].
  destruct (vpaths st1 !! filepath_Clean w p);
    [injection Hrun as <- _; cbn; now rewrite set_nodes_same|].
  destruct (Visit w opts fuel _ (vpaths st1)) as [r|]; [|discriminate].
  injection Hrun as <- _. reflexivity.
Qed.

Lemma print_fields fuel indent node st n' st' :
  print w opts fuel indent node st = Done (n', st') ->
  n' = set_nodes (nodes n') node.
Proof.
  destruct fuel as [|fuel]; [discriminate|]. intros Hrun.
  destruct (err node) as [e|] eqn:He.
  { rewrite (print_error fuel indent node e st He) in Hrun.
    injection Hrun as <- _. now rewrite set_nodes_same. }
  rewrite print_S, He in Hrun.
  apply bind_Done in Hrun as (fi & st1 & _ & Hrun).
  apply bind_Done in Hrun as (props & st2 & _ & Hrun).
  apply bind_Done in Hrun as ([] & st3 & _ & Hrun).
  cbv zeta in Hrun.
  apply bind_Done in Hrun as (name & st4 & _ & Hrun).
  apply bind_Done in Hrun as (res & st5 & Hres & Hrun).
  apply bind_Done in Hrun as ([] & st6 & _ & Hrun).
  apply bind_Done in Hrun as (l & st7 & _ & Hrun).
  injection Hrun as <- _.
  assert (Hfields : snd res = set_nodes (nodes (snd res)) node).
  { destruct (has_mode (Mode fi) ModeSymlink).
    - exact (follow_symlink_fields _ _ _ _ _ _ Hres).
    - injection Hres as <- _. cbn. now rewrite set_nodes_same. }
  rewrite Hfields. reflexivity.
Qed.

(** *** Where the lines go *)

Lemma written_after_refl st : written_after opts st st.
Proof. exists []. split; [now rewrite app_nil_r|constructor]. Qed.

Lemma written_after_trans st1 st2 st3 :
  written_after opts st1 st2 -> written_after opts st2 st3 ->
  written_after opts st1 st3.
Proof.
  intros (e1 & H1 & F1) (e2 & H2 & F2). exists (e1 ++ e2)%list. split.
  - rewrite H2, H1, app_assoc. reflexivity.
  - apply Forall_app. split; assumption.
Qed.

Lemma written_after_OutFile st s :
  written_after opts st (mkRState (vpaths st) (output st ++ [(OutFile opts, s)])).
Proof.
  exists [(OutFile opts, s)]. split; [reflexivity|].
  constructor; [left; reflexivity|constructor].
Qed.

Lemma written_after_props st props :
  written_after opts st (mkRState (vpaths st) (output st ++ props_events opts props)).
Proof.
  exists (props_events opts props). split; [reflexivity|].
  unfold props_events. destruct (0 <? length props)%nat; [|constructor].
  constructor; [left; reflexivity|constructor].
Qed.

Lemma follow_symlink_output fuel node name st x st' :
  follow_symlink w opts fuel node name st = Done (x, st') -> output st' = output st.
Proof.
  unfold follow_symlink. intros Hrun.
  apply bind_Done in Hrun as (vt & st1 & Hvt & Hrun).
  assert (Hst1 : st1 = st).
  { destruct (stat_info opts (link_destination w (path node))) as [tfi|].
    - rewrite target_colour_Done in Hvt. injection Hvt as _ <-. reflexivity.
    - injection Hvt as _ <-. reflexivity. }
  subst st1.
  destruct (FollowLink opts); [|injection Hrun as _ <-; reflexivity].
  destruct (filepath_Abs w (link_destination w (path node))) as [p|];
    [|injection Hrun as _ <-; reflexivity].
  destruct (stat_info opts (link_destination w (path node))) as [tfi|];
    [|injection Hrun as _ <-; reflexivity].
  destruct (IsDir tfi); [|injection Hrun as _ <-; reflexivity].
  destruct (vpaths st !! filepath_Clean w p); [injection Hrun as _ <-; reflexivity|].
  destruct (Visit w opts fuel _ (vpaths st)) as [r|]; [|discriminate].
  injection Hrun as _ <-. reflexivity.
Qed.

Lemma print_children_sinks (pr : string -> Node -> M Node) l :
  (forall indent c st c' st',
      pr indent c st = Done (c', st') -> written_after opts st st') ->
  forall indent add i len st l' st',
    print_children opts pr indent add i len l st = Done (l', st') ->
    written_after opts st st'.
Proof.
  intros Hpr. induction l as [|c l IH]; intros indent add i len st l' st' Hrun.
  - injection Hrun as _ <-. apply written_after_refl.
  - cbn [print_children] in Hrun.
    apply bind_Done in Hrun as (add' & st1 & Hadd & Hrun).
    apply bind_Done in Hrun as (c' & st2 & Hc & Hrun).
    apply bind_Done in Hrun as (rest' & st3 & Hrest & Hrun).
    injection Hrun as _ <-.
    assert (H1 : written_after opts st st1).
    { destruct (NoIndent opts); [injection Hadd as _ <-; apply written_after_refl|].
      destruct (i =? len - 1)%nat; injection Hadd as _ <-;
        apply written_after_OutFile. }
    eapply written_after_trans; [exact H1|].
    eapply written_after_trans; [exact (Hpr _ _ _ _ _ Hc)|].
    exact (IH _ _ _ _ _ _ _ Hrest).
Qed.

(** Every write of [print] goes to [OutFile], but for the lines of the
    error nodes. *)
Lemma print_sinks fuel :
  forall indent node st n' st',
    print w opts fuel indent node st = Done (n', st') -> written_after opts st st'.
Proof.
  induction fuel as [|fuel IH]; intros indent node st n' st' Hrun; [discriminate|].
  destruct (err node) as [e|] eqn:He.
  { rewrite (print_error fuel indent node e st He) in Hrun.
    injection Hrun as _ <-. exists [(Stdout, error_line node e)].
    split; [reflexivity|]. constructor; [|constructor].
    right. split; [reflexivity|]. exists node, e. auto. }
  rewrite print_S, He in Hrun.
  apply bind_Done in Hrun as (fi0 & st1 & Hfi & Hrun).
  apply or_panic_Done in Hfi as (fi & Hinfo & [= -> ->]).
  apply bind_Done in Hrun as (props0 & st1 & Hprops & Hrun).
  apply or_panic_Done in Hprops as (props & _ & [= -> ->]).
  rewrite bind_Done in Hrun. destruct Hrun as ([] & st2 & Hw & Hrun).
  rewrite write_props_Done in Hw. injection Hw as <-.
  cbv zeta in Hrun.
  apply bind_Done in Hrun as (name & st3 & Hname & Hrun).
  assert (Hst3 : st3 = mkRState (vpaths st) (output st ++ props_events opts props)).
  { destruct (Colorize opts).
    - apply or_panic_Done in Hname as (x & _ & [= _ <-]). reflexivity.
    - injection Hname as _ <-. reflexivity. }
  subst st3.
  apply bind_Done in Hrun as (res & st4 & Hres & Hrun).
  assert (Hout : output st4 = (output st ++ props_events opts props)%list).
  { destruct (has_mode (Mode fi) ModeSymlink).
    - exact (follow_symlink_output _ _ _ _ _ _ Hres).
    - injection Hres as _ <-. reflexivity. }
  apply bind_Done in Hrun as ([] & st5 & Hw & Hrun).
  injection Hw as <-.
  apply bind_Done in Hrun as (l & st6 & Hl & Hrun).
  injection Hrun as _ <-.
  apply (print_children_sinks (print w opts fuel) _ IH) in Hl.
  eapply written_after_trans; [|exact Hl].
  destruct (written_after_props st props) as (e1 & H1 & F1). cbn in H1.
  exists (e1 ++ [(OutFile opts, fst res +:+ newline)])%list. split.
  - cbn. rewrite Hout, H1, app_assoc. reflexivity.
  - apply Forall_app. split; [exact F1|].
    constructor; [left; reflexivity|constructor].
Qed.

(** *** Following links *)

(** The link part of [print] when the target is a directory whose key is
    in the visited map: the suffix, and the node as it was. *)
Lemma follow_symlink_visited fuel node name st p tfi :
  FollowLink opts = true ->
  filepath_Abs w (link_destination w (path node)) = Some p ->
  stat_info opts (link_destination w (path node)) = Some tfi -> IsDir tfi = true ->
  is_Some (vpaths st !! filepath_Clean w p) ->
  follow_symlink w opts fuel node name st
  = Done (((name +:+ " -> " +:+ target_display w opts node tfi) +:+ recursive_suffix,
           node), st).
Proof.
  intros Hon Habs Hstat Hdir [b Hb]. unfold follow_symlink.
  rewrite Hstat, Hon, Habs, Hdir. unfold bind. rewrite target_colour_Done.
  rewrite Hb. reflexivity.
Qed.

(** The link part of [print] when the key of the target directory is not
    in the visited map: a traversal of the target, whose children the
    node takes. *)
Lemma follow_symlink_fresh fuel node name st p tfi :
  FollowLink opts = true ->
  filepath_Abs w (link_destination w (path node)) = Some p ->
  stat_info opts (link_destination w (path node)) = Some tfi -> IsDir tfi = true ->
  vpaths st !! filepath_Clean w p = None ->
  follow_symlink w opts fuel node name st
  = match Visit w opts fuel (followed_node tfi (link_destination w (path node)))
            (vpaths st) with
    | Some r =>
        Done ((name +:+ " -> " +:+ target_display w opts node tfi,
               set_nodes (nodes (v_node r)) node),
              mkRState (v_paths r) (output st))
    | None => OutOfFuel
    end.
Proof.
  intros Hon Habs Hstat Hdir Hb. unfold follow_symlink.
  rewrite Hstat, Hon, Habs, Hdir. unfold bind. rewrite target_colour_Done.
  rewrite Hb. reflexivity.
Qed.

(** A link to a visited directory, itself without children: its line with
    the suffix, after the property columns, and nothing more. *)
Lemma print_visited_link fuel indent node st fi props p tfi :
  err node = None -> info node = Some fi -> IsDir fi = false ->
  has_mode (Mode fi) ModeSymlink = true ->
  file_props w opts fi = Some props -> nodes node = [] ->
  FollowLink opts = true ->
  filepath_Abs w (link_destination w (path node)) = Some p ->
  stat_info opts (link_destination w (path node)) = Some tfi -> IsDir tfi = true ->
  is_Some (vpaths st !! filepath_Clean w p) ->
  print w opts (S fuel) indent node st
  = Done (node,
          mkRState (vpaths st)
            ((output st ++ props_events opts props)
             ++ [(OutFile opts,
                  ((shown_name w opts node fi +:+ " -> "
                    +:+ target_display w opts node tfi) +:+ recursive_suffix)
                  +:+ newline)])).
Proof.
  intros He Hinfo Hfile Hlink Hprops Hnodes Hon Habs Hstat Hdir Hvis.
  rewrite print_S, He, Hinfo. unfold bind at 1. cbn [or_panic].
  rewrite Hfile. cbn [negb]. rewrite Hprops. unfold bind at 1. cbn [or_panic].
  unfold bind at 1. rewrite write_props_Done. cbv zeta.
  assert (Hname : forall s,
            (if Colorize opts
             then or_panic (Color.ANSIColor w node
                              (if Quotes opts
                               then dquote +:+ (if (depth node =? 0) || FullPath opts
                                                then path node else Name fi) +:+ dquote
                               else if (depth node =? 0) || FullPath opts
                                    then path node else Name fi))
             else ret (if Quotes opts
                       then dquote +:+ (if (depth node =? 0) || FullPath opts
                                        then path node else Name fi) +:+ dquote
                       else if (depth node =? 0) || FullPath opts
                            then path node else Name fi)) s
            = Done (shown_name w opts node fi, s)).
  { intros s. unfold shown_name, Color.ANSIColor. rewrite Hinfo.
    destruct (Colorize opts); reflexivity. }
  unfold bind at 1. rewrite Hname, Hlink.
  unfold bind at 1.
  rewrite (follow_symlink_visited fuel node _
             (mkRState (vpaths st) (output st ++ props_events opts props))
             p tfi Hon Habs Hstat Hdir Hvis).
  cbn [fst snd]. rewrite Hnodes. cbn.
  rewrite <- Hnodes, set_nodes_same. reflexivity.
Qed.

(** *** Rendering ends *)

Lemma ends_bind {A B} (c : M A) (k : A -> M B) st Q :
  ends c st (fun a st' => ends (k a) st' Q) -> ends (bind c k) st Q.
Proof. unfold ends, bind. destruct (c st) as [[a st']| |]; auto. Qed.

Lemma ends_weaken {A} (c : M A) st (Q Q' : A -> RState -> Prop) :
  ends c st Q -> (forall a st', Q a st' -> Q' a st') -> ends c st Q'.
Proof. unfold ends. destruct (c st) as [[a st']| |]; auto. Qed.

Lemma ends_ret {A} (a : A) st (Q : A -> RState -> Prop) : Q a st -> ends (ret a) st Q.
Proof. auto. Qed.

Lemma ends_or_panic {A} (o : option A) st (Q : A -> RState -> Prop) :
  (forall a, o = Some a -> Q a st) -> ends (or_panic o) st Q.
Proof. unfold ends, or_panic. destruct o; auto. Qed.

Lemma ends_write k s st (Q : unit -> RState -> Prop) :
  Q tt (mkRState (vpaths st) (output st ++ [(k, s)])) -> ends (write k s) st Q.
Proof. auto. Qed.

Lemma ends_Done {A} (c : M A) st Q a st' : ends c st Q -> c st = Done (a, st') -> Q a st'.
Proof. unfold ends. intros H E. rewrite E in H. exact H. Qed.

(** The loop over the children ends when each call does; [Q] is a
    property of the visited map that the calls keep. *)
Lemma print_children_ends (Q : gmap string bool -> Prop)
    (pr : string -> Node -> M Node) l :
  (forall indent c st, In c l -> Q (vpaths st) ->
      ends (pr indent c) st (fun _ st' => Q (vpaths st'))) ->
  forall indent add i len st,
    Q (vpaths st) ->
    ends (print_children opts pr indent add i len l) st (fun _ st' => Q (vpaths st')).
Proof.
  induction l as [|c l IH]; intros Hpr indent add i len st HQ; [exact HQ|].
  cbn [print_children].
  apply ends_bind.
  assert (Hadd : ends (if NoIndent opts then ret ""
                       else if (i =? len - 1)%nat
                            then _ <- write (OutFile opts) (indent +:+ "└── ") ;; ret "    "
                            else _ <- write (OutFile opts) (indent +:+ "├── ") ;; ret add)
                   st (fun _ st' => Q (vpaths st'))).
  { destruct (NoIndent opts); [exact HQ|].
    destruct (i =? len - 1)%nat; exact HQ. }
  eapply ends_weaken; [exact Hadd|]. intros add' st1 HQ1. cbv beta.
  apply ends_bind.
  eapply ends_weaken; [apply (Hpr _ c st1 (or_introl eq_refl) HQ1)|].
  intros c' st2 HQ2. cbv beta.
  apply ends_bind.
  eapply ends_weaken.
  - apply IH; [|exact HQ2]. intros ind c0 s Hin. apply Hpr. right. exact Hin.
  - intros rest' st3 HQ3. exact HQ3.
Qed.

Section Finite.
Context (h : string -> nat) (top : nat) (U : gset string).
Context (Hheight : fs_height w opts h) (Hbound : forall p, (h p <= top)%nat)
        (Hkeys : dir_keys_in w opts U) (Hsort : sort_permutes w).

Lemma unvisited_mono vp vp' : dom vp ⊆ dom vp' -> (unvisited U vp' <= unvisited U vp)%nat.
Proof.
  intros Hsub. unfold unvisited. apply subseteq_size.
  intros x [Hx Hn]%elem_of_difference. apply elem_of_difference.
  split; [exact Hx|]. intros Hin. apply Hn. apply Hsub. exact Hin.
Qed.

Lemma unvisited_drop vp vp' k :
  dom vp ⊆ dom vp' -> k ∈ U -> k ∉ dom vp -> k ∈ dom vp' ->
  (unvisited U vp' < unvisited U vp)%nat.
Proof.
  intros Hsub HU Hout Hin. unfold unvisited. apply subset_size.
  apply strict_spec_alt. split.
  - intros x [Hx Hn]%elem_of_difference. apply elem_of_difference.
    split; [exact Hx|]. intros Hin'. apply Hn. apply Hsub. exact Hin'.
  - intros Heq.
    assert (Hk : k ∈ U ∖ dom vp) by (apply elem_of_difference; split; assumption).
    rewrite <- Heq in Hk. apply elem_of_difference in Hk as [_ Hk]. exact (Hk Hin).
Qed.

(** On a finite storage, [print] ends with the fuel bounded below: it
    goes down by one level of the tree at each call, and each link it
    follows takes one directory out of those not yet visited. *)
Lemma print_ends fuel :
  forall k indent node st,
    (unvisited U (vpaths st) <= k)%nat ->
    (k * (top + 2) + levels node <= fuel)%nat ->
    ends (print w opts fuel indent node) st
      (fun _ st' => dom (vpaths st) ⊆ dom (vpaths st')).
Proof.
  induction fuel as [|fuel IH]; intros k indent node st Hk Hfuel.
  { rewrite VisitFacts.levels_unfold in Hfuel. lia. }
  destruct (err node) as [e|] eqn:He.
  { unfold ends. rewrite (print_error fuel indent node e st He). reflexivity. }
  rewrite print_S, He.
  apply ends_bind. apply ends_or_panic. intros fi Hinfo.
  apply ends_bind. apply ends_or_panic. intros props _.
  apply ends_bind. unfold ends at 1. rewrite write_props_Done.
  set (st1 := mkRState (vpaths st) (output st ++ props_events opts props)).
  cbv zeta.
  apply ends_bind.
  assert (Hname : forall s : string,
            ends (if Colorize opts then or_panic (Color.ANSIColor w node s) else ret s)
              st1 (fun _ st' => st' = st1)).
  { intros s. destruct (Colorize opts); [|reflexivity].
    apply ends_or_panic. reflexivity. }
  eapply ends_weaken; [apply Hname|]. intros name st2 ->. cbv beta.
  (* the children to print, and what is left to visit *)
  assert (Hkids : forall (res : string * Node) st3,
            dom (vpaths st) ⊆ dom (vpaths st3) ->
            (exists k', (unvisited U (vpaths st3) <= k')%nat
                        /\ (k' * (top + 2) + S (max_levels (nodes (snd res))) <= S fuel)%nat) ->
            ends (_ <- write (OutFile opts) (fst res +:+ newline) ;;
                  l <- print_children opts (print w opts fuel) indent "│   " 0
                         (length (nodes (snd res))) (nodes (snd res)) ;;
                  ret (set_nodes l (snd res))) st3
              (fun _ st' => dom (vpaths st) ⊆ dom (vpaths st'))).
  { intros res st3 Hsub (k' & Hk' & Hfuel').
    apply ends_bind. apply ends_write.
    apply ends_bind.
    eapply ends_weaken.
    - apply (print_children_ends
               (fun vp => dom (vpaths st3) ⊆ dom vp) (print w opts fuel)
               (nodes (snd res))); [|reflexivity].
      intros ind c s Hin Hs.
      eapply ends_weaken.
      + apply (IH k' ind c s).
        * pose proof (unvisited_mono _ _ Hs). lia.
        * assert (Hc : (levels c <= max_levels (nodes (snd res)))%nat).
          { pose proof (proj2 (VisitFacts.max_levels_le (nodes (snd res))
                                 (max_levels (nodes (snd res)))) (le_n _)) as HF.
            rewrite Forall_forall in HF. apply HF.
            apply list_elem_of_In. exact Hin. }
          lia.
      + intros c' s' Hs'. cbv beta in *. set_solver.
    - intros l s' Hs'. cbv beta in *. unfold ends, ret. cbn in *. set_solver. }
  apply ends_bind.
  destruct (has_mode (Mode fi) ModeSymlink).
  2:{ apply ends_ret. apply Hkids; [reflexivity|].
      exists k. split; [exact Hk|]. rewrite VisitFacts.levels_unfold in Hfuel.
      exact Hfuel. }
  (* the link *)
  unfold follow_symlink. apply ends_bind.
  assert (Htarget : forall (c : M string),
            (c = ret (link_text w (path node))
             \/ exists tfi, c = or_panic (Color.ANSIColor w
                                            (mkNode (Some tfi) (link_text w (path node)) 0 None [])
                                            (link_text w (path node)))) ->
            ends c st1 (fun _ st' => st' = st1)).
  { intros c [->|[tfi ->]]; [reflexivity|]. apply ends_or_panic. reflexivity. }
  eapply ends_weaken.
  { apply Htarget. destruct (stat_info opts (link_destination w (path node))) as [tfi|];
      [|left; reflexivity].
    destruct (Colorize opts); [right; eauto|left; reflexivity]. }
  intros vt st2 ->. cbv beta.
  assert (Hstay : forall name' : string,
            ends (ret (name', node)) st1
              (fun res st' =>
                 ends (_ <- write (OutFile opts) (fst res +:+ newline) ;;
                       l <- print_children opts (print w opts fuel) indent "│   " 0
                              (length (nodes (snd res))) (nodes (snd res)) ;;
                       ret (set_nodes l (snd res))) st'
                   (fun _ st'' => dom (vpaths st) ⊆ dom (vpaths st'')))).
  { intros name'. apply ends_ret. apply Hkids; [reflexivity|].
    exists k. split; [exact Hk|]. rewrite VisitFacts.levels_unfold in Hfuel.
    exact Hfuel. }
  destruct (FollowLink opts); [|apply Hstay].
  destruct (filepath_Abs w (link_destination w (path node))) as [p|] eqn:Habs; [|apply Hstay].
  destruct (stat_info opts (link_destination w (path node))) as [tfi|] eqn:Hstat;
    [|apply Hstay].
  destruct (IsDir tfi) eqn:Hdir; [|apply Hstay].
  unfold ends at 1.
  destruct (vpaths st1 !! filepath_Clean w p) as [b|] eqn:Hlook.
  { apply Hkids; [reflexivity|].
    exists k. split; [exact Hk|]. rewrite VisitFacts.levels_unfold in Hfuel.
    exact Hfuel. }
  (* a fresh traversal: the key of the target leaves the unvisited *)
  assert (HinU : filepath_Clean w p ∈ U).
  { unfold stat_info in Hstat.
    destruct (Stat (fs opts) (link_destination w (path node))) as [tfi'|] eqn:Hs;
      [|discriminate].
    injection Hstat as ->. exact (Hkeys (path node) _ _ Hs Hdir Habs). }
  assert (Hout : filepath_Clean w p ∉ dom (vpaths st)).
  { intros Hin. apply elem_of_dom in Hin as [b Hb]. cbn in Hlook. congruence. }
  assert (Hkpos : (1 <= k)%nat).
  { assert (Hpos : (0 < unvisited U (vpaths st))%nat); [|lia].
    unfold unvisited.
    assert (Hk1 : filepath_Clean w p ∈ U ∖ dom (vpaths st))
      by (apply elem_of_difference; split; assumption).
    assert (Hne : size (U ∖ dom (vpaths st)) ≠ 0%nat); [|lia].
    apply size_non_empty_iff. intros Heq. rewrite Heq in Hk1.
    exact (not_elem_of_empty _ Hk1). }
  destruct (VisitFacts.Visit_total w opts h Hheight fuel
              (followed_node tfi (link_destination w (path node))) (vpaths st1))
    as [r Hr].
  { cbn. pose proof (Hbound (link_destination w (path node))).
    rewrite VisitFacts.levels_unfold in Hfuel. nia. }
  rewrite Hr.
  pose proof (VisitFacts.Visit_vpaths_grow w opts _ _ _ _ Hr) as Hgrow.
  pose proof (VisitFacts.Visit_vpaths_key w opts _ _ _ _ p Hr Habs) as Hkey.
  pose proof (VisitFacts.Visit_levels w opts h Hheight Hsort fuel
                (followed_node tfi (link_destination w (path node))) (vpaths st1) r
                eq_refl Hr) as Hlev.
  cbn in Hgrow, Hlev.
  apply Hkids; [exact Hgrow|].
  exists (k - 1)%nat. split.
  - pose proof (unvisited_drop _ _ _ Hgrow HinU Hout Hkey). cbn. lia.
  - cbn [snd nodes set_nodes].
    pose proof (Hbound (link_destination w (path node))).
    rewrite VisitFacts.levels_unfold in Hfuel. nia.
Qed.

End Finite.
End Print.
End PrintFacts.

Example short_error_plain : short_error "lstat nope: no such file or directory"
                            = "no such file or directory".
Proof. vm_compute. reflexivity. Qed.
Example short_error_no_separator : short_error "EOF" = "EOF".
Proof. vm_compute. reflexivity. Qed.

(** C6 fails on the piece of the error text that is shown.  The path
    [a: b] does not exist; its error text has two separators, and the
    line that [print] writes shows what stands between them, a piece of
    the path, where the claim has all that follows the first separator:
    [msgs[1]] of [strings.Split] is not the rest of the text. *)
Lemma error_line_is_not_the_trailing_text :
  let e := "lstat a: b: no such file or directory" in
  Stat (fs Demo.plain) "a: b" = inr e
  /\ option_map v_node (Visit Demo.world Demo.plain 1 (New "a: b") ∅)
     = Some (mkNode None "a: b" 0 (Some e) [])
  /\ Text.after_first ": " e = Some "b: no such file or directory"
  /\ short_error e = "b"
  /\ Demo.lines (Print Demo.world Demo.plain 1 (mkNode None "a: b" 0 (Some e) [])
                   Demo.start)
     = [(Stdout, "a: b [b]" +:+ newline)].
Proof. vm_compute. repeat split. Qed.

(** For a node with an error, [print] writes the one line made of the
    path, a space and, in brackets, the piece of the error text between
    its first and its second [": "] (up to the end when there is no
    second one, the whole text when there is no separator); it renders
    no children and leaves the node as it is.  In [Visit], a child that
    ends with an error has no children, returns (0, 0), is attached to
    its parent, and the loop goes on with the names that follow. *)
Theorem print_error_node (w : World) (opts : Options) (fuel : nat)
    (indent : string) (node : Node) (e : string) (st : RState)
    (Herr : err node = Some e) :
  print w opts (S fuel) indent node st
  = Done (node,
          mkRState (vpaths st)
            (output st
             ++ [(Stdout, path node +:+ " [" +:+ second_piece e +:+ "]" +:+ newline)]))
  /\ (Text.after_first ": " e = None -> second_piece e = e)
  /\ (forall t, Text.after_first ": " e = Some t ->
        second_piece e = before_first ": " t)
  /\ (forall fuel' ppath pdepth name rest acc vp d f rc,
        hidden opts name = false ->
        Visit w opts fuel' (child_node w ppath pdepth name) vp = Some rc ->
        err (v_node rc) <> None ->
        v_dirs rc = 0 /\ v_files rc = 0 /\ nodes (v_node rc) = []
        /\ visit_names w opts (Visit w opts fuel') ppath pdepth (name :: rest)
             acc vp d f
           = visit_names w opts (Visit w opts fuel') ppath pdepth rest
               (acc ++ [v_node rc]) (v_paths rc) d f).
Proof.
  split.
  { rewrite (PrintFacts.print_error w opts fuel indent node e st Herr).
    unfold error_line. rewrite PrintFacts.short_error_second_piece. reflexivity. }
  split; [unfold second_piece; intros ->; reflexivity|].
  split; [unfold second_piece; intros t ->; reflexivity|].
  intros fuel' ppath pdepth name rest acc vp d f rc Hh Hrc He.
  destruct (VisitFacts.Visit_error w opts _ _ _ _ Hrc eq_refl eq_refl He)
    as (Hd & Hf & Hn).
  repeat split; try assumption.
  rewrite VisitFacts.visit_names_cons, Hh, Hrc.
  assert (Hkeep : discarded w opts name (v_node rc) = false).
  { unfold discarded. destruct (err (v_node rc)); [reflexivity|congruence]. }
  rewrite Hkeep, Hd, Hf, !Z.add_0_r. reflexivity.
Qed.

Lemma print_error_node_witness :
  print Demo.world Demo.plain 1 "" Demo.missing Demo.start
  = Done (Demo.missing,
          mkRState ∅ [(Stdout, "nope [no such file or directory]" +:+ newline)]).
Proof.
  exact (proj1 (print_error_node Demo.world Demo.plain 0 "" Demo.missing
                  "lstat nope: no such file or directory" Demo.start eq_refl)).
Defined.

(** C7 fails on the error line: [print] writes it with [fmt.Printf], to
    the standard output, whatever [OutFile] is; every other line is
    written to [OutFile]. *)
Lemma error_line_goes_to_stdout :
  Visit Demo.world Demo.plain 1 (New "nope") ∅
  = Some (mkVisited Demo.missing {[ "/cwd/nope" := true ]} 0 0)
  /\ OutFile Demo.plain = Writer 0
  /\ Demo.lines (Print Demo.world Demo.plain 1 Demo.missing Demo.start)
     = [(Stdout, "nope [no such file or directory]" +:+ newline)].
Proof. split; [vm_compute; reflexivity|]. split; reflexivity. Qed.

Example print_plain_file_without_columns :
  Demo.lines (Print Demo.world Demo.plain 1 (Demo.leaf "a") Demo.start)
  = [(Writer 0, "a" +:+ newline)].
Proof. vm_compute. reflexivity. Qed.

(** C10: for a node that has no error and is not a directory, [print]
    asserts that [Sys()] is a pointer to [Stat_t] before it looks at any
    option: when [Sys()] holds a value of another type the rendering
    panics, whatever the options are, with every property column off as
    well. *)
Theorem print_panics_on_foreign_Sys (w : World) (opts : Options) (fuel : nat)
    (indent : string) (node : Node) (fi : FileInfo) (st : RState)
    (Herr : err node = None) (Hinfo : info node = Some fi)
    (Hfile : IsDir fi = false) (Hsys : Sys fi = SysOther) :
  print w opts (S fuel) indent node st = Panic.
Proof. exact (PrintFacts.print_panics w opts fuel indent node fi st Herr Hinfo Hfile Hsys). Qed.

Lemma print_panics_on_foreign_Sys_witness :
  (Inodes Demo.plain || Device Demo.plain || FileMode Demo.plain
   || ShowUid Demo.plain || ShowGid Demo.plain || ByteSize Demo.plain
   || UnitSize Demo.plain || LastMod Demo.plain) = false
  /\ Print Demo.world Demo.plain 1 Demo.foreign_file Demo.start = Panic.
Proof.
  split; [reflexivity|].
  exact (print_panics_on_foreign_Sys Demo.world Demo.plain 0 "" Demo.foreign_file
           (mkFileInfo "x" 1 420 0 false SysOther) Demo.start
           eq_refl eq_refl eq_refl eq_refl).
Defined.

(** ** The tree that [print] leaves *)

Module RenderedFacts.
Import PrintFacts.

Section Rendered.
Context (w : World) (opts : Options).

Lemma same_fields_refl n : same_fields n n.
Proof. repeat split. Qed.

Lemma same_fields_set_nodes l n : same_fields n (set_nodes l n).
Proof. destruct n. repeat split. Qed.

Lemma nodes_set_nodes l n : nodes (set_nodes l n) = l.
Proof. destruct n. reflexivity. Qed.

Lemma rendered_as_refl n : rendered_as w opts n n.
Proof.
  revert n. apply VisitFacts.Node_induction. intros i p d e l IH.
  apply rendered_kept; [apply same_fields_refl|]. cbn [nodes].
  induction IH as [|c l Hc _ IHl]; constructor; assumption.
Qed.

(** The two ways out of the symbolic-link part of [print]. *)
Lemma follow_symlink_cases fuel node name st name' node' st' :
  follow_symlink w opts fuel node name st = Done ((name', node'), st') ->
  node' = node
  \/ (FollowLink opts = true
      /\ exists tfi p r,
           stat_info opts (link_destination w (path node)) = Some tfi
           /\ IsDir tfi = true
           /\ filepath_Abs w (link_destination w (path node)) = Some p
           /\ vpaths st !! filepath_Clean w p = None
           /\ Visit w opts fuel (followed_node tfi (link_destination w (path node)))
                (vpaths st) = Some r
           /\ node' = set_nodes (nodes (v_node r)) node).
Proof.
  unfold follow_symlink. intros Hrun.
  apply bind_Done in Hrun as (vt & st1 & Hvt & Hrun).
  assert (Hst : st1 = st).
  { destruct (stat_info opts (link_destination w (path node))) as [tfi|].
    - rewrite target_colour_Done in Hvt. injection Hvt as _ <-. reflexivity.
    - injection Hvt as _ <-. reflexivity. }
  subst st1. clear Hvt.
  destruct (FollowLink opts); [|injection Hrun as _ <- _; left; reflexivity].
  destruct (filepath_Abs w (link_destination w (path node))) as [p|] eqn:Habs;
    [|injection Hrun as _ <- _; left; reflexivity].
  destruct (stat_info opts (link_destination w (path node))) as [tfi|] eqn:Hsi;
    [|injection Hrun as _ <- _; left; reflexivity].
  destruct (IsDir tfi) eqn:Hdir; [|injection Hrun as _ <- _; left; reflexivity].
  destruct (vpaths st !! filepath_Clean w p) eqn:Hlook;
    [injection Hrun as _ <- _; left; reflexivity|].
  destruct (Visit w opts fuel (followed_node tfi (link_destination w (path node)))
              (vpaths st)) as [r|] eqn:Hv; [|discriminate Hrun].
  injection Hrun as _ <- _. right. split; [reflexivity|].
  exists tfi, p, r. repeat split; try assumption; reflexivity.
Qed.

Lemma print_children_rel (R : Node -> Node -> Prop)
    (pr : string -> Node -> M Node) l :
  (forall ind c st c' st', In c l -> pr ind c st = Done (c', st') -> R c c') ->
  forall indent add i len st l' st',
    print_children opts pr indent add i len l st = Done (l', st') ->
    Forall2 R l l'.
Proof.
  induction l as [|c rest IH]; intros Hpr indent add i len st l' st' Hrun.
  { injection Hrun as <- _. constructor. }
  cbn [print_children] in Hrun.
  apply bind_Done in Hrun as (add' & st1 & _ & Hrun).
  apply bind_Done in Hrun as (c' & st2 & Hc & Hrun).
  apply bind_Done in Hrun as (rest' & st3 & Hrest & Hrun).
  injection Hrun as <- _. constructor.
  - exact (Hpr _ c _ _ _ (or_introl eq_refl) Hc).
  - apply (IH (fun ind c0 s c0' s' Hin => Hpr ind c0 s c0' s' (or_intror Hin))
             _ _ _ _ _ _ _ Hrest).
Qed.

(** Whatever [print] returns for a node is [rendered_as] that node. *)
Lemma print_rendered fuel :
  forall indent node st n' st',
    print w opts fuel indent node st = Done (n', st') ->
    rendered_as w opts node n'.
Proof.
  induction fuel as [|fuel IH]; intros indent node st n' st' Hrun; [discriminate|].
  destruct (err node) as [e|] eqn:He.
  { rewrite (print_error w opts fuel indent node e st He) in Hrun.
    injection Hrun as <- _. apply rendered_as_refl. }
  rewrite print_S, He in Hrun.
  apply bind_Done in Hrun as (fi0 & sa & Hfi & Hrun).
  apply or_panic_Done in Hfi as (fi & Hfi & [= -> ->]).
  apply bind_Done in Hrun as (props0 & sb & Hprops & Hrun).
  apply or_panic_Done in Hprops as (props & Hprops & [= -> ->]).
  apply bind_Done in Hrun as ([] & sc & Hw & Hrun).
  cbv zeta in Hrun.
  apply bind_Done in Hrun as (name & sd & Hname & Hrun).
  apply bind_Done in Hrun as ([name' node'] & st1 & Hres & Hrun).
  apply bind_Done in Hrun as ([] & st2 & Hw2 & Hrun).
  apply bind_Done in Hrun as (l & st3 & Hkids & Hrun).
  injection Hrun as <- _. cbn [fst snd] in *.
  apply (print_children_rel (rendered_as w opts) (print w opts fuel)) in Hkids;
    [|intros ind c s c' s' _ Hc; exact (IH ind c s c' s' Hc)].
  assert (Hcases : node' = node
            \/ (FollowLink opts = true
                /\ has_mode (Mode fi) ModeSymlink = true
                /\ exists tfi p r,
                     stat_info opts (link_destination w (path node)) = Some tfi
                     /\ IsDir tfi = true
                     /\ filepath_Abs w (link_destination w (path node)) = Some p
                     /\ vpaths sd !! filepath_Clean w p = None
                     /\ Visit w opts fuel
                          (followed_node tfi (link_destination w (path node)))
                          (vpaths sd) = Some r
                     /\ node' = set_nodes (nodes (v_node r)) node)).
  { destruct (has_mode (Mode fi) ModeSymlink) eqn:Hsym.
    - destruct (follow_symlink_cases _ _ _ _ _ _ _ Hres) as [->|(Hon & Hex)];
        [left; reflexivity|right; auto].
    - injection Hres as _ <- _. left. reflexivity. }
  destruct Hcases as [->|(Hon & Hsym & tfi & p & r & Hsi & Hdir & Habs & Hlook & Hv & ->)].
  - apply rendered_kept; [apply same_fields_set_nodes|].
    rewrite nodes_set_nodes. exact Hkids.
  - rewrite nodes_set_nodes in Hkids.
    apply (rendered_followed w opts node _ fi tfi p fuel (vpaths sd) r);
      try assumption.
    destruct node; repeat split.
Qed.

(** The steps of [print] on a node without an error. *)
Lemma print_parts fuel indent node st n' st' :
  print w opts (S fuel) indent node st = Done (n', st') ->
  err node = None ->
  exists fi name sd name' node' st1 l,
    info node = Some fi /\ vpaths sd = vpaths st
    /\ (if has_mode (Mode fi) ModeSymlink
        then follow_symlink w opts fuel node name
        else ret (name, node)) sd = Done ((name', node'), st1)
    /\ Forall2 (rendered_as w opts) (nodes node') l
    /\ n' = set_nodes l node'.
Proof.
  intros Hrun He. rewrite print_S, He in Hrun.
  apply bind_Done in Hrun as (fi0 & sa & Hfi & Hrun).
  apply or_panic_Done in Hfi as (fi & Hfi & [= -> ->]).
  apply bind_Done in Hrun as (props0 & sb & Hprops & Hrun).
  apply or_panic_Done in Hprops as (props & Hprops & [= -> ->]).
  apply bind_Done in Hrun as ([] & sc & Hw & Hrun).
  rewrite write_props_Done in Hw. injection Hw as <-.
  cbv zeta in Hrun.
  apply bind_Done in Hrun as (name & sd & Hname & Hrun).
  assert (Hsd : vpaths sd = vpaths st).
  { destruct (Colorize opts).
    - apply or_panic_Done in Hname as (a & _ & [= _ ->]). reflexivity.
    - injection Hname as _ <-. reflexivity. }
  apply bind_Done in Hrun as ([name' node'] & st1 & Hres & Hrun).
  apply bind_Done in Hrun as ([] & st2 & Hw2 & Hrun).
  apply bind_Done in Hrun as (l & st3 & Hkids & Hrun).
  injection Hrun as <- _. cbn [fst snd] in *.
  apply (print_children_rel (rendered_as w opts) (print w opts fuel)) in Hkids;
    [|intros ind c s c' s' _ Hc; exact (print_rendered fuel ind c s c' s' Hc)].
  eexists fi, _, _, name', node', st1, l.
  split; [exact Hfi|]. split; [exact Hsd|].
  split; [exact Hres|split; [exact Hkids|reflexivity]].
Qed.

(** Where no link is followed the children are rendered one for one. *)
Lemma print_kept_children fuel indent node st n' st' :
  print w opts fuel indent node st = Done (n', st') ->
  is_link node = false \/ FollowLink opts = false ->
  Forall2 (rendered_as w opts) (nodes node) (nodes n').
Proof.
  destruct fuel as [|fuel]; [discriminate|]. intros Hrun Hcond.
  destruct (err node) as [e|] eqn:He.
  { rewrite (print_error w opts fuel indent node e st He) in Hrun.
    injection Hrun as <- _.
    pose proof (rendered_as_refl node) as Hr.
    clear -Hr. induction (nodes node) as [|c l IHl]; constructor;
      [apply rendered_as_refl|exact IHl]. }
  destruct (print_parts fuel indent node st n' st' Hrun He)
    as (fi & name & sd & name' & node' & st1 & l & Hfi & _ & Hres & Hkids & ->).
  rewrite nodes_set_nodes.
  assert (Hsame : node' = node).
  { unfold is_link in Hcond. rewrite Hfi in Hcond.
    destruct (has_mode (Mode fi) ModeSymlink).
    - destruct Hcond as [Hc|Hoff]; [discriminate Hc|].
      destruct (follow_symlink_off w opts fuel node name sd Hoff) as [nm Hnm].
      rewrite Hnm in Hres. injection Hres as _ <- _. reflexivity.
    - injection Hres as _ <- _. reflexivity. }
  subst node'. exact Hkids.
Qed.

(** At a link to a directory: the children are kept when the key of the
    target is in the visited map, and are those of a traversal of the
    target when it is not. *)
Lemma print_link_children fuel indent node st n' st' fi tfi p :
  print w opts fuel indent node st = Done (n', st') ->
  FollowLink opts = true -> err node = None -> info node = Some fi ->
  has_mode (Mode fi) ModeSymlink = true ->
  stat_info opts (link_destination w (path node)) = Some tfi ->
  IsDir tfi = true ->
  filepath_Abs w (link_destination w (path node)) = Some p ->
  (is_Some (vpaths st !! filepath_Clean w p) ->
   Forall2 (rendered_as w opts) (nodes node) (nodes n'))
  /\ (vpaths st !! filepath_Clean w p = None ->
      exists fuel' r,
        Visit w opts fuel' (followed_node tfi (link_destination w (path node)))
          (vpaths st) = Some r
        /\ Forall2 (rendered_as w opts) (nodes (v_node r)) (nodes n')).
Proof.
  destruct fuel as [|fuel]; [discriminate|].
  intros Hrun Hon He Hfi Hsym Hsi Hdir Habs.
  destruct (print_parts fuel indent node st n' st' Hrun He)
    as (fi' & name & sd & name' & node' & st1 & l & Hfi' & Hvp & Hres & Hkids & ->).
  rewrite Hfi in Hfi'. injection Hfi' as <-. rewrite Hsym in Hres.
  rewrite nodes_set_nodes. split.
  - intros Hvis. rewrite <- Hvp in Hvis.
    rewrite (follow_symlink_visited w opts fuel node name sd p tfi
               Hon Habs Hsi Hdir Hvis) in Hres.
    injection Hres as _ <- _. exact Hkids.
  - intros Hfresh. rewrite <- Hvp in Hfresh.
    rewrite (follow_symlink_fresh w opts fuel node name sd p tfi
               Hon Habs Hsi Hdir Hfresh) in Hres.
    destruct (Visit w opts fuel (followed_node tfi (link_destination w (path node)))
                (vpaths sd)) as [r|] eqn:Hv; [|discriminate Hres].
    injection Hres as _ <- _. rewrite nodes_set_nodes in Hkids.
    exists fuel, r. rewrite <- Hvp. split; [exact Hv|exact Hkids].
Qed.

End Rendered.
End RenderedFacts.

Example follow_renders_cycle_once :
  Demo.lines (Demo.rendered Demo.world (Demo.with_follow Demo.plain))
  = [ (Writer 0, "A" +:+ newline);
      (Writer 0, "├── ");
      (Writer 0, "L -> . [recursive, not followed]" +:+ newline);
      (Writer 0, "├── ");
      (Writer 0, "M -> ../B" +:+ newline);
      (Writer 0, "│   └── ");
      (Writer 0, "x" +:+ newline);
      (Writer 0, "├── ");
      (Writer 0, "f.txt" +:+ newline);
      (Writer 0, "├── ");
      (Writer 0, "sub" +:+ newline);
      (Writer 0, "│   ├── ");
      (Writer 0, "g.go" +:+ newline);
      (Writer 0, "│   └── ");
      (Writer 0, "h.py" +:+ newline);
      (Writer 0, "└── ");
      (Stdout, "A/bad [permission denied]" +:+ newline) ].
Proof. vm_compute. reflexivity. Qed.

(** C2 fails on a cycle in a tree that is asked for through a link.
    [ln] is a link to [real], and [real/A] holds the link [L] to itself.
    [Visit] of [ln/A] enters the key [/cwd/ln/A], made of the path as it
    was given; [print] looks for the key of the resolved target,
    [/cwd/real/A], does not find it, follows [L] once and renders the
    cycle a second time below it, where the suffix comes at last. *)
Lemma cycle_below_a_linked_root_is_rendered_twice :
  match Visit Detour.world Detour.follow 5 (New "ln/A") ∅ with
  | Some r =>
      v_paths r !! "/cwd/ln/A" = Some true
      /\ filepath_EvalSymlinks Detour.world "ln/A/L" = Some "real/A"
      /\ v_paths r !! "/cwd/real/A" = None
      /\ map (fun c => (path c, length (nodes c))) (nodes (v_node r)) = [("ln/A/L", 0%nat)]
      /\ Demo.lines (Print Detour.world Detour.follow 20 (v_node r)
                       (mkRState (v_paths r) []))
         = [ (Writer 0, "ln/A" +:+ newline);
             (Writer 0, "└── ");
             (Writer 0, "L -> ." +:+ newline);
             (Writer 0, "    └── ");
             (Writer 0, "L -> . [recursive, not followed]" +:+ newline) ]
  | None => False
  end.
Proof. vm_compute. repeat split. Qed.

(** Following links, for a node that is a symbolic link whose resolved
    target is a directory with cleaned absolute path [p]: if [p] is in
    the visited map, [print] appends the suffix to the name and leaves
    the node and the map as they are, so that a link without children is
    rendered as one line; if [p] is not in the map, [print] runs [Visit]
    on a new node for the target, which enters [p] in the map, and the
    node takes the children of that traversal.  [Visit] enters the key
    of the path of every node it is called on, as the path is given; a
    link finds its target visited when the resolved target has such a
    key.  On a finite storage (directories of bounded height, finitely
    many directories that links lead to) the rendering of any tree ends,
    by a result or by a panic: the depth of the recursion is bounded by
    the number of such directories and the height of the storage. *)
Theorem symlink_following (w : World) (opts : Options) (h : string -> nat)
    (top : nat) (U : gset string) (node : Node) (fi tfi : FileInfo) (p : string)
    (indent : string) (st : RState)
    (Hheight : fs_height w opts h) (Hbound : forall q, (h q <= top)%nat)
    (Hkeys : dir_keys_in w opts U) (Hsort : sort_permutes w)
    (Hon : FollowLink opts = true)
    (Hlink : err node = None /\ info node = Some fi /\ IsDir fi = false
             /\ has_mode (Mode fi) ModeSymlink = true)
    (Htarget : stat_info opts (link_destination w (path node)) = Some tfi
               /\ IsDir tfi = true)
    (Habs : filepath_Abs w (link_destination w (path node)) = Some p) :
  let key := filepath_Clean w p in
  let target := link_destination w (path node) in
  (is_Some (vpaths st !! key) ->
     (forall fuel name,
        follow_symlink w opts fuel node name st
        = Done (((name +:+ " -> " +:+ target_display w opts node tfi)
                 +:+ " [recursive, not followed]", node), st))
     /\ (forall fuel props,
           nodes node = [] -> file_props w opts fi = Some props ->
           print w opts (S fuel) indent node st
           = Done (node,
                   mkRState (vpaths st)
                     ((output st ++ props_events opts props)
                      ++ [(OutFile opts,
                           ((shown_name w opts node fi +:+ " -> "
                             +:+ target_display w opts node tfi)
                            +:+ " [recursive, not followed]") +:+ newline)]))))
  /\ (vpaths st !! key = None ->
      exists r,
        Visit w opts (S (h target)) (followed_node tfi target) (vpaths st) = Some r
        /\ key ∈ dom (v_paths r)
        /\ forall fuel name,
             (h target < fuel)%nat ->
             follow_symlink w opts fuel node name st
             = Done ((name +:+ " -> " +:+ target_display w opts node tfi,
                      set_nodes (nodes (v_node r)) node),
                     mkRState (v_paths r) (output st)))
  /\ (forall fuel dirnode vp r a,
        Visit w opts fuel dirnode vp = Some r ->
        filepath_Abs w (path dirnode) = Some a ->
        is_Some (v_paths r !! filepath_Clean w a))
  /\ (forall fuel root indent' st0,
        (size U * (top + 2) + levels root <= fuel)%nat ->
        ends (print w opts fuel indent' root) st0
          (fun _ st' => dom (vpaths st0) ⊆ dom (vpaths st'))).
Proof.
  destruct Hlink as (He & Hinfo & Hfile & Hmode). destruct Htarget as [Hstat Hdir].
  intros key target. split; [|split; [|split]].
  - intros Hvis. split.
    + intros fuel name.
      exact (PrintFacts.follow_symlink_visited w opts fuel node name st p tfi
               Hon Habs Hstat Hdir Hvis).
    + intros fuel props Hnodes Hprops.
      exact (PrintFacts.print_visited_link w opts fuel indent node st fi props p tfi
               He Hinfo Hfile Hmode Hprops Hnodes Hon Habs Hstat Hdir Hvis).
  - intros Hfresh.
    destruct (VisitFacts.Visit_total w opts h Hheight (S (h target))
                (followed_node tfi target) (vpaths st)) as [r Hr]; [cbn; lia|].
    exists r. split; [exact Hr|]. split.
    + exact (VisitFacts.Visit_vpaths_key w opts _ _ _ _ p Hr Habs).
    + intros fuel name Hfuel.
      rewrite (PrintFacts.follow_symlink_fresh w opts fuel node name st p tfi
                 Hon Habs Hstat Hdir Hfresh).
      fold target.
      rewrite (VisitFacts.Visit_mono w opts _ fuel _ _ _ Hfuel Hr). reflexivity.
  - intros fuel dirnode vp r a Hr Ha. apply elem_of_dom.
    exact (VisitFacts.Visit_vpaths_key w opts _ _ _ _ a Hr Ha).
  - intros fuel root indent' st0 Hfuel.
    apply (PrintFacts.print_ends w opts h top U Hheight Hbound Hkeys Hsort fuel (size U));
      [|exact Hfuel].
    unfold unvisited. apply subseteq_size.
    intros x [Hx _]%elem_of_difference. exact Hx.
Qed.

Lemma symlink_following_witness :
  match Demo.visited_root Demo.world (Demo.with_follow Demo.plain) with
  | Some r =>
      print Demo.world (Demo.with_follow Demo.plain) 1 "" Demo.link_L
        (mkRState (v_paths r) [])
      = Done (Demo.link_L,
              mkRState (v_paths r)
                [(Writer 0, "L -> . [recursive, not followed]" +:+ newline)])
  | None => False
  end.
Proof.
  destruct (Demo.visited_root Demo.world (Demo.with_follow Demo.plain)) as [r|] eqn:Hr;
    [|vm_compute in Hr; discriminate Hr].
  assert (Hvis : is_Some (v_paths r !! "/cwd/A")).
  { unfold Demo.visited_root in Hr.
    exact (proj1 (proj2 (proj2
             (symlink_following Demo.world (Demo.with_follow Demo.plain)
                Demo.height 2%nat Demo.dir_keys Demo.link_L
                (mkFileInfo "L" 1 (ModeSymlink + 511) 0 false Demo.st0)
                (mkFileInfo "A" 4096 (ModeDir + 493) 0 true Demo.st0)
                "/cwd/A" "" Demo.start
                (DemoFacts.height_decreases Demo.sort_stable
                   (Demo.with_follow Demo.plain) eq_refl)
                DemoFacts.height_bound
                (DemoFacts.keys_in Demo.sort_stable (Demo.with_follow Demo.plain) eq_refl)
                DemoFacts.world_permutes
                eq_refl (conj eq_refl (conj eq_refl (conj eq_refl eq_refl)))
                (conj eq_refl eq_refl) eq_refl)))
             5%nat (New "A") ∅ r "/cwd/A" Hr eq_refl). }
  exact (proj2 (proj1
           (symlink_following Demo.world (Demo.with_follow Demo.plain)
              Demo.height 2%nat Demo.dir_keys Demo.link_L
              (mkFileInfo "L" 1 (ModeSymlink + 511) 0 false Demo.st0)
              (mkFileInfo "A" 4096 (ModeDir + 493) 0 true Demo.st0)
              "/cwd/A" "" (mkRState (v_paths r) [])
              (DemoFacts.height_decreases Demo.sort_stable
                 (Demo.with_follow Demo.plain) eq_refl)
              DemoFacts.height_bound
              (DemoFacts.keys_in Demo.sort_stable (Demo.with_follow Demo.plain) eq_refl)
              DemoFacts.world_permutes
              eq_refl (conj eq_refl (conj eq_refl (conj eq_refl eq_refl)))
              (conj eq_refl eq_refl) eq_refl) Hvis)
           0%nat [] eq_refl eq_refl).
Defined.

(** C8, as stated, fails where a link is followed: [print] replaces the
    children of the link [A/M], none after [Visit], by the child of the
    directory it leads to. *)
Lemma print_changes_a_followed_link :
  match Demo.visited_root Demo.world (Demo.with_follow Demo.plain) with
  | Some r =>
      match Print Demo.world (Demo.with_follow Demo.plain) 20 (v_node r)
              (mkRState (v_paths r) []) with
      | Done (n', _) =>
          n' <> v_node r
          /\ map (fun c => (path c, map path (nodes c))) (nodes (v_node r))
             = [("A/L", []); ("A/M", []); ("A/f.txt", []);
                ("A/sub", ["A/sub/g.go"; "A/sub/h.py"]); ("A/bad", [])]
          /\ map (fun c => (path c, map path (nodes c))) (nodes n')
             = [("A/L", []); ("A/M", ["B/x"]); ("A/f.txt", []);
                ("A/sub", ["A/sub/g.go"; "A/sub/h.py"]); ("A/bad", [])]
      | _ => False
      end
  | None => False
  end.
Proof.
  vm_compute. split; [|split; reflexivity].
  intros Heq. discriminate Heq.
Qed.

(** C8 (amended): [print] never changes the metadata, the path, the depth
    or the error of a node, at any depth of the tree: the tree it returns
    is [rendered_as] the tree it was given, node for node, the children
    in their order, except below a symbolic link that it follows, whose
    children are replaced by those of the tree that [Visit] builds from
    the target, rendered in turn.  With follow-symlinks off, or on a tree
    that holds no symbolic link, it leaves the whole tree and the visited
    map unchanged. *)
Theorem print_leaves_tree_unchanged (w : World) (opts : Options) (fuel : nat)
    (indent : string) (node n' : Node) (st st' : RState)
    (Hrun : print w opts fuel indent node st = Done (n', st')) :
  (info n' = info node /\ path n' = path node /\ depth n' = depth node
   /\ err n' = err node)
  /\ (FollowLink opts = false \/ no_links node = true ->
      n' = node /\ vpaths st' = vpaths st)
  /\ rendered_as w opts node n'
  /\ (is_link node = false \/ FollowLink opts = false ->
      Forall2 (rendered_as w opts) (nodes node) (nodes n'))
  /\ (forall fi tfi p,
        FollowLink opts = true -> err node = None -> info node = Some fi ->
        has_mode (Mode fi) ModeSymlink = true ->
        stat_info opts (link_destination w (path node)) = Some tfi ->
        IsDir tfi = true ->
        filepath_Abs w (link_destination w (path node)) = Some p ->
        (is_Some (vpaths st !! filepath_Clean w p) ->
         Forall2 (rendered_as w opts) (nodes node) (nodes n'))
        /\ (vpaths st !! filepath_Clean w p = None ->
            exists fuel' r,
              Visit w opts fuel' (followed_node tfi (link_destination w (path node)))
                (vpaths st) = Some r
              /\ Forall2 (rendered_as w opts) (nodes (v_node r)) (nodes n'))).
Proof.
  split; [|split; [|split; [|split]]].
  - rewrite (PrintFacts.print_fields w opts fuel indent node st n' st' Hrun).
    repeat split.
  - intros Hcond.
    exact (PrintFacts.print_frame w opts fuel indent node st n' st' Hcond Hrun).
  - exact (RenderedFacts.print_rendered w opts fuel indent node st n' st' Hrun).
  - intros Hcond.
    exact (RenderedFacts.print_kept_children w opts fuel indent node st n' st'
             Hrun Hcond).
  - intros fi tfi p Hon He Hfi Hsym Hsi Hdir Habs.
    exact (RenderedFacts.print_link_children w opts fuel indent node st n' st'
             fi tfi p Hrun Hon He Hfi Hsym Hsi Hdir Habs).
Qed.

Lemma print_leaves_tree_unchanged_witness :
  match Demo.visited_root Demo.world Demo.plain with
  | Some r =>
      exists st', Print Demo.world Demo.plain 20 (v_node r) (mkRState (v_paths r) [])
                  = Done (v_node r, st')
                  /\ vpaths st' = v_paths r
  | None => False
  end.
Proof.
  destruct (Demo.visited_root Demo.world Demo.plain) as [r|] eqn:Hr;
    [|vm_compute in Hr; discriminate Hr].
  destruct (Print Demo.world Demo.plain 20 (v_node r) (mkRState (v_paths r) []))
    as [[n' st']| |] eqn:Hp.
  - destruct (proj1 (proj2 (print_leaves_tree_unchanged Demo.world Demo.plain 20 ""
                              (v_node r) n' (mkRState (v_paths r) []) st' Hp))
                (or_introl eq_refl)) as [-> Hv].
    exists st'. split; [reflexivity|exact Hv].
  - exfalso. unfold Demo.visited_root in Hr.
    revert Hp. injection Hr as <-. vm_compute. discriminate.
  - exfalso. unfold Demo.visited_root in Hr.
    revert Hp. injection Hr as <-. vm_compute. discriminate.
Defined.

(** ** The trees [Visit] builds *)

Module TreeFacts.

Lemma preorder_unfold n : preorder n = n :: concat (map preorder (nodes n)).
Proof. destruct n; reflexivity. Qed.

Lemma Forall_preorder (P : Node -> Prop) n :
  Forall P (preorder n)
  <-> P n /\ Forall (fun c => Forall P (preorder c)) (nodes n).
Proof.
  rewrite preorder_unfold, Forall_cons, Forall_concat, Forall_fmap.
  reflexivity.
Qed.

(** Induction on a tree all of whose nodes satisfy [P]. *)
Lemma preorder_induction (P Q : Node -> Prop) :
  (forall n, P n -> Forall (fun c => Forall P (preorder c)) (nodes n) ->
             Forall Q (nodes n) -> Q n) ->
  forall n, Forall P (preorder n) -> Q n.
Proof.
  intros Hstep. apply (VisitFacts.Node_induction
                         (fun n => Forall P (preorder n) -> Q n)).
  intros i p d e l IH Hall. apply Forall_preorder in Hall as [Hn Hkids].
  apply Hstep; [exact Hn|exact Hkids|]. cbn [nodes] in *. clear Hn.
  induction l as [|c l IHl]; [constructor|].
  apply Forall_cons in IH as [IHc IHr]. apply Forall_cons in Hkids as [Hc Hr].
  constructor; [exact (IHc Hc)|exact (IHl IHr Hr)].
Qed.

Section Sound.
Context (w : World) (opts : Options).

Lemma child_unvisited ppath pdepth name :
  unvisited_node opts (child_node w ppath pdepth name).
Proof. repeat split. intros fi Hfi. discriminate Hfi. Qed.

Lemma leaf_visited m :
  nodes m = [] ->
  (err m = None -> is_Some (info m)) ->
  (forall fi, info m = Some fi -> Stat (fs opts) (path m) = inl fi) ->
  Forall (visited_node w opts) (preorder m).
Proof.
  intros Hn He Hi. apply Forall_preorder. rewrite Hn. split; [|constructor].
  unfold visited_node. rewrite Hn.
  split; [reflexivity|]. split; [exact He|]. split; [exact Hi|].
  split; [intros H; congruence|]. split; [reflexivity|constructor].
Qed.

(** Every node of the tree [Visit] builds is a [visited_node]. *)
Lemma Visit_sound :
  sort_permutes w ->
  forall fuel node vp r,
    unvisited_node opts node ->
    Visit w opts fuel node vp = Some r ->
    Forall (visited_node w opts) (preorder (v_node r)).
Proof.
  intros Hp. induction fuel as [|fuel IH]; intros node vp r (Hnodes & Herr & Hinfo) Hrun;
    [discriminate|].
  rewrite VisitFacts.Visit_S in Hrun. cbv zeta in Hrun.
  destruct (Stat (fs opts) (path node)) as [fi|e] eqn:Hstat.
  2:{ injection Hrun as <-. cbn [v_node]. apply leaf_visited; cbn.
      - exact Hnodes.
      - intros H; discriminate H.
      - intros fi Hfi. specialize (Hinfo fi Hfi). discriminate Hinfo. }
  destruct (IsDir fi) eqn:Hdir; cbn [negb] in Hrun.
  2:{ injection Hrun as <-. cbn [v_node]. apply leaf_visited; cbn.
      - exact Hnodes.
      - eauto.
      - intros fi' [= <-]. exact Hstat. }
  destruct ((0 <? DeepLevel opts) && (DeepLevel opts <=? depth (set_info fi node)))
    eqn:Hdeep.
  { injection Hrun as <-. cbn [v_node]. apply leaf_visited; cbn.
    - exact Hnodes.
    - eauto.
    - intros fi' [= <-]. exact Hstat. }
  destruct (ReadDir (fs opts) (path (set_info fi node))) as [names|e] eqn:Hread.
  2:{ injection Hrun as <-. cbn [v_node]. apply leaf_visited; cbn.
      - exact Hnodes.
      - intros H; discriminate H.
      - intros fi' [= <-]. exact Hstat. }
  destruct (visit_names w opts (Visit w opts fuel) _ _ names [] _ 0 0)
    as [[[[l vp'] d] f]|] eqn:Hloop; [|discriminate].
  injection Hrun as <-. cbn [v_node].
  destruct (VisitFacts.visit_names_children w opts _ _ _ _ _ _ _ _ _ Hloop)
    as (l' & Hl' & HF).
  cbn in Hl'. subst l'.
  pose proof (VisitFacts.arranged_perm w opts l (set_info fi node) Hp) as Hperm.
  apply Forall_preorder. split.
  - unfold visited_node.
    rewrite VisitFacts.arranged_err, VisitFacts.arranged_info,
      VisitFacts.arranged_path, VisitFacts.arranged_depth.
    cbn [err info path depth set_info set_nodes].
    split; [intros H; congruence|].
    split; [eauto|].
    split; [intros fi' [= <-]; exact Hstat|].
    split.
    { intros _. split; [|exact Herr]. unfold node_IsDir.
      rewrite VisitFacts.arranged_info. cbn. exact Hdir. }
    split.
    { intros H1 H2. exfalso. cbn in Hdeep.
      apply Z.ltb_lt in H1. apply Z.leb_le in H2. rewrite H1, H2 in Hdeep.
      discriminate Hdeep. }
    apply (Permutation_Forall (Permutation_sym Hperm)).
    eapply Forall_impl; [exact HF|].
    intros c (name & vp0 & rc & Hin & Hh & Hrc & <- & Hkeep).
    destruct (VisitFacts.Visit_path w opts _ _ _ _ Hrc) as [Hpath Hdepth].
    split; [exact Hdepth|].
    split; [exists names, name; repeat split; assumption|].
    intros Hdo. unfold discarded in Hkeep. unfold is_plain_file, node_IsDir in *.
    destruct (err (v_node rc)); [reflexivity|].
    rewrite bool_decide_eq_true_2 in * by reflexivity. cbn [andb] in *.
    destruct (info (v_node rc)) as [fi'|]; [|reflexivity].
    destruct (IsDir fi'); [reflexivity|]. cbn [negb] in *.
    rewrite Hdo in Hkeep. discriminate Hkeep.
  - apply (Permutation_Forall (Permutation_sym Hperm)).
    eapply Forall_impl; [exact HF|].
    intros c (name & vp0 & rc & _ & _ & Hrc & <- & _).
    exact (IH _ _ _ (child_unvisited _ _ name) Hrc).
Qed.

End Sound.
End TreeFacts.

(** ** Further properties of [Visit] *)

Module VisitTreeFacts.
Section Tree.
Context (w : World) (opts : Options).

Lemma not_plain_count c :
  Forall (fun m => is_plain_file m = false) (preorder c) -> count_files c = 0.
Proof.
  apply (TreeFacts.preorder_induction
           (fun m => is_plain_file m = false) (fun m => count_files m = 0)).
  intros n Hn _ Hkids. rewrite VisitFacts.count_files_unfold.
  unfold is_plain_file in Hn.
  destruct (err n); [reflexivity|]. destruct (info n) as [fi|]; [|reflexivity].
  rewrite bool_decide_eq_true_2 in Hn by reflexivity. cbn in Hn.
  destruct (IsDir fi); [|discriminate Hn].
  clear Hn. induction Hkids as [|c' l Hc _ IHl]; [reflexivity|].
  cbn [map]. rewrite VisitFacts.sumZ_cons, Hc, IHl. reflexivity.
Qed.

Lemma dirs_only_below n :
  DirsOnly opts = true ->
  Forall (visited_node w opts) (preorder n) ->
  Forall (fun c => Forall (fun m => is_plain_file m = false) (preorder c)) (nodes n).
Proof.
  intros Hdo. revert n.
  apply (TreeFacts.preorder_induction (visited_node w opts)
           (fun n => Forall (fun c => Forall (fun m => is_plain_file m = false)
                                        (preorder c)) (nodes n))).
  intros n (_ & _ & _ & _ & _ & Hkids) _ IH.
  apply Forall_forall. intros c Hc.
  apply TreeFacts.Forall_preorder. split.
  - rewrite Forall_forall in Hkids. destruct (Hkids c Hc) as (_ & _ & Hplain).
    exact (Hplain Hdo).
  - rewrite Forall_forall in IH. exact (IH c Hc).
Qed.

Lemma depth_bounds k n :
  DeepLevel opts = k -> 0 < k ->
  Forall (visited_node w opts) (preorder n) ->
  depth n <= k ->
  Forall (fun m => depth n <= depth m <= k) (preorder n).
Proof.
  intros Hk Hpos. revert n.
  apply (TreeFacts.preorder_induction (visited_node w opts)
           (fun n => depth n <= k ->
                     Forall (fun m => depth n <= depth m <= k) (preorder n))).
  intros n (_ & _ & _ & _ & Hlim & Hkids) _ IH Hle.
  apply TreeFacts.Forall_preorder. split; [lia|].
  destruct (Z.eq_dec (depth n) k) as [Heq|Hne].
  { rewrite Hlim by lia. constructor. }
  rewrite Forall_forall in Hkids, IH. apply Forall_forall. intros c Hc.
  destruct (Hkids c Hc) as (Hd & _).
  eapply Forall_impl; [apply (IH c Hc); lia|].
  cbn. intros m Hm. lia.
Qed.

End Tree.
End VisitTreeFacts.

(** X1: in the tree that [Visit] builds from a fresh node, every node
    with an error has no children; every node without an error carries
    the metadata that [Stat] gives at its own path; and only a directory
    without an error has children. *)
Theorem Visit_tree_shape (w : World) (opts : Options) (fuel : nat)
    (node : Node) (vp : gmap string bool) (r : Visited)
    (Hsort : sort_permutes w)
    (Hnew : unvisited_node opts node)
    (Hrun : Visit w opts fuel node vp = Some r) :
  Forall (fun m =>
            (err m <> None -> nodes m = [])
            /\ (err m = None ->
                exists fi, info m = Some fi /\ Stat (fs opts) (path m) = inl fi)
            /\ (nodes m <> [] -> node_IsDir m = true /\ err m = None))
    (preorder (v_node r)).
Proof.
  eapply Forall_impl;
    [exact (TreeFacts.Visit_sound w opts Hsort fuel node vp r Hnew Hrun)|].
  intros m (He & Hi & Hs & Hd & _). cbn.
  split; [exact He|]. split; [|exact Hd].
  intros Hnone. destruct (Hi Hnone) as [fi Hfi]. exists fi.
  split; [exact Hfi|exact (Hs fi Hfi)].
Qed.

Lemma Visit_tree_shape_witness :
  exists r, Visit Demo.world Demo.plain 5 (New "A") ∅ = Some r
    /\ Forall (fun m =>
            (err m <> None -> nodes m = [])
            /\ (err m = None ->
                exists fi, info m = Some fi
                           /\ Stat (fs Demo.plain) (path m) = inl fi)
            /\ (nodes m <> [] -> node_IsDir m = true /\ err m = None))
         (preorder (v_node r)).
Proof.
  destruct (Visit Demo.world Demo.plain 5 (New "A") ∅) as [r|] eqn:Hrun;
    [|vm_compute in Hrun; discriminate Hrun].
  exists r. split; [reflexivity|].
  refine (Visit_tree_shape Demo.world Demo.plain 5 (New "A") ∅ r
            DemoFacts.world_permutes _ Hrun).
  repeat split. intros fi Hfi. discriminate Hfi.
Defined.

(** X2: in the tree that [Visit] builds, every child is one level below
    its parent and sits at the path that [filepath.Join] makes of the
    parent's path and a name of the parent's directory listing; that
    name is not a dot-name unless [All] is set. *)
Theorem Visit_children_paths (w : World) (opts : Options) (fuel : nat)
    (node : Node) (vp : gmap string bool) (r : Visited)
    (Hsort : sort_permutes w)
    (Hnew : unvisited_node opts node)
    (Hrun : Visit w opts fuel node vp = Some r) :
  forall m c, In m (preorder (v_node r)) -> In c (nodes m) ->
    depth c = depth m + 1
    /\ exists names name,
         ReadDir (fs opts) (path m) = inl names /\ In name names
         /\ path c = filepath_Join w (path m) name
         /\ (All opts = false -> Text.HasPrefix name "." = false).
Proof.
  intros m c Hm Hc.
  pose proof (TreeFacts.Visit_sound w opts Hsort fuel node vp r Hnew Hrun) as Hall.
  rewrite List.Forall_forall in Hall.
  destruct (Hall m Hm) as (_ & _ & _ & _ & _ & Hkids).
  rewrite List.Forall_forall in Hkids.
  destruct (Hkids c Hc) as (Hd & (names & name & Hread & Hin & Hh & Hp) & _).
  split; [exact Hd|]. exists names, name.
  repeat split; try assumption.
  intros Hall'. unfold hidden in Hh. rewrite Hall' in Hh. exact Hh.
Qed.

Lemma Visit_children_paths_witness :
  exists r, Visit Demo.world Demo.plain 5 (New "A") ∅ = Some r
    /\ forall m c, In m (preorder (v_node r)) -> In c (nodes m) ->
         depth c = depth m + 1
         /\ exists names name,
              ReadDir (fs Demo.plain) (path m) = inl names /\ In name names
              /\ path c = filepath_Join Demo.world (path m) name
              /\ (All Demo.plain = false -> Text.HasPrefix name "." = false).
Proof.
  destruct (Visit Demo.world Demo.plain 5 (New "A") ∅) as [r|] eqn:Hrun;
    [|vm_compute in Hrun; discriminate Hrun].
  exists r. split; [reflexivity|].
  refine (Visit_children_paths Demo.world Demo.plain 5 (New "A") ∅ r
            DemoFacts.world_permutes _ Hrun).
  repeat split. intros fi Hfi. discriminate Hfi.
Defined.

(** X3: with a depth limit [DeepLevel = k > 0] and a start node no deeper
    than [k], no node of the tree that [Visit] builds is deeper than [k]
    or higher than the start node, and a node at depth [k] has no
    children: a directory at the limit is kept but not listed. *)
Theorem Visit_depth_limit (w : World) (opts : Options) (fuel : nat)
    (node : Node) (vp : gmap string bool) (r : Visited)
    (Hsort : sort_permutes w)
    (Hnew : unvisited_node opts node)
    (Hpos : 0 < DeepLevel opts) (Hstart : depth node <= DeepLevel opts)
    (Hrun : Visit w opts fuel node vp = Some r) :
  Forall (fun m => depth node <= depth m <= DeepLevel opts
                   /\ (depth m = DeepLevel opts -> nodes m = []))
    (preorder (v_node r)).
Proof.
  pose proof (TreeFacts.Visit_sound w opts Hsort fuel node vp r Hnew Hrun) as Hall.
  destruct (VisitFacts.Visit_path w opts _ _ _ _ Hrun) as [_ Hd].
  assert (Hb : Forall (fun m => depth (v_node r) <= depth m <= DeepLevel opts)
                 (preorder (v_node r))).
  { apply (VisitTreeFacts.depth_bounds w opts (DeepLevel opts));
      [reflexivity|exact Hpos|exact Hall|lia]. }
  rewrite Hd in Hb. rewrite Forall_forall in Hall, Hb. apply Forall_forall.
  intros m Hm. split; [exact (Hb m Hm)|].
  destruct (Hall m Hm) as (_ & _ & _ & _ & Hlim & _).
  intros Heq. apply Hlim; lia.
Qed.

Lemma Visit_depth_limit_witness :
  exists r, Visit Demo.world (Sample.with_depth 1 Demo.plain) 5 (New "A") ∅ = Some r
    /\ Forall (fun m => 0 <= depth m <= 1 /\ (depth m = 1 -> nodes m = []))
         (preorder (v_node r)).
Proof.
  destruct (Visit Demo.world (Sample.with_depth 1 Demo.plain) 5 (New "A") ∅)
    as [r|] eqn:Hrun; [|vm_compute in Hrun; discriminate Hrun].
  exists r. split; [reflexivity|].
  refine (Visit_depth_limit Demo.world (Sample.with_depth 1 Demo.plain) 5
            (New "A") ∅ r DemoFacts.world_permutes _ _ _ Hrun).
  - repeat split. intros fi Hfi. discriminate Hfi.
  - reflexivity.
  - discriminate.
Defined.

(** X4: [Visit] writes the visited map and never reads it: started with
    another map it builds the same tree and the same two counts, and
    every key of the map it was given is still in the map it returns. *)
Theorem Visit_ignores_visited_map (w : World) (opts : Options) (fuel : nat)
    (node : Node) (vp vp' : gmap string bool) (r : Visited)
    (Hrun : Visit w opts fuel node vp = Some r) :
  dom vp ⊆ dom (v_paths r)
  /\ exists r', Visit w opts fuel node vp' = Some r'
       /\ v_node r' = v_node r /\ v_dirs r' = v_dirs r /\ v_files r' = v_files r.
Proof.
  split; [exact (VisitFacts.Visit_vpaths_grow w opts fuel node vp r Hrun)|].
  exact (VisitFacts.Visit_indep w opts fuel node vp vp' r Hrun).
Qed.

Lemma Visit_ignores_visited_map_witness :
  exists r, Visit Demo.world Demo.plain 5 (New "A") ∅ = Some r
    /\ exists r', Visit Demo.world Demo.plain 5 (New "A") {[ "/cwd/A" := true ]}
                  = Some r'
         /\ v_node r' = v_node r /\ v_dirs r' = v_dirs r /\ v_files r' = v_files r.
Proof.
  destruct (Visit Demo.world Demo.plain 5 (New "A") ∅) as [r|] eqn:Hrun;
    [|vm_compute in Hrun; discriminate Hrun].
  exists r. split; [reflexivity|].
  exact (proj2 (Visit_ignores_visited_map Demo.world Demo.plain 5 (New "A") ∅
                  {[ "/cwd/A" := true ]} r Hrun)).
Defined.

(** X5: with [DirsOnly] set, no node below the root of the tree that
    [Visit] builds is a plain file, at any depth, and the file count is 0
    unless the start node itself is a plain file, which counts 1. *)
Theorem Visit_dirs_only (w : World) (opts : Options) (fuel : nat)
    (node : Node) (vp : gmap string bool) (r : Visited)
    (Hsort : sort_permutes w)
    (Hnew : unvisited_node opts node)
    (Hdo : DirsOnly opts = true)
    (Hrun : Visit w opts fuel node vp = Some r) :
  Forall (fun m => is_plain_file m = false)
    (concat (map preorder (nodes (v_node r))))
  /\ v_files r = (if is_plain_file (v_node r) then 1 else 0).
Proof.
  pose proof (TreeFacts.Visit_sound w opts Hsort fuel node vp r Hnew Hrun) as Hall.
  pose proof (VisitTreeFacts.dirs_only_below w opts _ Hdo Hall) as Hbelow.
  split; [rewrite Forall_concat, Forall_fmap; exact Hbelow|].
  destruct Hnew as (Hn & He & _).
  destruct (VisitFacts.Visit_counts_tree w opts Hsort fuel node vp r Hn He Hrun)
    as [_ ->].
  rewrite VisitFacts.count_files_unfold. unfold is_plain_file.
  destruct (err (v_node r)); [reflexivity|].
  rewrite bool_decide_eq_true_2 by reflexivity. cbn [andb].
  destruct (info (v_node r)) as [fi|]; [|reflexivity].
  destruct (IsDir fi); [|reflexivity]. cbn [negb].
  induction Hbelow as [|c l Hc _ IHl]; [reflexivity|].
  cbn [map]. rewrite VisitFacts.sumZ_cons, IHl.
  rewrite (VisitTreeFacts.not_plain_count c Hc). reflexivity.
Qed.

Lemma Visit_dirs_only_witness :
  exists r, Visit Demo.world (Sample.with_dirs_only Demo.plain) 5 (New "A") ∅ = Some r
    /\ Forall (fun m => is_plain_file m = false)
         (concat (map preorder (nodes (v_node r))))
    /\ v_files r = (if is_plain_file (v_node r) then 1 else 0).
Proof.
  destruct (Visit Demo.world (Sample.with_dirs_only Demo.plain) 5 (New "A") ∅)
    as [r|] eqn:Hrun; [|vm_compute in Hrun; discriminate Hrun].
  exists r. split; [reflexivity|].
  refine (Visit_dirs_only Demo.world (Sample.with_dirs_only Demo.plain) 5
            (New "A") ∅ r DemoFacts.world_permutes _ eq_refl Hrun).
  repeat split. intros fi Hfi. discriminate Hfi.
Defined.

Module CountFacts.
Section Count.
Context (w : World) (opts : Options).

Lemma counts_add_up n :
  Forall (visited_node w opts) (preorder n) ->
  count_dirs n + count_files n
  = Z.of_nat (length (List.filter no_error (preorder n))).
Proof.
  revert n.
  apply (TreeFacts.preorder_induction (visited_node w opts)
           (fun n => count_dirs n + count_files n
                     = Z.of_nat (length (List.filter no_error (preorder n))))).
  intros n (Hleaf & Hinfo & _ & Hdir & _) _ IH.
  rewrite VisitFacts.count_dirs_unfold, VisitFacts.count_files_unfold,
    TreeFacts.preorder_unfold.
  cbn [List.filter]. unfold no_error at 1.
  destruct (err n) as [e|] eqn:He.
  { rewrite (Hleaf ltac:(discriminate)). reflexivity. }
  rewrite bool_decide_eq_true_2 by reflexivity.
  destruct (Hinfo eq_refl) as [fi Hfi]. rewrite Hfi.
  destruct (IsDir fi) eqn:Hd.
  - cbn [length]. rewrite Nat2Z.inj_succ.
    assert (Hsum : sumZ (map count_dirs (nodes n)) + sumZ (map count_files (nodes n))
                   = Z.of_nat (length (List.filter no_error
                                         (concat (map preorder (nodes n)))))).
    { clear Hleaf Hinfo Hdir. induction IH as [|c l Hc _ IHl]; [reflexivity|].
      cbn [map concat]. rewrite !VisitFacts.sumZ_cons, List.filter_app, length_app,
        Nat2Z.inj_add. lia. }
    lia.
  - assert (Hnone : nodes n = []).
    { destruct (nodes n) eqn:Hn; [reflexivity|].
      destruct Hdir as [Hdir _]; [discriminate|].
      unfold node_IsDir in Hdir. rewrite Hfi in Hdir. congruence. }
    rewrite Hnone. reflexivity.
Qed.

End Count.
End CountFacts.

(** X17: the two counts that [Visit] returns add up to the number of
    nodes without an error in the tree it has built, the start node
    among them: a start directory counts as one directory. *)
Theorem Visit_counts_add_up (w : World) (opts : Options) (fuel : nat)
    (node : Node) (vp : gmap string bool) (r : Visited)
    (Hsort : sort_permutes w)
    (Hnew : unvisited_node opts node)
    (Hrun : Visit w opts fuel node vp = Some r) :
  v_dirs r + v_files r
  = Z.of_nat (length (List.filter no_error (preorder (v_node r)))).
Proof.
  pose proof (TreeFacts.Visit_sound w opts Hsort fuel node vp r Hnew Hrun) as Hall.
  destruct Hnew as (Hn & He & _).
  destruct (VisitFacts.Visit_counts_tree w opts Hsort fuel node vp r Hn He Hrun)
    as [-> ->].
  exact (CountFacts.counts_add_up w opts _ Hall).
Qed.

Lemma Visit_counts_add_up_witness :
  exists r, Visit Demo.world Demo.plain 5 (New "A") ∅ = Some r
    /\ v_dirs r + v_files r = 7
    /\ v_dirs r + v_files r
       = Z.of_nat (length (List.filter no_error (preorder (v_node r)))).
Proof.
  destruct (Visit Demo.world Demo.plain 5 (New "A") ∅) as [r|] eqn:Hrun;
    [|vm_compute in Hrun; discriminate Hrun].
  exists r. split; [reflexivity|]. split.
  - vm_compute in Hrun. injection Hrun as <-. reflexivity.
  - refine (Visit_counts_add_up Demo.world Demo.plain 5 (New "A") ∅ r
              DemoFacts.world_permutes _ Hrun).
    repeat split. intros fi Hfi. discriminate Hfi.
Defined.

(** ** The recursive size and the property columns *)

Module SizeFacts.

Lemma wrap64_add_l a b : Bytes.wrap64 (Bytes.wrap64 a + b) = Bytes.wrap64 (a + b).
Proof.
  unfold Bytes.wrap64. f_equal.
  replace ((a + 2 ^ 63) mod 2 ^ 64 - 2 ^ 63 + b + 2 ^ 63)
    with ((a + 2 ^ 63) mod 2 ^ 64 + b) by lia.
  rewrite Zplus_mod_idemp_l. f_equal. lia.
Qed.

Lemma wrap64_add_r a b : Bytes.wrap64 (a + Bytes.wrap64 b) = Bytes.wrap64 (a + b).
Proof. rewrite Z.add_comm, wrap64_add_l. f_equal. lia. Qed.

Lemma wrap64_idem z : Bytes.wrap64 (Bytes.wrap64 z) = Bytes.wrap64 z.
Proof.
  pose proof (wrap64_add_l z 0) as H. rewrite !Z.add_0_r in H. exact H.
Qed.

Lemma wrap64_range z : Bytes.int64_range z -> Bytes.wrap64 z = z.
Proof.
  unfold Bytes.int64_range, Bytes.wrap64. intros H.
  rewrite Z.mod_small by lia. lia.
Qed.

Section Size.
Context (w : World) (opts : Options).

Lemma dirRecursiveSize_tree n :
  Forall (visited_node w opts) (preorder n) ->
  dirRecursiveSize n = Some (Bytes.wrap64 (sumZ (map node_size (files_below n)))).
Proof.
  revert n.
  apply (TreeFacts.preorder_induction (visited_node w opts)
           (fun n => dirRecursiveSize n
                     = Some (Bytes.wrap64 (sumZ (map node_size (files_below n)))))).
  intros [i p d e l] _ Hshape IH. unfold files_below. cbn [nodes] in *.
  cbn [dirRecursiveSize].
  match goal with |- ?f l 0 = _ => set (loop := f) end.
  assert (Hloop : forall size, Bytes.wrap64 size = size ->
            loop l size
            = Some (Bytes.wrap64
                      (size + sumZ (map node_size
                                      (List.filter is_plain_file
                                         (concat (map preorder l))))))).
  2:{ rewrite (Hloop 0 eq_refl). reflexivity. }
  induction l as [|c l IHl]; intros size Hsize.
  { cbn. rewrite Z.add_0_r, Hsize. reflexivity. }
  apply Forall_cons in Hshape as [Hc Hl]. apply Forall_cons in IH as [IHc IH].
  specialize (IHl Hl IH).
  apply TreeFacts.Forall_preorder in Hc as [(Hleaf & Hinfo & _ & Hdir & _) _].
  cbn [concat map]. rewrite List.filter_app, map_app, VisitFacts.sumZ_app.
  rewrite (TreeFacts.preorder_unfold c).
  cbn [loop List.filter]. fold loop. unfold is_plain_file at 1.
  destruct (err c) as [e'|] eqn:He.
  { rewrite (Hleaf ltac:(discriminate)). cbn.
    rewrite (IHl size Hsize). reflexivity. }
  destruct (Hinfo eq_refl) as [fi Hfi]. rewrite Hfi.
  rewrite bool_decide_eq_true_2 by reflexivity. cbn [andb].
  destruct (IsDir fi) eqn:Hd; cbn [negb].
  - rewrite IHc. rewrite IHl by apply wrap64_idem.
    unfold files_below. rewrite wrap64_add_r, wrap64_add_l.
    f_equal. f_equal. lia.
  - assert (Hnone : nodes c = []).
    { destruct (nodes c) eqn:Hn; [reflexivity|].
      destruct Hdir as [Hdir _]; [discriminate|].
      unfold node_IsDir in Hdir. rewrite Hfi in Hdir. congruence. }
    rewrite Hnone. cbn [map concat List.filter app].
    rewrite IHl by apply wrap64_idem.
    rewrite wrap64_add_l. f_equal. f_equal.
    cbn [map]. rewrite VisitFacts.sumZ_cons.
    unfold node_size. rewrite Hfi. cbn. lia.
Qed.

End Size.
End SizeFacts.

Module SubtreeFacts.

(** Every subtree of a tree whose nodes satisfy [P] is such a tree. *)
Lemma subtrees (P : Node -> Prop) n :
  Forall P (preorder n) -> Forall (fun m => Forall P (preorder m)) (preorder n).
Proof.
  apply (TreeFacts.preorder_induction P
           (fun n => Forall (fun m => Forall P (preorder m)) (preorder n))).
  intros m Hm Hkids IH. apply TreeFacts.Forall_preorder. split.
  - apply TreeFacts.Forall_preorder. split; assumption.
  - exact IH.
Qed.

End SubtreeFacts.

(** X6: on every node of a tree that [Visit] has built, [dirRecursiveSize]
    returns, and what it returns is the sum, with the wrap-around of
    [int64], of the sizes of the plain files below the node at any depth:
    the sizes of the directories themselves and the entries with an error
    do not count. *)
Theorem dirRecursiveSize_sum (w : World) (opts : Options) (fuel : nat)
    (node : Node) (vp : gmap string bool) (r : Visited)
    (Hsort : sort_permutes w)
    (Hnew : unvisited_node opts node)
    (Hrun : Visit w opts fuel node vp = Some r) :
  Forall (fun m =>
            dirRecursiveSize m
            = Some (Bytes.wrap64 (sumZ (map node_size (files_below m))))
            /\ (Bytes.int64_range (sumZ (map node_size (files_below m))) ->
                dirRecursiveSize m = Some (sumZ (map node_size (files_below m)))))
    (preorder (v_node r)).
Proof.
  pose proof (TreeFacts.Visit_sound w opts Hsort fuel node vp r Hnew Hrun) as Hall.
  eapply Forall_impl; [exact (SubtreeFacts.subtrees _ _ Hall)|].
  intros m Hm. cbn.
  pose proof (SizeFacts.dirRecursiveSize_tree w opts m Hm) as Hsum.
  split; [exact Hsum|].
  intros Hrange. rewrite Hsum, (SizeFacts.wrap64_range _ Hrange). reflexivity.
Qed.

Lemma dirRecursiveSize_sum_witness :
  exists r, Visit Demo.world Demo.plain 5 (New "A") ∅ = Some r
    /\ sumZ (map node_size (files_below (v_node r))) = 1568
    /\ Forall (fun m =>
            dirRecursiveSize m
            = Some (Bytes.wrap64 (sumZ (map node_size (files_below m))))
            /\ (Bytes.int64_range (sumZ (map node_size (files_below m))) ->
                dirRecursiveSize m = Some (sumZ (map node_size (files_below m)))))
         (preorder (v_node r)).
Proof.
  destruct (Visit Demo.world Demo.plain 5 (New "A") ∅) as [r|] eqn:Hrun;
    [|vm_compute in Hrun; discriminate Hrun].
  exists r. split; [reflexivity|]. split.
  - vm_compute in Hrun. injection Hrun as <-. vm_compute. reflexivity.
  - refine (dirRecursiveSize_sum Demo.world Demo.plain 5 (New "A") ∅ r
              DemoFacts.world_permutes _ Hrun).
    repeat split. intros fi Hfi. discriminate Hfi.
Defined.

(** X7: the property columns of a node that is not a directory panic
    exactly when [Sys()] is not a pointer to [Stat_t], or is a nil
    pointer while one of the inode, device, owner or group columns is
    asked for; the mode, size and time columns never read [Sys()]. *)
Theorem file_props_panics_iff (w : World) (opts : Options) (fi : FileInfo) :
  file_props w opts fi = None
  <-> Sys fi = SysOther
      \/ (Sys fi = SysNilStat
          /\ Inodes opts || Device opts || ShowUid opts || ShowGid opts = true).
Proof.
  unfold file_props, stat_assert.
  destruct (Sys fi) as [s| |];
    destruct (Inodes opts), (Device opts), (ShowUid opts), (ShowGid opts);
    cbn; try destruct (user_LookupId w (Text.Itoa (Uid s)));
    split; intros H; try discriminate H; try reflexivity;
    try (left; reflexivity); try (right; split; reflexivity);
    destruct H as [H|[H H']]; discriminate.
Qed.

(** X8: when [Sys()] is a [Stat_t], a node that is not a directory gets
    one column for each column option that is set, the two size options
    sharing one; a directory gets the size column only, whatever the
    other column options are, and it holds the recursive size, not the
    size of the directory itself. *)
Theorem property_columns (w : World) (opts : Options) (node : Node)
    (fi : FileInfo) (s : Stat_t) (Hsys : Sys fi = SysStat s) :
  (exists props, file_props w opts fi = Some props
                 /\ length props = enabled_columns opts)
  /\ (forall rsize, dirRecursiveSize node = Some rsize ->
        dir_props opts node
        = Some (if ByteSize opts || UnitSize opts
                then [size_column opts rsize] else [])).
Proof.
  split.
  - unfold file_props, stat_assert, enabled_columns. rewrite Hsys.
    destruct (Inodes opts), (Device opts), (FileMode opts), (ShowUid opts),
      (ShowGid opts), (ByteSize opts || UnitSize opts), (LastMod opts);
      cbn; destruct (user_LookupId w (Text.Itoa (Uid s)));
      eexists; split; reflexivity.
  - intros rsize Hsize. unfold dir_props. rewrite Hsize.
    destruct (ByteSize opts || UnitSize opts); reflexivity.
Qed.

Lemma property_columns_witness :
  (exists props,
     file_props Demo.world (Sample.with_columns Demo.plain)
       (mkFileInfo "x" 1536 420 0 false Demo.st0)
     = Some props /\ length props = 5%nat)
  /\ dir_props (Sample.with_columns Demo.plain) (Demo.subdir "B")
     = Some [size_column (Sample.with_columns Demo.plain) 0].
Proof.
  pose proof (property_columns Demo.world (Sample.with_columns Demo.plain)
                (Demo.subdir "B") (mkFileInfo "x" 1536 420 0 false Demo.st0)
                (mkStat 7 1 1000 100) eq_refl) as [Hfile Hdir].
  split; [exact Hfile|exact (Hdir 0 eq_refl)].
Defined.

(** ** What [print] writes when no link is followed *)

Module WrittenFacts.
Import PrintFacts.

Lemma last_char_append s t : t <> "" -> Text.last_char (s +:+ t) = Text.last_char t.
Proof.
  intros Ht. induction s as [|c s IH]; [reflexivity|].
  rewrite TextFacts.append_cons. cbn [Text.last_char]. rewrite IH.
  destruct (s +:+ t) eqn:E; [|reflexivity].
  destruct s; [rewrite TextFacts.append_nil in E; congruence|discriminate E].
Qed.

Lemma last_char_end s t c :
  Text.last_char t = Some c -> Text.last_char (s +:+ t) = Some c.
Proof.
  intros Ht. rewrite last_char_append; [exact Ht|].
  intros ->. discriminate Ht.
Qed.

Lemma is_line_newline k s : is_line (k, s +:+ newline) = true.
Proof.
  unfold is_line. cbn [snd]. rewrite (last_char_end s newline (ascii_of_nat 10) eq_refl).
  reflexivity.
Qed.

Section Written.
Context (w : World) (opts : Options).

Lemma tree_events_unfold indent n :
  tree_events w opts indent n
  = (node_events w opts n
     ++ match err n, info n with
        | None, Some _ => children_events opts (tree_events w opts) indent (nodes n)
        | _, _ => []
        end)%list.
Proof. destruct n; reflexivity. Qed.

Lemma follow_symlink_not_followed fuel node name st :
  FollowLink opts = false ->
  follow_symlink w opts fuel node name st
  = Done ((name +:+ " -> " +:+ link_target_shown w opts node, node), st).
Proof.
  intros Hoff. unfold follow_symlink, link_target_shown, target_display, bind.
  destruct (stat_info opts (link_destination w (path node))) as [tfi|].
  - destruct (Colorize opts); cbn; rewrite Hoff; reflexivity.
  - cbn. rewrite Hoff. reflexivity.
Qed.

Lemma print_children_events (pr : string -> Node -> M Node)
    (ev : string -> Node -> list (Sink * string)) l :
  (forall ind c st c' st', In c l -> pr ind c st = Done (c', st') ->
      output st' = (output st ++ ev ind c)%list) ->
  forall indent add i len st l' st',
    len = (i + length l)%nat ->
    (NoIndent opts = false -> add = "│   ") ->
    print_children opts pr indent add i len l st = Done (l', st') ->
    output st' = (output st ++ children_events opts ev indent l)%list.
Proof.
  induction l as [|c rest IH]; intros Hpr indent add i len st l' st' Hlen Hadd0 Hrun.
  { cbn in Hrun. injection Hrun as _ <-. cbn. rewrite app_nil_r. reflexivity. }
  cbn [print_children] in Hrun.
  apply bind_Done in Hrun as (add' & st1 & Hadd & Hrun).
  apply bind_Done in Hrun as (c' & st2 & Hc & Hrun).
  apply bind_Done in Hrun as (rest' & st3 & Hrest & Hrun).
  injection Hrun as _ <-.
  cbn [children_events].
  assert (Hlast : (i =? len - 1)%nat = match rest with [] => true | _ => false end).
  { subst len. destruct rest; cbn [length].
    - apply Nat.eqb_eq. lia.
    - apply Nat.eqb_neq. lia. }
  rewrite Hlast in Hadd.
  apply (Hpr _ c _ _ _ (or_introl eq_refl)) in Hc.
  assert (Hrest' : (NoIndent opts = false -> rest <> [] -> add' = "│   ") ->
            output st3 = (output st2 ++ children_events opts ev indent rest)%list).
  { intros Hadd'. destruct rest as [|c2 rest2].
    { cbn in Hrest. injection Hrest as _ <-. cbn. rewrite app_nil_r. reflexivity. }
    apply (IH (fun ind c0 s c0' s' Hin => Hpr ind c0 s c0' s' (or_intror Hin))
             indent add' (S i) len st2 rest' st3); [cbn [length] in *; lia| |exact Hrest].
    intros Hni. apply Hadd'; [exact Hni|discriminate]. }
  destruct (NoIndent opts) eqn:Hni.
  - injection Hadd as <- <-.
    rewrite TextFacts.append_empty_r in Hc.
    rewrite Hrest' by discriminate. rewrite Hc, <- app_assoc. reflexivity.
  - destruct rest as [|c2 rest2].
    + cbn in Hadd. injection Hadd as <- <-.
      rewrite Hrest' by congruence. rewrite Hc. cbn [output].
      rewrite <- !app_assoc. reflexivity.
    + cbn in Hadd. injection Hadd as <- <-.
      rewrite Hrest' by (intros; apply Hadd0; reflexivity).
      rewrite Hc. cbn [output]. rewrite (Hadd0 eq_refl).
      rewrite <- !app_assoc. reflexivity.
Qed.

Lemma shown_name_colour node fi name st :
  info node = Some fi ->
  (if Colorize opts then or_panic (Color.ANSIColor w node name) else ret name) st
  = Done ((if Colorize opts then Color.ANSIColor_info w fi (path node) name else name),
          st).
Proof.
  intros Hfi. destruct (Colorize opts); [|reflexivity].
  unfold Color.ANSIColor. rewrite Hfi. reflexivity.
Qed.

(** With links not followed, or none in the tree, the writes of [print]
    are [tree_events]. *)
Lemma print_events fuel :
  forall indent node st n' st',
    FollowLink opts = false \/ no_links node = true ->
    print w opts fuel indent node st = Done (n', st') ->
    output st' = (output st ++ tree_events w opts indent node)%list.
Proof.
  induction fuel as [|fuel IH]; intros indent node st n' st' Hok Hrun; [discriminate|].
  rewrite tree_events_unfold. unfold node_events, node_line.
  destruct (err node) as [e|] eqn:He.
  { rewrite (print_error w opts fuel indent node e st He) in Hrun.
    injection Hrun as _ <-. cbn [output]. rewrite app_nil_r. reflexivity. }
  rewrite print_S, He in Hrun.
  apply bind_Done in Hrun as (fi0 & sa & Hfi & Hrun).
  apply or_panic_Done in Hfi as (fi & Hfi & [= -> ->]).
  apply bind_Done in Hrun as (props0 & sb & Hprops & Hrun).
  apply or_panic_Done in Hprops as (props & Hprops & [= -> ->]).
  apply bind_Done in Hrun as ([] & sc & Hw & Hrun).
  rewrite write_props_Done in Hw. injection Hw as <-.
  cbv zeta in Hrun.
  apply bind_Done in Hrun as (name & sd & Hname & Hrun).
  rewrite (shown_name_colour node fi _ _ Hfi) in Hname. injection Hname as <- <-.
  apply bind_Done in Hrun as (res & st1 & Hres & Hrun).
  apply bind_Done in Hrun as ([] & st2 & Hw & Hrun).
  apply bind_Done in Hrun as (l & st3 & Hkids & Hrun).
  injection Hrun as _ <-.
  rewrite Hfi. unfold node_columns. rewrite Hprops. cbn [default].
  assert (Hres' : res = ((if has_mode (Mode fi) ModeSymlink
                          then shown_name w opts node fi +:+ " -> "
                               +:+ link_target_shown w opts node
                          else shown_name w opts node fi), node)
                  /\ output st1 = (output st ++ props_events opts props)%list).
  { destruct (has_mode (Mode fi) ModeSymlink) eqn:Hsym.
    - destruct Hok as [Hoff|Hnl].
      + rewrite (follow_symlink_not_followed _ _ _ _ Hoff) in Hres.
        injection Hres as <- <-. split; reflexivity.
      + rewrite no_links_unfold in Hnl. unfold is_link in Hnl.
        rewrite Hfi, Hsym in Hnl. discriminate Hnl.
    - injection Hres as <- <-. split; reflexivity. }
  destruct Hres' as [-> Hout1]. cbn [fst snd] in *.
  injection Hw as <-.
  apply (print_children_events (print w opts fuel) (tree_events w opts)) in Hkids.
  - rewrite Hkids. cbn [output]. rewrite Hout1, <- !app_assoc. reflexivity.
  - intros ind c s c' s' Hin Hc. apply (IH ind c s c' s'); [|exact Hc].
    destruct Hok as [Hoff|Hnl]; [left; exact Hoff|right].
    rewrite no_links_unfold in Hnl. apply andb_prop in Hnl as [_ Hnl].
    rewrite forallb_forall in Hnl. exact (Hnl c Hin).
  - reflexivity.
  - reflexivity.
Qed.

Lemma node_line_is_line k n :
  (err n = None -> is_Some (info n)) -> is_line (k, node_line w opts n) = true.
Proof.
  intros Hinfo. unfold node_line. destruct (err n) as [e|].
  - unfold error_line, is_line. cbn [snd].
    rewrite (last_char_end _ _ (ascii_of_nat 10)); [reflexivity|].
    rewrite (last_char_end _ _ (ascii_of_nat 10)); [reflexivity|].
    rewrite (last_char_end _ _ (ascii_of_nat 10)); [reflexivity|].
    reflexivity.
  - destruct (Hinfo eq_refl) as [fi ->]. apply is_line_newline.
Qed.

Lemma props_events_no_line props :
  List.filter is_line (props_events opts props) = [].
Proof.
  unfold props_events. destruct (0 <? length props)%nat; [|reflexivity].
  cbn [List.filter]. unfold is_line. cbn [snd].
  rewrite (last_char_end _ _ " "%char); [reflexivity|].
  rewrite (last_char_end _ _ " "%char); reflexivity.
Qed.

Lemma node_events_lines n :
  (err n = None -> is_Some (info n)) ->
  map snd (List.filter is_line (node_events w opts n)) = [node_line w opts n].
Proof.
  intros Hinfo. pose proof (node_line_is_line Stdout n Hinfo) as Hs.
  pose proof (node_line_is_line (OutFile opts) n Hinfo) as Ho.
  unfold node_events. destruct (err n) as [e|].
  - cbn [List.filter]. rewrite Hs. reflexivity.
  - destruct (Hinfo eq_refl) as [fi Hfi]. rewrite Hfi.
    rewrite List.filter_app, props_events_no_line. cbn [List.filter app].
    rewrite Ho. reflexivity.
Qed.

Lemma glyph_no_line indent g :
  Text.last_char g = Some " "%char -> is_line (OutFile opts, indent +:+ g) = false.
Proof.
  intros Hg. unfold is_line. cbn [snd]. rewrite (last_char_end _ _ _ Hg). reflexivity.
Qed.

Lemma children_events_lines (ev : string -> Node -> list (Sink * string)) l :
  Forall (fun c => forall indent,
            map snd (List.filter is_line (ev indent c))
            = map (node_line w opts) (preorder c)) l ->
  forall indent,
    map snd (List.filter is_line (children_events opts ev indent l))
    = map (node_line w opts) (concat (map preorder l)).
Proof.
  induction 1 as [|c rest Hc _ IH]; intros indent; [reflexivity|].
  cbn [children_events map concat].
  rewrite List.filter_app, !map_app, IH. f_equal.
  destruct (NoIndent opts); [apply Hc|].
  destruct rest; cbn [List.filter].
  - rewrite (glyph_no_line indent "└── " eq_refl). apply Hc.
  - rewrite (glyph_no_line indent "├── " eq_refl). apply Hc.
Qed.

(** The lines among [tree_events] are the lines of the nodes, each
    before its children. *)
Lemma tree_events_lines n :
  Forall (visited_node w opts) (preorder n) ->
  forall indent,
    map snd (List.filter is_line (tree_events w opts indent n))
    = map (node_line w opts) (preorder n).
Proof.
  revert n.
  apply (TreeFacts.preorder_induction (visited_node w opts)
           (fun n => forall indent,
              map snd (List.filter is_line (tree_events w opts indent n))
              = map (node_line w opts) (preorder n))).
  intros n (Hleaf & Hinfo & _) _ IH indent.
  rewrite tree_events_unfold, TreeFacts.preorder_unfold.
  rewrite List.filter_app, map_app, (node_events_lines n Hinfo).
  cbn [map app]. f_equal.
  destruct (err n) as [e|] eqn:He.
  { rewrite (Hleaf ltac:(discriminate)). reflexivity. }
  destruct (Hinfo eq_refl) as [fi ->].
  apply children_events_lines. exact IH.
Qed.

Lemma children_events_flat (ev : string -> Node -> list (Sink * string)) indent l :
  NoIndent opts = true ->
  children_events opts ev indent l = concat (map (ev indent) l).
Proof.
  intros Hni. induction l as [|c rest IH]; [reflexivity|].
  cbn [children_events map concat]. rewrite Hni, IH. reflexivity.
Qed.

(** Without indentation [tree_events] is the writes of the nodes, each
    before its children. *)
Lemma tree_events_flat n :
  NoIndent opts = true ->
  Forall (visited_node w opts) (preorder n) ->
  forall indent,
    tree_events w opts indent n = concat (map (node_events w opts) (preorder n)).
Proof.
  intros Hni. revert n.
  apply (TreeFacts.preorder_induction (visited_node w opts)
           (fun n => forall indent,
              tree_events w opts indent n
              = concat (map (node_events w opts) (preorder n)))).
  intros n (Hleaf & Hinfo & _) _ IH indent.
  rewrite tree_events_unfold, TreeFacts.preorder_unfold.
  cbn [map concat]. f_equal.
  destruct (err n) as [e|] eqn:He.
  { rewrite (Hleaf ltac:(discriminate)). reflexivity. }
  destruct (Hinfo eq_refl) as [fi ->].
  rewrite (children_events_flat _ _ _ Hni).
  clear Hleaf Hinfo. induction IH as [|c rest Hc _ IHr]; [reflexivity|].
  cbn [map concat]. rewrite map_app, concat_app, Hc, IHr. reflexivity.
Qed.

(** The writes to the standard output among [tree_events] are the lines
    of the nodes with an error. *)
Lemma node_events_stdout n :
  OutFile opts <> Stdout ->
  List.filter (fun ev => is_stdout (fst ev)) (node_events w opts n)
  = if no_error n then [] else [(Stdout, node_line w opts n)].
Proof.
  intros Hout.
  assert (Hk : is_stdout (OutFile opts) = false)
    by (destruct (OutFile opts); [congruence|reflexivity]).
  unfold node_events, no_error. destruct (err n) as [e|]; [reflexivity|].
  rewrite bool_decide_eq_true_2 by reflexivity.
  destruct (info n) as [fi|]; [|reflexivity].
  rewrite List.filter_app. unfold props_events.
  destruct (0 <? length (node_columns w opts n fi))%nat; cbn; rewrite !Hk; reflexivity.
Qed.

Lemma children_events_stdout (ev : string -> Node -> list (Sink * string))
    (F : Node -> list (Sink * string)) l :
  OutFile opts <> Stdout ->
  Forall (fun c => forall indent,
            List.filter (fun e => is_stdout (fst e)) (ev indent c) = F c) l ->
  forall indent,
    List.filter (fun e => is_stdout (fst e)) (children_events opts ev indent l)
    = concat (map F l).
Proof.
  intros Hout.
  assert (Hk : is_stdout (OutFile opts) = false)
    by (destruct (OutFile opts); [congruence|reflexivity]).
  induction 1 as [|c rest Hc _ IH]; intros indent; [reflexivity|].
  cbn [children_events map concat].
  rewrite List.filter_app, IH. f_equal.
  destruct (NoIndent opts); [apply Hc|].
  destruct rest; cbn [List.filter fst]; rewrite Hk; apply Hc.
Qed.

Lemma tree_events_stdout n :
  OutFile opts <> Stdout ->
  Forall (visited_node w opts) (preorder n) ->
  forall indent,
    List.filter (fun e => is_stdout (fst e)) (tree_events w opts indent n)
    = map (fun m => (Stdout, node_line w opts m))
        (List.filter (fun m => negb (no_error m)) (preorder n)).
Proof.
  intros Hout. revert n.
  apply (TreeFacts.preorder_induction (visited_node w opts)
           (fun n => forall indent,
              List.filter (fun e => is_stdout (fst e)) (tree_events w opts indent n)
              = map (fun m => (Stdout, node_line w opts m))
                  (List.filter (fun m => negb (no_error m)) (preorder n)))).
  intros n (Hleaf & Hinfo & _) _ IH indent.
  rewrite tree_events_unfold, TreeFacts.preorder_unfold.
  rewrite List.filter_app, (node_events_stdout n Hout).
  cbn [List.filter].
  destruct (err n) as [e|] eqn:He.
  { assert (Hn : no_error n = false) by (unfold no_error; rewrite He; reflexivity).
    rewrite Hn, (Hleaf ltac:(discriminate)). reflexivity. }
  assert (Hn : no_error n = true) by (unfold no_error; rewrite He; reflexivity).
  rewrite Hn. cbn [negb app].
  destruct (Hinfo eq_refl) as [fi ->].
  rewrite (children_events_stdout (tree_events w opts)
             (fun c => map (fun m => (Stdout, node_line w opts m))
                         (List.filter (fun m => negb (no_error m)) (preorder c)))
             (nodes n) Hout IH).
  clear. induction (nodes n) as [|c l IHl]; [reflexivity|].
  cbn [map concat]. rewrite List.filter_app, map_app, IHl. reflexivity.
Qed.

End Written.
End WrittenFacts.

(** X9: with links not followed, or on a tree without links, what
    [print] writes is [tree_events]:
    for each node its property columns and its line, then its children;
    before a child the indent and a branch glyph, the corner glyph
    before the last child; the indent of a child's own children grows by
    a bar, by blanks under the last child.  The writes depend on the
    tree and the indent only, not on the visited map nor on what was
    written before. *)
Theorem print_writes_tree_events (w : World) (opts : Options) (fuel : nat)
    (indent : string) (node n' : Node) (st st' : RState)
    (Hok : FollowLink opts = false \/ no_links node = true)
    (Hrun : print w opts fuel indent node st = Done (n', st')) :
  output st' = (output st ++ tree_events w opts indent node)%list.
Proof. exact (WrittenFacts.print_events w opts fuel indent node st n' st' Hok Hrun). Qed.

(** X10: with links not followed, or on a tree without links, when the
    tree is one built by [Visit], the writes
    of [print] that end a line are the lines of the nodes of the tree,
    one for each node, every node before its children and the children
    in their order. *)
Theorem print_lines_in_preorder (w : World) (opts : Options) (fuel : nat)
    (indent : string) (node n' : Node) (st st' : RState)
    (Hok : FollowLink opts = false \/ no_links node = true)
    (Hshape : Forall (visited_node w opts) (preorder node))
    (Hrun : print w opts fuel indent node st = Done (n', st')) :
  exists evs,
    output st' = (output st ++ evs)%list
    /\ map snd (List.filter is_line evs) = map (node_line w opts) (preorder node).
Proof.
  exists (tree_events w opts indent node). split.
  - exact (WrittenFacts.print_events w opts fuel indent node st n' st' Hok Hrun).
  - exact (WrittenFacts.tree_events_lines w opts node Hshape indent).
Qed.

(** X11: with [NoIndent] set and links not followed, or none in the
    tree, on a tree built by [Visit], [print] writes no glyph at all: its writes are the columns
    and the line of each node, every node before its children. *)
Theorem print_flat_without_indent (w : World) (opts : Options) (fuel : nat)
    (indent : string) (node n' : Node) (st st' : RState)
    (Hok : FollowLink opts = false \/ no_links node = true)
    (Hni : NoIndent opts = true)
    (Hshape : Forall (visited_node w opts) (preorder node))
    (Hrun : print w opts fuel indent node st = Done (n', st')) :
  output st' = (output st ++ concat (map (node_events w opts) (preorder node)))%list.
Proof.
  rewrite (WrittenFacts.print_events w opts fuel indent node st n' st' Hok Hrun).
  rewrite (WrittenFacts.tree_events_flat w opts node Hni Hshape indent).
  reflexivity.
Qed.


Lemma print_writes_tree_events_witness :
  exists r, Visit Demo.world Demo.plain 5 (New "A") ∅ = Some r
    /\ exists n' st',
         print Demo.world Demo.plain 20 "" (v_node r) Demo.start = Done (n', st')
         /\ output st'
            = (output Demo.start ++ tree_events Demo.world Demo.plain "" (v_node r))%list.
Proof.
  destruct (Visit Demo.world Demo.plain 5 (New "A") ∅) as [r|] eqn:Hv;
    [|vm_compute in Hv; discriminate Hv].
  exists r. split; [reflexivity|].
  destruct (print Demo.world Demo.plain 20 "" (v_node r) Demo.start)
    as [[n' st']| |] eqn:Hp.
  - exists n', st'. split; [reflexivity|].
    exact (print_writes_tree_events Demo.world Demo.plain 20 "" (v_node r) n'
             Demo.start st' (or_introl eq_refl) Hp).
  - exfalso. vm_compute in Hv. injection Hv as <-. vm_compute in Hp. discriminate Hp.
  - exfalso. vm_compute in Hv. injection Hv as <-. vm_compute in Hp. discriminate Hp.
Defined.

Lemma print_lines_in_preorder_witness :
  exists r, Visit Demo.world Demo.plain 5 (New "A") ∅ = Some r
    /\ exists n' st',
         print Demo.world Demo.plain 20 "" (v_node r) Demo.start = Done (n', st')
         /\ exists evs,
              output st' = (output Demo.start ++ evs)%list
              /\ map snd (List.filter is_line evs)
                 = map (node_line Demo.world Demo.plain) (preorder (v_node r)).
Proof.
  destruct (Visit Demo.world Demo.plain 5 (New "A") ∅) as [r|] eqn:Hv;
    [|vm_compute in Hv; discriminate Hv].
  exists r. split; [reflexivity|].
  assert (Hshape : Forall (visited_node Demo.world Demo.plain) (preorder (v_node r))).
  { refine (TreeFacts.Visit_sound Demo.world Demo.plain DemoFacts.world_permutes
              5 (New "A") ∅ r _ Hv).
    repeat split. intros fi Hfi. discriminate Hfi. }
  destruct (print Demo.world Demo.plain 20 "" (v_node r) Demo.start)
    as [[n' st']| |] eqn:Hp.
  - exists n', st'. split; [reflexivity|].
    exact (print_lines_in_preorder Demo.world Demo.plain 20 "" (v_node r) n'
             Demo.start st' (or_introl eq_refl) Hshape Hp).
  - exfalso. vm_compute in Hv. injection Hv as <-. vm_compute in Hp. discriminate Hp.
  - exfalso. vm_compute in Hv. injection Hv as <-. vm_compute in Hp. discriminate Hp.
Defined.

Lemma print_flat_without_indent_witness :
  exists r,
    Visit Demo.world (Sample.with_no_indent Demo.plain) 5 (New "A") ∅ = Some r
    /\ exists n' st',
         print Demo.world (Sample.with_no_indent Demo.plain) 20 "" (v_node r) Demo.start
         = Done (n', st')
         /\ output st'
            = (output Demo.start
               ++ concat (map (node_events Demo.world (Sample.with_no_indent Demo.plain))
                            (preorder (v_node r))))%list.
Proof.
  destruct (Visit Demo.world (Sample.with_no_indent Demo.plain) 5 (New "A") ∅)
    as [r|] eqn:Hv; [|vm_compute in Hv; discriminate Hv].
  exists r. split; [reflexivity|].
  assert (Hshape : Forall (visited_node Demo.world (Sample.with_no_indent Demo.plain))
                     (preorder (v_node r))).
  { refine (TreeFacts.Visit_sound Demo.world (Sample.with_no_indent Demo.plain)
              DemoFacts.world_permutes 5 (New "A") ∅ r _ Hv).
    repeat split. intros fi Hfi. discriminate Hfi. }
  destruct (print Demo.world (Sample.with_no_indent Demo.plain) 20 "" (v_node r)
              Demo.start) as [[n' st']| |] eqn:Hp.
  - exists n', st'. split; [reflexivity|].
    exact (print_flat_without_indent Demo.world (Sample.with_no_indent Demo.plain)
             20 "" (v_node r) n' Demo.start st' (or_introl eq_refl) eq_refl Hshape Hp).
  - exfalso. vm_compute in Hv. injection Hv as <-. vm_compute in Hp. discriminate Hp.
  - exfalso. vm_compute in Hv. injection Hv as <-. vm_compute in Hp. discriminate Hp.
Defined.

(** ** [print] on the trees of [Visit] does not panic *)

Module SafeFacts.
Import PrintFacts.

Lemma safe_bind {A B} (c : M A) (k : A -> M B) st Q :
  safe c st (fun a st' => safe (k a) st' Q) -> safe (bind c k) st Q.
Proof. unfold safe, bind. destruct (c st) as [[a st']| |]; auto. Qed.

Lemma safe_weaken {A} (c : M A) st (Q Q' : A -> RState -> Prop) :
  safe c st Q -> (forall a st', Q a st' -> Q' a st') -> safe c st Q'.
Proof. unfold safe. destruct (c st) as [[a st']| |]; auto. Qed.

Lemma safe_or_panic {A} (o : option A) st (Q : A -> RState -> Prop) a :
  o = Some a -> Q a st -> safe (or_panic o) st Q.
Proof. intros -> HQ. exact HQ. Qed.

Lemma safe_Done {A} (c : M A) st (Q : A -> RState -> Prop) a st' :
  c st = Done (a, st') -> Q a st' -> safe c st Q.
Proof. unfold safe. intros -> HQ. exact HQ. Qed.

Section Safe.
Context (w : World) (opts : Options).
Context (Hsort : sort_permutes w) (Hstat : stat_backed opts).

Lemma file_props_backed fi s : Sys fi = SysStat s -> is_Some (file_props w opts fi).
Proof.
  intros Hs. unfold file_props, stat_assert. rewrite Hs.
  destruct (Inodes opts), (Device opts), (ShowUid opts), (ShowGid opts);
    cbn; destruct (user_LookupId w (Text.Itoa (Uid s))); eauto.
Qed.

Lemma print_children_safe (pr : string -> Node -> M Node) l :
  (forall indent c st, In c l -> safe (pr indent c) st (fun _ _ => True)) ->
  forall indent add i len st,
    safe (print_children opts pr indent add i len l) st (fun _ _ => True).
Proof.
  induction l as [|c l IH]; intros Hpr indent add i len st; [exact I|].
  cbn [print_children].
  apply safe_bind.
  assert (Hadd : safe (if NoIndent opts then ret ""
                       else if (i =? len - 1)%nat
                            then _ <- write (OutFile opts) (indent +:+ "└── ") ;; ret "    "
                            else _ <- write (OutFile opts) (indent +:+ "├── ") ;; ret add)
                   st (fun _ _ => True)).
  { destruct (NoIndent opts); [exact I|].
    destruct (i =? len - 1)%nat; exact I. }
  eapply safe_weaken; [exact Hadd|]. intros add' st1 _. cbv beta.
  apply safe_bind.
  eapply safe_weaken; [apply (Hpr _ c st1 (or_introl eq_refl))|].
  intros c' st2 _. cbv beta.
  apply safe_bind.
  eapply safe_weaken.
  - apply IH. intros ind c0 s Hin. apply Hpr. right. exact Hin.
  - intros rest' st3 _. exact I.
Qed.

Lemma follow_symlink_safe fuel node name st :
  Forall (fun c => Forall (visited_node w opts) (preorder c)) (nodes node) ->
  safe (follow_symlink w opts fuel node name) st
    (fun res _ => Forall (fun c => Forall (visited_node w opts) (preorder c))
                    (nodes (snd res))).
Proof.
  intros Hkids. unfold follow_symlink.
  assert (Hvt : exists vt, (match stat_info opts (link_destination w (path node)) with
                            | Some tfi =>
                                if Colorize opts
                                then or_panic (Color.ANSIColor w
                                       (mkNode (Some tfi) (link_text w (path node)) 0 None [])
                                       (link_text w (path node)))
                                else ret (link_text w (path node))
                            | None => ret (link_text w (path node))
                            end) st = Done (vt, st)).
  { destruct (stat_info opts (link_destination w (path node))) as [tfi|]; [|eauto].
    rewrite target_colour_Done. eauto. }
  destruct Hvt as [vt Hvt].
  apply safe_bind. eapply safe_Done; [exact Hvt|].
  destruct (FollowLink opts); [|exact Hkids].
  destruct (filepath_Abs w (link_destination w (path node))) as [p|]; [|exact Hkids].
  destruct (stat_info opts (link_destination w (path node))) as [tfi|] eqn:Hsi;
    [|exact Hkids].
  destruct (IsDir tfi); [|exact Hkids].
  unfold safe.
  destruct (vpaths st !! filepath_Clean w p); [exact Hkids|].
  destruct (Visit w opts fuel (followed_node tfi (link_destination w (path node)))
              (vpaths st)) as [r|] eqn:Hv; [|exact I].
  cbn [snd]. destruct node; cbn [nodes set_nodes].
  refine (proj2 (proj1 (TreeFacts.Forall_preorder _ _)
                   (TreeFacts.Visit_sound w opts Hsort fuel _ _ r _ Hv))).
  repeat split. cbn. intros fi [= <-].
  unfold stat_info in Hsi. cbn [path] in Hsi.
  destruct (Stat (fs opts) (link_destination w path0)); congruence.
Qed.

(** [print] does not panic on a tree of [visited_node]s. *)
Lemma print_safe fuel :
  forall indent node st,
    Forall (visited_node w opts) (preorder node) ->
    safe (print w opts fuel indent node) st (fun _ _ => True).
Proof.
  induction fuel as [|fuel IH]; intros indent node st Hall; [exact I|].
  pose proof Hall as Hall'.
  apply TreeFacts.Forall_preorder in Hall' as [(Hleaf & Hinfo & Hst & _) Hkids].
  destruct (err node) as [e|] eqn:He.
  { unfold safe. rewrite (print_error w opts fuel indent node e st He). exact I. }
  rewrite print_S, He.
  destruct (Hinfo eq_refl) as [fi Hfi].
  apply safe_bind. eapply safe_or_panic; [exact Hfi|].
  assert (Hprops : is_Some (if negb (IsDir fi) then file_props w opts fi
                            else dir_props opts node)).
  { destruct (IsDir fi) eqn:Hd; cbn [negb].
    - unfold dir_props. rewrite (SizeFacts.dirRecursiveSize_tree w opts node Hall).
      destruct (ByteSize opts || UnitSize opts); eauto.
    - destruct (Hstat _ fi (Hst fi Hfi) Hd) as [s Hs]. exact (file_props_backed fi s Hs). }
  destruct Hprops as [props Hprops].
  apply safe_bind. eapply safe_or_panic; [exact Hprops|].
  apply safe_bind. eapply safe_Done; [apply write_props_Done|].
  cbv zeta.
  apply safe_bind. eapply safe_Done; [apply (WrittenFacts.shown_name_colour w opts node fi _ _ Hfi)|].
  apply safe_bind.
  eapply safe_weaken.
  { instantiate (1 := fun res _ => Forall (fun c => Forall (visited_node w opts) (preorder c))
                                     (nodes (snd res))).
    destruct (has_mode (Mode fi) ModeSymlink); [|exact Hkids].
    apply follow_symlink_safe. exact Hkids. }
  intros res st2 Hres. cbv beta.
  apply safe_bind. eapply safe_Done; [reflexivity|].
  apply safe_bind.
  eapply safe_weaken.
  - apply print_children_safe. intros ind c s Hin. apply IH.
    rewrite List.Forall_forall in Hres. exact (Hres c Hin).
  - intros l s _. exact I.
Qed.

End Safe.
End SafeFacts.

Module SampleFacts.

Lemma assoc_In {A} k (l : list (string * A)) v :
  Demo.assoc k l = Some v -> In v (map snd l).
Proof.
  induction l as [|[k' v'] l IH]; [discriminate|]. cbn.
  destruct (String.eqb k k'); [intros [= ->]; left; reflexivity|].
  intros H. right. exact (IH H).
Qed.

Lemma demo_stat_backed o : fs o = Demo.demo_fs -> stat_backed o.
Proof.
  intros Hfs p fi Hs _. rewrite Hfs in Hs. cbn [Stat Demo.demo_fs] in Hs.
  destruct (Demo.assoc p Demo.entries) as [v|] eqn:Ha; [|discriminate Hs].
  cbn in Hs. subst v. apply assoc_In in Ha. cbn in Ha.
  exists (mkStat 7 1 1000 100).
  repeat (destruct Ha as [Ha|Ha]; [try discriminate Ha; injection Ha as <-; reflexivity|]).
  destruct Ha.
Qed.

End SampleFacts.

(** X12: on a tree built by [Visit], over a storage whose entries other
    than directories carry a [Stat_t], [print] never panics, with links
    followed or not; and on a finite storage, with fuel for the levels of
    the tree and for each directory a link may still lead to, it returns. *)
Theorem print_does_not_panic (w : World) (opts : Options) (node : Node)
    (Hsort : sort_permutes w) (Hstat : stat_backed opts)
    (Hshape : Forall (visited_node w opts) (preorder node)) :
  (forall fuel indent st, print w opts fuel indent node st <> Panic)
  /\ (forall (h : string -> nat) (top : nat) (U : gset string),
        fs_height w opts h -> (forall q, (h q <= top)%nat) ->
        dir_keys_in w opts U ->
        forall fuel indent st,
          (unvisited U (vpaths st) * (top + 2) + levels node <= fuel)%nat ->
          exists n' st', print w opts fuel indent node st = Done (n', st')).
Proof.
  assert (Hsafe : forall fuel indent st, print w opts fuel indent node st <> Panic).
  { intros fuel indent st Hp.
    pose proof (SafeFacts.print_safe w opts Hsort Hstat fuel indent node st Hshape) as Hs.
    unfold safe in Hs. rewrite Hp in Hs. exact Hs. }
  split; [exact Hsafe|].
  intros h top U Hh Hb Hk fuel indent st Hfuel.
  pose proof (PrintFacts.print_ends w opts h top U Hh Hb Hk Hsort fuel
                (unvisited U (vpaths st)) indent node st (le_n _) Hfuel) as He.
  unfold ends in He. specialize (Hsafe fuel indent st).
  destruct (print w opts fuel indent node st) as [[n' st']| |];
    [eauto|congruence|destruct He].
Qed.

Lemma print_does_not_panic_witness :
  exists r,
    Visit Demo.world (Demo.with_follow Demo.plain) 5 (New "A") ∅ = Some r
    /\ exists n' st',
         print Demo.world (Demo.with_follow Demo.plain) 20 "" (v_node r) Demo.start
         = Done (n', st').
Proof.
  destruct (Visit Demo.world (Demo.with_follow Demo.plain) 5 (New "A") ∅)
    as [r|] eqn:Hv; [|vm_compute in Hv; discriminate Hv].
  exists r. split; [reflexivity|].
  assert (Hshape : Forall (visited_node Demo.world (Demo.with_follow Demo.plain))
                     (preorder (v_node r))).
  { refine (TreeFacts.Visit_sound Demo.world (Demo.with_follow Demo.plain)
              DemoFacts.world_permutes 5 (New "A") ∅ r _ Hv).
    repeat split. intros fi Hfi. discriminate Hfi. }
  refine (proj2 (print_does_not_panic Demo.world (Demo.with_follow Demo.plain)
                   (v_node r) DemoFacts.world_permutes
                   (SampleFacts.demo_stat_backed (Demo.with_follow Demo.plain) eq_refl)
                   Hshape)
            Demo.height 2%nat Demo.dir_keys
            (DemoFacts.height_decreases Demo.sort_stable
               (Demo.with_follow Demo.plain) eq_refl)
            DemoFacts.height_bound
            (DemoFacts.keys_in Demo.sort_stable (Demo.with_follow Demo.plain) eq_refl)
            20%nat "" Demo.start _).
  vm_compute in Hv. injection Hv as <-. vm_compute. lia.
Defined.

(** ** The visited map, the sinks, followed links, extensions *)

Module RecordFacts.
Section Record.
Context (w : World) (opts : Options).

Lemma recorded_mono vp vp' m : dom vp ⊆ dom vp' -> recorded w vp m -> recorded w vp' m.
Proof. intros Hsub Hm a Ha. apply Hsub. exact (Hm a Ha). Qed.

Lemma Visit_records :
  sort_permutes w ->
  forall fuel node vp r,
    nodes node = [] ->
    Visit w opts fuel node vp = Some r ->
    Forall (recorded w (v_paths r)) (preorder (v_node r)).
Proof.
  intros Hp. induction fuel as [|fuel IH]; intros node vp r Hnodes Hrun;
    [discriminate|].
  assert (Hroot : forall m, path m = path node -> recorded w (v_paths r) m).
  { intros m Hm a Ha. rewrite Hm in Ha.
    exact (VisitFacts.Visit_vpaths_key w opts _ _ _ _ a Hrun Ha). }
  assert (Hleaf : forall m, nodes m = [] -> path m = path node ->
                            Forall (recorded w (v_paths r)) (preorder m)).
  { intros m Hn Hm. apply TreeFacts.Forall_preorder. rewrite Hn.
    split; [exact (Hroot m Hm)|constructor]. }
  pose proof Hrun as Hrun'.
  rewrite VisitFacts.Visit_S in Hrun. cbv zeta in Hrun.
  destruct (Stat (fs opts) (path node)) as [fi|e] eqn:Hstat.
  2:{ injection Hrun as <-. apply Hleaf; [exact Hnodes|reflexivity]. }
  destruct (IsDir fi) eqn:Hdir; cbn [negb] in Hrun.
  2:{ injection Hrun as <-. apply Hleaf; [exact Hnodes|reflexivity]. }
  destruct ((0 <? DeepLevel opts) && (DeepLevel opts <=? depth (set_info fi node))).
  { injection Hrun as <-. apply Hleaf; [exact Hnodes|reflexivity]. }
  destruct (ReadDir (fs opts) (path (set_info fi node))) as [names|e].
  2:{ injection Hrun as <-. apply Hleaf; [exact Hnodes|reflexivity]. }
  destruct (visit_names w opts (Visit w opts fuel) _ _ names [] _ 0 0)
    as [[[[l vp'] d] f]|] eqn:Hloop; [|discriminate].
  injection Hrun as <-. cbn [v_node v_paths] in *.
  assert (Hinv : Forall (fun c => Forall (recorded w vp') (preorder c)) l).
  { refine (VisitFacts.visit_names_invariant w opts (Visit w opts fuel) _ _
              (fun acc v _ _ => Forall (fun c => Forall (recorded w v) (preorder c)) acc)
              names _ _ _ _ _ (l, vp', d, f) _ Hloop); [|constructor].
    intros name acc v d0 f0 rc _ _ Hrc Hacc.
    pose proof (VisitFacts.Visit_vpaths_grow w opts _ _ _ _ Hrc) as Hgrow.
    assert (Hacc' : Forall (fun c => Forall (recorded w (v_paths rc)) (preorder c)) acc).
    { eapply Forall_impl; [exact Hacc|].
      intros c Hc. eapply Forall_impl; [exact Hc|].
      intros m. apply recorded_mono. exact Hgrow. }
    destruct (discarded w opts name (v_node rc)); [exact Hacc'|].
    apply Forall_app. split; [exact Hacc'|].
    constructor; [|constructor].
    exact (IH (child_node w _ _ name) _ _ eq_refl Hrc). }
  pose proof (VisitFacts.arranged_perm w opts l (set_info fi node) Hp) as Hperm.
  apply TreeFacts.Forall_preorder. split.
  - apply Hroot. rewrite VisitFacts.arranged_path. reflexivity.
  - apply (Permutation_Forall (Permutation_sym Hperm)). exact Hinv.
Qed.

End Record.
End RecordFacts.

(** X13: when [Visit] returns, the key of the path of every node of the
    tree it has built is in the visited map it returns: this is what the
    check of [print] before following a link relies on. *)
Theorem Visit_records_every_node (w : World) (opts : Options) (fuel : nat)
    (node : Node) (vp : gmap string bool) (r : Visited)
    (Hsort : sort_permutes w) (Hnew : nodes node = [])
    (Hrun : Visit w opts fuel node vp = Some r) :
  Forall (fun m => forall a, filepath_Abs w (path m) = Some a ->
                             filepath_Clean w a ∈ dom (v_paths r))
    (preorder (v_node r)).
Proof. exact (RecordFacts.Visit_records w opts Hsort fuel node vp r Hnew Hrun). Qed.

Lemma Visit_records_every_node_witness :
  exists r, Visit Demo.world Demo.plain 5 (New "A") ∅ = Some r
    /\ Forall (fun m => forall a, filepath_Abs Demo.world (path m) = Some a ->
                                  filepath_Clean Demo.world a ∈ dom (v_paths r))
         (preorder (v_node r)).
Proof.
  destruct (Visit Demo.world Demo.plain 5 (New "A") ∅) as [r|] eqn:Hv;
    [|vm_compute in Hv; discriminate Hv].
  exists r. split; [reflexivity|].
  exact (Visit_records_every_node Demo.world Demo.plain 5 (New "A") ∅ r
           DemoFacts.world_permutes eq_refl Hv).
Defined.

(** X14: whatever [print] writes goes to [OutFile], except the line of a
    node with an error, which goes to the standard output: an error node
    gets that one write and no other, and, where no link is followed, on
    a tree built by [Visit], the writes to the standard output are
    exactly the lines of the nodes with an error, in their order. *)
Theorem print_sinks_of_writes (w : World) (opts : Options) (fuel : nat)
    (indent : string) (node n' : Node) (st st' : RState)
    (Hrun : print w opts fuel indent node st = Done (n', st')) :
  exists evs,
    output st' = (output st ++ evs)%list
    /\ Forall (fun ev =>
                 fst ev = OutFile opts
                 \/ (fst ev = Stdout
                     /\ exists n e, err n = Some e /\ snd ev = error_line n e))
         evs
    /\ (forall e, err node = Some e -> evs = [(Stdout, error_line node e)])
    /\ (FollowLink opts = false \/ no_links node = true ->
        OutFile opts <> Stdout ->
        Forall (visited_node w opts) (preorder node) ->
        List.filter (fun ev => is_stdout (fst ev)) evs
        = map (fun m => (Stdout, node_line w opts m))
            (List.filter (fun m => negb (no_error m)) (preorder node))).
Proof.
  destruct (PrintFacts.print_sinks w opts fuel indent node st n' st' Hrun)
    as (evs & Hout & HF).
  exists evs. split; [exact Hout|]. split; [exact HF|]. split.
  - intros e He. destruct fuel as [|fuel]; [discriminate Hrun|].
    rewrite (PrintFacts.print_error w opts fuel indent node e st He) in Hrun.
    injection Hrun as _ <-. cbn [output] in Hout.
    exact (eq_sym (app_inv_head _ _ _ Hout)).
  - intros Hok Hsink Hshape.
    pose proof (WrittenFacts.print_events w opts fuel indent node st n' st' Hok Hrun)
      as Hev.
    rewrite Hout in Hev. apply app_inv_head in Hev. subst evs.
    exact (WrittenFacts.tree_events_stdout w opts node Hsink Hshape indent).
Qed.

Lemma print_sinks_of_writes_witness :
  exists r, Visit Demo.world Demo.plain 5 (New "A") ∅ = Some r
    /\ exists n' st',
         print Demo.world Demo.plain 20 "" (v_node r) Demo.start = Done (n', st')
         /\ exists evs,
              output st' = (output Demo.start ++ evs)%list
              /\ List.filter (fun ev => is_stdout (fst ev)) evs
                 = [(Stdout, "A/bad [permission denied]" +:+ newline)].
Proof.
  destruct (Visit Demo.world Demo.plain 5 (New "A") ∅) as [r|] eqn:Hv;
    [|vm_compute in Hv; discriminate Hv].
  exists r. split; [reflexivity|].
  assert (Hshape : Forall (visited_node Demo.world Demo.plain) (preorder (v_node r))).
  { refine (TreeFacts.Visit_sound Demo.world Demo.plain DemoFacts.world_permutes
              5 (New "A") ∅ r _ Hv).
    repeat split. intros fi Hfi. discriminate Hfi. }
  destruct (print Demo.world Demo.plain 20 "" (v_node r) Demo.start)
    as [[n' st']| |] eqn:Hp.
  - exists n', st'. split; [reflexivity|].
    destruct (print_sinks_of_writes Demo.world Demo.plain 20 "" (v_node r) n'
                Demo.start st' Hp) as (evs & Hout & _ & _ & Hstd).
    exists evs. split; [exact Hout|].
    rewrite (Hstd (or_introl eq_refl) ltac:(discriminate) Hshape).
    vm_compute in Hv. injection Hv as <-. vm_compute. reflexivity.
  - exfalso. vm_compute in Hv. injection Hv as <-. vm_compute in Hp. discriminate Hp.
  - exfalso. vm_compute in Hv. injection Hv as <-. vm_compute in Hp. discriminate Hp.
Defined.

(** X15: the children that [print] adopts when it follows a link are at
    depth 1, whatever the depth of the link, at the paths joined from
    the target and the names of its listing; so under a depth limit [k]
    the tree below a followed link goes [k] levels deep counted from the
    link, also when the link itself is at the limit. *)
Theorem followed_link_restarts_depth (w : World) (opts : Options) (fuel : nat)
    (node node' : Node) (name name' : string) (st st' : RState)
    (p : string) (tfi : FileInfo)
    (Hsort : sort_permutes w) (Hon : FollowLink opts = true)
    (Habs : filepath_Abs w (link_destination w (path node)) = Some p)
    (Hstat : stat_info opts (link_destination w (path node)) = Some tfi)
    (Hdir : IsDir tfi = true)
    (Hfresh : vpaths st !! filepath_Clean w p = None)
    (Hrun : follow_symlink w opts fuel node name st = Done ((name', node'), st')) :
  let target := link_destination w (path node) in
  Forall (fun c =>
            depth c = 1
            /\ exists names nm,
                 ReadDir (fs opts) target = inl names /\ In nm names
                 /\ path c = filepath_Join w target nm)
    (nodes node')
  /\ (0 < DeepLevel opts ->
      Forall (fun c => Forall (fun m => 1 <= depth m <= DeepLevel opts) (preorder c))
        (nodes node')).
Proof.
  intros target.
  rewrite (PrintFacts.follow_symlink_fresh w opts fuel node name st p tfi
             Hon Habs Hstat Hdir Hfresh) in Hrun.
  destruct (Visit w opts fuel (followed_node tfi (link_destination w (path node)))
              (vpaths st)) as [r|] eqn:Hv; [|discriminate Hrun].
  injection Hrun as _ <- _.
  assert (Hkids : nodes (set_nodes (nodes (v_node r)) node) = nodes (v_node r))
    by (destruct node; reflexivity).
  rewrite Hkids.
  assert (Hnew : unvisited_node opts (followed_node tfi target)).
  { repeat split. cbn. intros fi [= <-]. unfold stat_info in Hstat. fold target in Hstat.
    destruct (Stat (fs opts) target); congruence. }
  pose proof (TreeFacts.Visit_sound w opts Hsort fuel _ _ r Hnew Hv) as Hall.
  destruct (VisitFacts.Visit_path w opts _ _ _ _ Hv) as [Hpath Hdepth].
  cbn in Hpath, Hdepth.
  apply TreeFacts.Forall_preorder in Hall as [(_ & _ & _ & _ & _ & Hch) Hsub].
  rewrite Hpath, Hdepth in Hch.
  split.
  - eapply Forall_impl; [exact Hch|].
    intros c (Hd & (names & nm & Hread & Hin & _ & Hp) & _). cbn.
    split; [lia|]. exists names, nm. repeat split; assumption.
  - intros Hpos.
    rewrite Forall_forall in Hch, Hsub. apply Forall_forall. intros c Hc.
    destruct (Hch c Hc) as (Hd & _).
    pose proof (VisitTreeFacts.depth_bounds w opts (DeepLevel opts) c eq_refl Hpos
                  (Hsub c Hc) ltac:(lia)) as Hb.
    eapply Forall_impl; [exact Hb|]. cbn. intros m Hm. lia.
Qed.

Lemma followed_link_restarts_depth_witness :
  depth Demo.link_L = DeepLevel Sample2.limited_follow
  /\ exists name' node' st',
       follow_symlink Demo.world Sample2.limited_follow 5 Demo.link_L "L" Demo.start
       = Done ((name', node'), st')
       /\ length (nodes node') = 5%nat
       /\ Forall (fun c =>
                    depth c = 1
                    /\ exists names nm,
                         ReadDir (fs Sample2.limited_follow) "A" = inl names
                         /\ In nm names
                         /\ path c = filepath_Join Demo.world "A" nm)
            (nodes node').
Proof.
  split; [reflexivity|].
  destruct (follow_symlink Demo.world Sample2.limited_follow 5 Demo.link_L "L"
              Demo.start) as [[[name' node'] st']| |] eqn:Hrun;
    [|vm_compute in Hrun; discriminate Hrun|vm_compute in Hrun; discriminate Hrun].
  exists name', node', st'. split; [reflexivity|]. split.
  - vm_compute in Hrun. injection Hrun as _ <- _. reflexivity.
  - exact (proj1 (followed_link_restarts_depth Demo.world Sample2.limited_follow 5
                    Demo.link_L node' "L" name' Demo.start st' "/cwd/A"
                    (mkFileInfo "A" 4096 (ModeDir + 493) 0 true Demo.st0)
                    DemoFacts.world_permutes eq_refl eq_refl eq_refl eq_refl
                    eq_refl Hrun)).
Defined.

Module ExtFacts.

Lemma Ext_from_dot s : forall found,
  (found = "" \/ exists r, found = String "."%char r) ->
  Color.Ext_from s found = "" \/ exists r, Color.Ext_from s found = String "."%char r.
Proof.
  induction s as [|c s IH]; intros found Hf; [exact Hf|].
  cbn [Color.Ext_from].
  destruct (Ascii.eqb c "."%char) eqn:Hc.
  - apply IH. right. apply Ascii.eqb_eq in Hc. subst c. eauto.
  - destruct (Ascii.eqb c "/"%char); apply IH; [left; reflexivity|exact Hf].
Qed.

End ExtFacts.

(** X16: [filepath.Ext] gives the empty text or a text that starts with
    a dot; so the case [jpeg] of [ANSIColor], written without its dot,
    matches no name, and a name that ends in [.jpeg] gets no colour of
    the media files.  This holds of the lowering of ASCII letters and of
    every [strings.ToLower] that agrees with it on ASCII text and keeps a
    leading dot. *)
Theorem jpeg_case_never_matches (p : string) :
  (Color.Ext p = "" \/ exists r, Color.Ext p = String "."%char r)
  /\ Color.ToLower (Color.Ext p) <> "jpeg"
  /\ (Color.ToLower (Color.Ext p) = ".jpeg" ->
      Color.ext_color (Color.ToLower (Color.Ext p)) = None)
  /\ (forall w, lowers_ascii w -> keeps_dot w ->
        strings_ToLower w (Color.Ext p) <> "jpeg"
        /\ (strings_ToLower w (Color.Ext p) = ".jpeg" ->
            Color.ext_color (strings_ToLower w (Color.Ext p)) = None)).
Proof.
  pose proof (ExtFacts.Ext_from_dot p "" (or_introl eq_refl)) as Hd.
  fold (Color.Ext p) in Hd.
  split; [exact Hd|]. split; [|split].
  - destruct Hd as [->|[r ->]]; discriminate.
  - intros ->. reflexivity.
  - intros w Hlow Hdot. split.
    + destruct Hd as [->|[r ->]].
      * rewrite (Hlow "" eq_refl). discriminate.
      * rewrite Hdot. discriminate.
    + intros ->. reflexivity.
Qed.

Example demo_world_lowers :
  lowers_ascii Demo.world /\ keeps_dot Demo.world.
Proof. split; [intros s _; reflexivity|intros s; reflexivity]. Qed.
